(** * dbNetwork: the timing-graph view of the physical database

    A shallow embedding of [src/dbSta/src/dbNetwork.cc].  The adapter
    reinterprets raw database pointers as Instance/Pin/Net/Term handles and
    dispatches on the type tag stored in the pointed-to object.  Here a
    database pointer is a pair of a type tag and a per-type database id, a
    null pointer is [None], and the database itself is a record of tables
    from ids to objects. *)

From Stdlib Require Import Ascii.
From stdpp Require Import gmap strings list fin_maps.

Local Open Scope N_scope.

(** ** The logger and the outcome of a call *)

(** One logged message: [logger_->warn(ORD, id, fmt, args...)]. *)
Record LogMsg := mkLogMsg { msg_id : N; msg_args : list string }.

#[global] Instance LogMsg_eq_dec : EqDecision LogMsg.
Proof. solve_decision. Defined.

(** Why a call did not return. *)
Inductive Fault :=
| LoggedError (id : N)      (* logger_->error(ORD, id, ...)    *)
| LoggedCritical (id : N)   (* logger_->critical(ORD, id, ...) *)
| NullDeref                 (* a member call through a null pointer *)
| DeadObject.               (* a handle that names no object of the database *)

#[global] Instance Fault_eq_dec : EqDecision Fault.
Proof. solve_decision. Defined.

(** Modelled from the spec: the logger (utl/Logger.h is not among the
    sources).  Section 7 of the design has three tiers: a warning is logged
    and the call goes on; an error or a critical message ends the call, which
    never returns to its caller. *)
Inductive Outcome (A : Type) :=
| Returns (warnings : list LogMsg) (a : A)
| Stops (warnings : list LogMsg) (f : Fault).
Arguments Returns {A} warnings a.
Arguments Stops {A} warnings f.

Definition ret {A} (a : A) : Outcome A := Returns [] a.

Definition bind {A B} (m : Outcome A) (k : A → Outcome B) : Outcome B :=
  match m with
  | Returns w a =>
      match k a with
      | Returns w' b => Returns (w ++ w') b
      | Stops w' f => Stops (w ++ w') f
      end
  | Stops w f => Stops w f
  end.

#[global] Instance Outcome_ret : MRet Outcome := @ret.
#[global] Instance Outcome_bind : MBind Outcome := λ A B k m, bind m k.

Definition logger_warn (id : N) (args : list string) : Outcome unit :=
  Returns [mkLogMsg id args] tt.
Definition logger_error {A} (id : N) : Outcome A := Stops [] (LoggedError id).
Definition logger_critical {A} (id : N) : Outcome A :=
  Stops [] (LoggedCritical id).

(** [p->member] on a possibly null pointer. *)
Definition nonnull {A} (p : option A) : Outcome A :=
  match p with
  | Some a => ret a
  | None => Stops [] NullDeref
  end.

Definition warnings {A} (m : Outcome A) : list LogMsg :=
  match m with Returns w _ | Stops w _ => w end.

Definition is_fatal {A} (m : Outcome A) : bool :=
  match m with Returns _ _ => false | Stops _ _ => true end.

(** ** Database objects *)

(** Modelled from the spec: the physical database (odb/db.h is not among
    the sources).  Section 6 lists what the adapter consumes from it: the
    type tag and sequence number of every entity, the enumerable
    collections of an owner, lookup by name, and the mutation primitives.
    An object is the record of what its getters return, a pointer to it is
    its kind and id, and the block is one table per kind. *)

Abbreviation dbId := N.

(** [odb::dbObjectType]: the nine kinds the adapter knows, and some of the
    kinds it does not classify. *)
Inductive dbObjectType :=
| dbITermObj | dbBTermObj | dbInstObj | dbNetObj
| dbModITermObj | dbModBTermObj | dbModInstObj | dbModNetObj | dbModuleObj
| dbBlockObj | dbMasterObj | dbMTermObj | dbLibObj.

#[global] Instance dbObjectType_eq_dec : EqDecision dbObjectType.
Proof. solve_decision. Defined.

Definition dbObjectType_code (t : dbObjectType) : N :=
  match t with
  | dbITermObj => 0 | dbBTermObj => 1 | dbInstObj => 2 | dbNetObj => 3
  | dbModITermObj => 4 | dbModBTermObj => 5 | dbModInstObj => 6
  | dbModNetObj => 7 | dbModuleObj => 8
  | dbBlockObj => 9 | dbMasterObj => 10 | dbMTermObj => 11 | dbLibObj => 12
  end.

Definition dbObjectType_of_code (n : N) : option dbObjectType :=
  match n with
  | 0 => Some dbITermObj | 1 => Some dbBTermObj | 2 => Some dbInstObj
  | 3 => Some dbNetObj | 4 => Some dbModITermObj | 5 => Some dbModBTermObj
  | 6 => Some dbModInstObj | 7 => Some dbModNetObj | 8 => Some dbModuleObj
  | 9 => Some dbBlockObj | 10 => Some dbMasterObj | 11 => Some dbMTermObj
  | 12 => Some dbLibObj
  | _ => None
  end.

#[global] Instance dbObjectType_countable : Countable dbObjectType.
Proof.
  apply (inj_countable dbObjectType_code dbObjectType_of_code).
  by intros [].
Defined.

(** A non-null [dbObject*]: what [getObjectType()] and [getId()] read. *)
Record dbObject := mkObj { getObjectType : dbObjectType; getId : dbId }.

#[global] Instance dbObject_eq_dec : EqDecision dbObject.
Proof. solve_decision. Defined.

#[global] Instance dbObject_countable : Countable dbObject.
Proof.
  apply (inj_countable' (λ o, (getObjectType o, getId o))
                        (λ p, mkObj p.1 p.2)).
  by intros [].
Defined.

(** The STA handle types are all reinterpreted database pointers.
    [top_instance_] is the pointer value 1, which is no object. *)
Abbreviation Pin := (option dbObject).
Abbreviation Net := (option dbObject).
Abbreviation Term := (option dbObject).

Inductive InstanceRef :=
| TopInstance
| InstanceObj (o : dbObject).

#[global] Instance InstanceRef_eq_dec : EqDecision InstanceRef.
Proof. solve_decision. Defined.

(** [Instance*] ([Instance] is a keyword of the prover). *)
Abbreviation StaInstance := (option InstanceRef).

Inductive dbSigType :=
| SIGNAL | POWER | GROUND | CLOCK | ANALOG | RESET | SCAN | TIEOFF.

#[global] Instance dbSigType_eq_dec : EqDecision dbSigType.
Proof. solve_decision. Defined.

Definition isSupply (s : dbSigType) : bool :=
  match s with POWER | GROUND => true | _ => false end.

Inductive dbIoType := INPUT | OUTPUT | INOUT | FEEDTHRU.

#[global] Instance dbIoType_eq_dec : EqDecision dbIoType.
Proof. solve_decision. Defined.

Inductive PortDirection :=
| dir_input | dir_output | dir_tristate | dir_bidirect
| dir_internal | dir_ground | dir_power | dir_unknown.

#[global] Instance PortDirection_eq_dec : EqDecision PortDirection.
Proof. solve_decision. Defined.

Definition isPowerGround (d : PortDirection) : bool :=
  match d with dir_ground | dir_power => true | _ => false end.

Record dbITerm := mkITerm {
  iterm_inst : dbId;                (* getInst()   *)
  iterm_mterm : string;             (* getMTerm()->getConstName() *)
  iterm_sigType : dbSigType;        (* getSigType() *)
  iterm_ioType : dbIoType;          (* getIoType()  *)
  iterm_net : option dbId;          (* getNet()     *)
  iterm_modNet : option dbId        (* getModNet()  *)
}.

Record dbBTerm := mkBTerm {
  bterm_name : string;
  bterm_sigType : dbSigType;
  bterm_ioType : dbIoType;
  bterm_net : option dbId;
  bterm_modNet : option dbId
}.

Record dbModITerm := mkModITerm {
  moditerm_name : string;
  moditerm_parent : dbId;           (* getParent(): the module instance *)
  moditerm_modNet : option dbId
}.

Record dbModBTerm := mkModBTerm {
  modbterm_name : string;
  modbterm_parent : dbId;           (* getParent(): the module *)
  modbterm_sigType : dbSigType;
  modbterm_ioType : dbIoType;
  modbterm_modNet : option dbId
}.

Record dbInst := mkInst {
  inst_name : string;
  inst_master : string;             (* getMaster()->getConstName() *)
  inst_module : dbId                (* getModule(): where it is placed *)
}.

Record dbModInst := mkModInst {
  modinst_name : string;
  modinst_parent : dbId;            (* getParent(): the enclosing module *)
  modinst_master : dbId             (* getMaster(): the module it instantiates *)
}.

Record dbModule := mkModule {
  module_name : string;
  module_modInst : option dbId      (* getModInst(): null for the top module *)
}.

Record dbNet := mkNet {
  net_name : string;
  net_sigType : dbSigType
}.

Record dbModNet := mkModNet {
  modnet_name : string;
  modnet_parent : dbId
}.

(** The block: one table per object kind. *)
Record dbBlock := mkBlock {
  block_name : string;
  top_module : dbId;
  ITerms : gmap dbId dbITerm;
  BTerms : gmap dbId dbBTerm;
  Insts : gmap dbId dbInst;
  Nets : gmap dbId dbNet;
  ModITerms : gmap dbId dbModITerm;
  ModBTerms : gmap dbId dbModBTerm;
  ModInsts : gmap dbId dbModInst;
  ModNets : gmap dbId dbModNet;
  Modules : gmap dbId dbModule
}.

(** Reading an object through a pointer. *)
Definition deref {A} (tbl : gmap dbId A) (i : dbId) : Outcome A :=
  match tbl !! i with
  | Some a => ret a
  | None => Stops [] DeadObject
  end.

(** A [dbSet<T>] obtained from an owner: the objects of a table that pass
    the membership test, each with its id. *)
Definition dbSet_of {A} (tbl : gmap dbId A) (p : A → bool) : list (dbId * A) :=
  filter (λ kv, p kv.2 = true) (map_to_list tbl).

(** [owner->findX(name)]: the database's name index. *)
Definition dbSet_find {A} (tbl : gmap dbId A) (p : A → bool)
  : option (dbId * A) :=
  head (dbSet_of tbl p).

Definition same (i : dbId) (o : option dbId) : bool := bool_decide (o = Some i).

Definition net_getITerms (db : dbBlock) (n : dbId) :=
  dbSet_of (ITerms db) (λ t, same n (iterm_net t)).
Definition net_getBTerms (db : dbBlock) (n : dbId) :=
  dbSet_of (BTerms db) (λ t, same n (bterm_net t)).
Definition modnet_getITerms (db : dbBlock) (m : dbId) :=
  dbSet_of (ITerms db) (λ t, same m (iterm_modNet t)).
Definition modnet_getBTerms (db : dbBlock) (m : dbId) :=
  dbSet_of (BTerms db) (λ t, same m (bterm_modNet t)).
Definition modnet_getModITerms (db : dbBlock) (m : dbId) :=
  dbSet_of (ModITerms db) (λ t, same m (moditerm_modNet t)).
Definition modnet_getModBTerms (db : dbBlock) (m : dbId) :=
  dbSet_of (ModBTerms db) (λ t, same m (modbterm_modNet t)).
Definition inst_getITerms (db : dbBlock) (i : dbId) :=
  dbSet_of (ITerms db) (λ t, bool_decide (iterm_inst t = i)).
Definition modinst_getModITerms (db : dbBlock) (m : dbId) :=
  dbSet_of (ModITerms db) (λ t, bool_decide (moditerm_parent t = m)).
Definition module_getInsts (db : dbBlock) (m : dbId) :=
  dbSet_of (Insts db) (λ i, bool_decide (inst_module i = m)).
Definition module_getModInsts (db : dbBlock) (m : dbId) :=
  dbSet_of (ModInsts db) (λ i, bool_decide (modinst_parent i = m)).
Definition block_getInsts (db : dbBlock) := dbSet_of (Insts db) (λ _, true).
Definition block_getBTerms (db : dbBlock) := dbSet_of (BTerms db) (λ _, true).

Definition module_findModBTerm (db : dbBlock) (m : dbId) (name : string) :=
  dbSet_find (ModBTerms db)
    (λ t, bool_decide (modbterm_parent t = m ∧ modbterm_name t = name)).
Definition modinst_findModITerm (db : dbBlock) (m : dbId) (name : string) :=
  dbSet_find (ModITerms db)
    (λ t, bool_decide (moditerm_parent t = m ∧ moditerm_name t = name)).
Definition block_findBTerm (db : dbBlock) (name : string) :=
  dbSet_find (BTerms db) (λ t, bool_decide (bterm_name t = name)).

(** ** The network adapter's own state *)

(** The tag constants of the identity scheme.  They are declared in
    db_sta/dbNetwork.hh, which is not among the sources, and so are the
    width of [ObjectId]; the encoder is parameterised by them. *)
Record IdScheme := mkIdScheme {
  OBJECTID_BITS : N;
  DBIDTAG_WIDTH : N;
  DBITERM_ID : N;
  DBBTERM_ID : N;
  DBINST_ID : N;
  DBNET_ID : N;
  DBMODITERM_ID : N;
  DBMODBTERM_ID : N;
  DBMODINST_ID : N;
  DBMODNET_ID : N;
  DBMODULE_ID : N
}.

(** A scheme as the source comment describes it: 32-bit ids, the lower 4
    bits encode the type; the tags are numbered in the order of the
    switch. *)
Definition header_scheme : IdScheme :=
  mkIdScheme 32 4 0 1 2 3 4 5 6 7 8.

Definition ObjectId_max (s : IdScheme) : N := 2 ^ OBJECTID_BITS s - 1.

(** Unsigned arithmetic of the width of [ObjectId]. *)
Definition wrap (s : IdScheme) (n : N) : N := n mod 2 ^ OBJECTID_BITS s.

Definition tag_of (s : IdScheme) (typ : dbObjectType) : option N :=
  match typ with
  | dbITermObj => Some (DBITERM_ID s)
  | dbBTermObj => Some (DBBTERM_ID s)
  | dbInstObj => Some (DBINST_ID s)
  | dbNetObj => Some (DBNET_ID s)
  | dbModITermObj => Some (DBMODITERM_ID s)
  | dbModBTermObj => Some (DBMODBTERM_ID s)
  | dbModInstObj => Some (DBMODINST_ID s)
  | dbModNetObj => Some (DBMODNET_ID s)
  | dbModuleObj => Some (DBMODULE_ID s)
  | _ => None
  end.

(** [dbNetwork::getDbNwkObjectId] *)
Definition getDbNwkObjectId (s : IdScheme) (typ : dbObjectType) (db_id : N)
  : Outcome N :=
  _ ← (if decide (N.shiftr (ObjectId_max s) (DBIDTAG_WIDTH s) < db_id)
       then logger_error 2019 else ret tt) ;
  match tag_of s typ with
  | Some tag => ret (wrap s (N.lor (N.shiftl db_id (DBIDTAG_WIDTH s)) tag))
  | None => logger_error 2017
  end.

(** ** Handles to database pointers and back *)

(** [dbToSta]: every conversion is a [reinterpret_cast], null stays null. *)
Definition dbToSta (typ : dbObjectType) (p : option dbId) : option dbObject :=
  mkObj typ <$> p.

Definition dbToSta_Instance (typ : dbObjectType) (p : option dbId) : StaInstance :=
  (λ i, InstanceObj (mkObj typ i)) <$> p.

(** [dbNetwork::staToDb(const Instance*, dbInst*&, dbModInst*&)] *)
Definition staToDb_Instance (instance : StaInstance)
  : Outcome (option dbId * option dbId) :=
  match instance with
  | Some (InstanceObj obj) =>
      match getObjectType obj with
      | dbInstObj => mret (Some (getId obj), None)
      | dbModInstObj => mret (None, Some (getId obj))
      | _ => logger_critical 2016
      end
  | _ => mret (None, None)
  end.

(** [dbNetwork::staToDb(const Net*, dbNet*&, dbModNet*&)] *)
Definition staToDb_Net (net : Net) : option dbId * option dbId :=
  match net with
  | Some obj =>
      match getObjectType obj with
      | dbNetObj => (Some (getId obj), None)
      | dbModNetObj => (None, Some (getId obj))
      | _ => (None, None)
      end
  | None => (None, None)
  end.

(** The four return values of the Pin and Term classifiers. *)
Record TermPtrs := mkTermPtrs {
  iterm : option dbId;
  bterm : option dbId;
  moditerm : option dbId;
  modbterm : option dbId
}.

Definition no_term : TermPtrs := mkTermPtrs None None None None.

(** [dbNetwork::staToDb(const Pin*, dbITerm*&, dbBTerm*&, dbModITerm*&,
    dbModBTerm*&)] *)
Definition staToDb_Pin (pin : Pin) : Outcome TermPtrs :=
  match pin with
  | Some obj =>
      match getObjectType obj with
      | dbITermObj => mret (mkTermPtrs (Some (getId obj)) None None None)
      | dbBTermObj => mret (mkTermPtrs None (Some (getId obj)) None None)
      | dbModBTermObj => mret (mkTermPtrs None None None (Some (getId obj)))
      | dbModITermObj => mret (mkTermPtrs None None (Some (getId obj)) None)
      | _ => _ ← logger_warn 2018 []; mret no_term
      end
  | None => mret no_term
  end.

(** [dbNetwork::staToDb(const Term*, ...)] *)
Definition staToDb_Term (term : Term) : TermPtrs :=
  match term with
  | Some obj =>
      match getObjectType obj with
      | dbITermObj => mkTermPtrs (Some (getId obj)) None None None
      | dbBTermObj => mkTermPtrs None (Some (getId obj)) None None
      | dbModBTermObj => mkTermPtrs None None None (Some (getId obj))
      | dbModITermObj => mkTermPtrs None None (Some (getId obj)) None
      | _ => no_term
      end
  | None => no_term
  end.

(** [std::string::find_last_of('/')] followed by [substr(last_idx + 1)]:
    the text after the last slash, if there is a slash. *)
Fixpoint after_last_slash (str : string) : option string :=
  match str with
  | EmptyString => None
  | String c rest =>
      match after_last_slash rest with
      | Some t => Some t
      | None => if Ascii.eqb c "/"%char then Some rest else None
      end
  end.

(** ** Queries on a loaded design *)

(** The adapter's members that the queries read: [hierarchy_] and [block_].
    A design is loaded: [block_] and [top_cell_] are set, so [topInstance()]
    is [top_instance_] and the tests for a missing block pass. *)
Section Queries.
Context (s : IdScheme) (hierarchy_ : bool) (block_ : dbBlock).

Definition top_instance_ : StaInstance := Some TopInstance.

(** The object behind a handle that the code dereferences unconditionally. *)
Definition Instance_obj (instance : StaInstance) : Outcome dbObject :=
  match instance with
  | Some (InstanceObj obj) => mret obj
  | Some TopInstance => Stops [] DeadObject
  | None => Stops [] NullDeref
  end.

(** [dbNetwork::id(const Instance* instance)] *)
Definition id_Instance (instance : StaInstance) : Outcome N :=
  if decide (instance = top_instance_) then mret 0
  else if hierarchy_ then
    obj ← Instance_obj instance;
    getDbNwkObjectId s (getObjectType obj) (getId obj)
  else
    '(db_inst, _) ← staToDb_Instance instance;
    i ← nonnull db_inst;
    mret i.

(** [dbNetwork::id(const Pin* pin)] *)
Definition id_Pin (pin : Pin) : Outcome N :=
  t ← staToDb_Pin pin;
  if hierarchy_ then
    obj ← nonnull pin;
    getDbNwkObjectId s (getObjectType obj) (getId obj)
  else
    match iterm t with
    | Some i => mret (wrap s (N.shiftl i 1))
    | None =>
        match bterm t with
        | Some b => mret (wrap s (wrap s (N.shiftl b 1) + 1))
        | None => mret 0
        end
    end.

(** [dbNetwork::id(const Net* net)] *)
Definition id_Net (net : Net) : Outcome N :=
  let '(dnet, modnet) := staToDb_Net net in
  if hierarchy_ then
    obj ← nonnull net;
    getDbNwkObjectId s (getObjectType obj) (getId obj)
  else
    i ← nonnull dnet;
    mret i.

(** [dbNetwork::id(const Term* term)]; without hierarchy the handle is read as
    a [dbBTerm] whatever it is. *)
Definition id_Term (term : Term) : Outcome N :=
  if hierarchy_ then
    obj ← nonnull term;
    getDbNwkObjectId s (getObjectType obj) (getId obj)
  else
    obj ← nonnull term;
    mret (getId obj).

(** [dbNetwork::instance(const Pin* pin)] *)
Definition instance_Pin (pin : Pin) : Outcome StaInstance :=
  t ← staToDb_Pin pin;
  match iterm t, bterm t, moditerm t, modbterm t with
  | Some i, _, _, _ =>
      it ← deref (ITerms block_) i;
      mret (dbToSta_Instance dbInstObj (Some (iterm_inst it)))
  | None, Some _, _, _ => mret top_instance_
  | None, None, Some m, _ =>
      mt ← deref (ModITerms block_) m;
      mret (dbToSta_Instance dbModInstObj (Some (moditerm_parent mt)))
  | None, None, None, Some b =>
      mb ← deref (ModBTerms block_) b;
      module ← deref (Modules block_) (modbterm_parent mb);
      mret (dbToSta_Instance dbModInstObj (module_modInst module))
  | None, None, None, None => mret None
  end.

(** [dbNetwork::net(const Pin* pin)] *)
Definition net_Pin (pin : Pin) : Outcome Net :=
  t ← staToDb_Pin pin;
  let after_iterm : Outcome Net :=
    match bterm t, moditerm t, modbterm t with
    | Some _, _, _ => mret None
    | None, Some m, _ =>
        mt ← deref (ModITerms block_) m;
        mret (dbToSta dbModNetObj (moditerm_modNet mt))
    | None, None, Some b =>
        mb ← deref (ModBTerms block_) b;
        mret (dbToSta dbModNetObj (modbterm_modNet mb))
    | None, None, None => mret None
    end in
  match iterm t with
  | Some i =>
      it ← deref (ITerms block_) i;
      match iterm_modNet it, iterm_net it with
      | Some mnet, _ => mret (dbToSta dbModNetObj (Some mnet))
      | None, Some dnet => mret (dbToSta dbNetObj (Some dnet))
      | None, None => after_iterm
      end
  | None => after_iterm
  end.

(** [dbNetwork::term(const Pin* pin)] *)
Definition term_Pin (pin : Pin) : Outcome Term :=
  t ← staToDb_Pin pin;
  match iterm t, bterm t, moditerm t with
  | Some _, _, _ => mret None
  | None, Some b, _ => mret (dbToSta dbBTermObj (Some b))
  | None, None, Some m =>
      mt ← deref (ModITerms block_) m;
      let port_name := default (moditerm_name mt)
                               (after_last_slash (moditerm_name mt)) in
      mod_inst ← deref (ModInsts block_) (moditerm_parent mt);
      match module_findModBTerm block_ (modinst_master mod_inst) port_name with
      | Some mod_port => mret (dbToSta dbModBTermObj (Some mod_port.1))
      | None => mret (dbToSta dbModBTermObj (modbterm t))
      end
  | None, None, None => mret (dbToSta dbModBTermObj (modbterm t))
  end.

(** [dbNetwork::net(const Term* term)] *)
Definition net_Term (term : Term) : Outcome Net :=
  let t := staToDb_Term term in
  match modbterm t, bterm t with
  | Some b, _ =>
      mb ← deref (ModBTerms block_) b;
      mret (dbToSta dbModNetObj (modbterm_modNet mb))
  | None, Some b =>
      bt ← deref (BTerms block_) b;
      match bterm_modNet bt, bterm_net bt with
      | Some mod_net, _ => mret (dbToSta dbModNetObj (Some mod_net))
      | None, Some dnet => mret (dbToSta dbNetObj (Some dnet))
      | None, None => mret None
      end
  | None, None => mret None
  end.

(** [dbNetwork::isPower] and [dbNetwork::isGround]: the handle is read as
    a [dbNet]. *)
Definition Net_sigType (net : Net) : Outcome dbSigType :=
  obj ← nonnull net;
  match getObjectType obj with
  | dbNetObj => dnet ← deref (Nets block_) (getId obj); mret (net_sigType dnet)
  | _ => Stops [] DeadObject
  end.

Definition isPower (net : Net) : Outcome bool :=
  sig ← Net_sigType net; mret (bool_decide (sig = POWER)).

Definition isGround (net : Net) : Outcome bool :=
  sig ← Net_sigType net; mret (bool_decide (sig = GROUND)).

(** [dbNetwork::parent] *)
Definition parent (instance : StaInstance) : Outcome StaInstance :=
  if decide (instance = top_instance_) then mret None
  else
    '(db_inst, mod_inst) ← staToDb_Instance instance;
    match mod_inst with
    | Some m =>
        mi ← deref (ModInsts block_) m;
        parent_module ← deref (Modules block_) (modinst_parent mi);
        match module_modInst parent_module with
        | Some parent_inst =>
            mret (dbToSta_Instance dbModInstObj (Some parent_inst))
        | None => mret top_instance_
        end
    | None => mret top_instance_
    end.
End Queries.

(** ** Iterators *)

(** The caller's loop [while (it->hasNext()) { x = it->next(); ... }]:
    the sequence an iterator produces.  [hasNext] may move the iterator. *)
Fixpoint iterate {S A} (hasNext : S → bool * S) (next : S → A * S)
    (fuel : nat) (it : S) : list A :=
  match fuel with
  | O => []
  | Datatypes.S fuel' =>
      let (more, it1) := hasNext it in
      if more then
        let (x, it2) := next it1 in x :: iterate hasNext next fuel' it2
      else []
  end.

Record DbInstanceChildIterator := mkChildIter {
  child_top_ : bool;
  dbinst_iter_ : list dbId;     (* from the iterator to dbinst_end_ *)
  modinst_iter_ : list dbId     (* from the iterator to modinst_end_ *)
}.

Record DbInstancePinIterator := mkInstPinIter {
  pin_top_ : bool;
  inst_iitr_ : list (dbId * dbITerm);
  inst_bitr_ : list dbId;
  inst_mi_itr_ : list dbId;
  inst_next_ : Pin
}.

Record DbNetPinIterator := mkNetPinIter {
  net_iitr_ : list (dbId * dbITerm);
  net_mitr_ : list dbId;
  net_next_ : Pin
}.

(** The loop [while (iitr_ != iitr_end_)] of both pin iterators: the first
    terminal that is not a supply terminal and the position after it. *)
Fixpoint next_signal_iterm (iitr : list (dbId * dbITerm))
  : option (dbId * list (dbId * dbITerm)) :=
  match iitr with
  | [] => None
  | it :: rest =>
      if negb (isSupply (iterm_sigType it.2)) then Some (it.1, rest)
      else next_signal_iterm rest
  end.

Section Iterators.
Context (hierarchy_ : bool) (block_ : dbBlock).

(** [DbInstanceChildIterator::DbInstanceChildIterator] *)
Definition DbInstanceChildIterator_new (instance : StaInstance)
  : Outcome DbInstanceChildIterator :=
  if negb hierarchy_ then
    if decide (instance = top_instance_) then
      mret (mkChildIter true (block_getInsts block_).*1 [])
    else mret (mkChildIter false [] [])
  else
    '(top, module) ←
      (if decide (instance = top_instance_) then
         mret (true, Some (top_module block_))
       else
         '(db_inst, mod_inst) ← staToDb_Instance instance;
         match mod_inst with
         | Some m =>
             mi ← deref (ModInsts block_) m;
             mret (false, Some (modinst_master mi))
         | None => mret (false, None)
         end);
    match module with
    | Some md =>
        mret (mkChildIter top (module_getInsts block_ md).*1
                              (module_getModInsts block_ md).*1)
    | None => mret (mkChildIter top [] [])
    end.

(** [DbInstanceChildIterator::hasNext] *)
Definition DbInstanceChildIterator_hasNext (it : DbInstanceChildIterator)
  : bool * DbInstanceChildIterator :=
  (negb (bool_decide (dbinst_iter_ it = []) &&
         bool_decide (modinst_iter_ it = [])), it).

(** [DbInstanceChildIterator::next] *)
Definition DbInstanceChildIterator_next (it : DbInstanceChildIterator)
  : StaInstance * DbInstanceChildIterator :=
  match dbinst_iter_ it with
  | child :: rest =>
      (dbToSta_Instance dbInstObj (Some child),
       mkChildIter (child_top_ it) rest (modinst_iter_ it))
  | [] =>
      match modinst_iter_ it with
      | child :: rest =>
          (dbToSta_Instance dbModInstObj (Some child),
           mkChildIter (child_top_ it) [] rest)
      | [] => (None, it)
      end
  end.

(** The children [dbNetwork::childIterator(instance)] produces. *)
Definition childIterator (instance : StaInstance) : Outcome (list StaInstance) :=
  it ← DbInstanceChildIterator_new instance;
  mret (iterate DbInstanceChildIterator_hasNext DbInstanceChildIterator_next
          (Datatypes.S (length (dbinst_iter_ it) + length (modinst_iter_ it)))
          it).

(** [DbInstancePinIterator::DbInstancePinIterator].  The member
    [mod_inst_] has just been set to null when it is tested. *)
Definition DbInstancePinIterator_new (inst : StaInstance)
  : Outcome DbInstancePinIterator :=
  let top := bool_decide (inst = top_instance_) in
  let mod_inst_ : option dbId := None in
  if top then
    mret (mkInstPinIter top [] (block_getBTerms block_).*1 [] None)
  else
    '(db_inst, mod_inst) ← staToDb_Instance inst;
    match db_inst with
    | Some i => mret (mkInstPinIter top (inst_getITerms block_ i) [] [] None)
    | None =>
        match mod_inst_ with
        | Some m =>
            if hierarchy_ then
              mret (mkInstPinIter top [] []
                      (modinst_getModITerms block_ m).*1 None)
            else mret (mkInstPinIter top [] [] [] None)
        | None => mret (mkInstPinIter top [] [] [] None)
        end
    end.

(** [DbInstancePinIterator::hasNext] *)
Definition DbInstancePinIterator_hasNext (it : DbInstancePinIterator)
  : bool * DbInstancePinIterator :=
  if pin_top_ it then
    match inst_bitr_ it with
    | [] => (false, it)
    | b :: rest =>
        (true, mkInstPinIter (pin_top_ it) (inst_iitr_ it) rest
                 (inst_mi_itr_ it) (dbToSta dbBTermObj (Some b)))
    end
  else
    match next_signal_iterm (inst_iitr_ it) with
    | Some (i, rest) =>
        (true, mkInstPinIter (pin_top_ it) rest (inst_bitr_ it)
                 (inst_mi_itr_ it) (dbToSta dbITermObj (Some i)))
    | None =>
        match inst_mi_itr_ it with
        | m :: rest =>
            if hierarchy_ then
              (true, mkInstPinIter (pin_top_ it) [] (inst_bitr_ it) rest
                       (dbToSta dbModITermObj (Some m)))
            else
              (false, mkInstPinIter (pin_top_ it) [] (inst_bitr_ it)
                        (inst_mi_itr_ it) (inst_next_ it))
        | [] =>
            (false, mkInstPinIter (pin_top_ it) [] (inst_bitr_ it) []
                      (inst_next_ it))
        end
    end.

(** [DbInstancePinIterator::next] *)
Definition DbInstancePinIterator_next (it : DbInstancePinIterator)
  : Pin * DbInstancePinIterator :=
  (inst_next_ it, it).

(** The pins [dbNetwork::pinIterator(instance)] produces. *)
Definition pinIterator_Instance (inst : StaInstance) : Outcome (list Pin) :=
  it ← DbInstancePinIterator_new inst;
  mret (iterate DbInstancePinIterator_hasNext DbInstancePinIterator_next
          (Datatypes.S (length (inst_iitr_ it) + length (inst_bitr_ it)
                        + length (inst_mi_itr_ it)))
          it).

(** [DbNetPinIterator::DbNetPinIterator] *)
Definition DbNetPinIterator_new (net : Net) : DbNetPinIterator :=
  match staToDb_Net net with
  | (_, Some modnet) =>
      mkNetPinIter (modnet_getITerms block_ modnet)
                   (modnet_getModITerms block_ modnet).*1 None
  | (Some dnet, None) => mkNetPinIter (net_getITerms block_ dnet) [] None
  | (None, None) => mkNetPinIter [] [] None
  end.

(** [DbNetPinIterator::hasNext] *)
Definition DbNetPinIterator_hasNext (it : DbNetPinIterator)
  : bool * DbNetPinIterator :=
  match next_signal_iterm (net_iitr_ it) with
  | Some (i, rest) =>
      (true, mkNetPinIter rest (net_mitr_ it) (dbToSta dbITermObj (Some i)))
  | None =>
      match net_mitr_ it with
      | m :: rest =>
          if hierarchy_ then
            (true, mkNetPinIter [] rest (dbToSta dbModITermObj (Some m)))
          else (false, mkNetPinIter [] (net_mitr_ it) (net_next_ it))
      | [] => (false, mkNetPinIter [] [] (net_next_ it))
      end
  end.

(** [DbNetPinIterator::next] *)
Definition DbNetPinIterator_next (it : DbNetPinIterator)
  : Pin * DbNetPinIterator :=
  (net_next_ it, it).

(** The pins [dbNetwork::pinIterator(net)] produces. *)
Definition pinIterator_Net (net : Net) : list Pin :=
  let it := DbNetPinIterator_new net in
  iterate DbNetPinIterator_hasNext DbNetPinIterator_next
    (Datatypes.S (length (net_iitr_ it) + length (net_mitr_ it))) it.
End Iterators.

(** ** Connectivity traversal *)

(** What a traversal has done so far: the pins handed to the visitor, in
    call order, and the [visited_nets] set shared by the whole recursion. *)
Record Visit := mkVisit {
  visitor_calls : list Pin;
  visited_nets : gset Net
}.

Definition visitor (pin : Pin) (v : Visit) : Visit :=
  mkVisit (visitor_calls v ++ [pin]) (visited_nets v).

(** A recursion bounded by fuel: [None] when the fuel ran out. *)
Definition fuel_bind {A B} (m : option (Outcome A))
    (k : A → option (Outcome B)) : option (Outcome B) :=
  match m with
  | None => None
  | Some (Stops w f) => Some (Stops w f)
  | Some (Returns w a) =>
      match k a with
      | None => None
      | Some (Returns w' b) => Some (Returns (w ++ w') b)
      | Some (Stops w' f) => Some (Stops (w ++ w') f)
      end
  end.

(** A range-based [for] loop whose body may recurse. *)
Fixpoint for_each {A S} (l : list A) (body : A → S → option (Outcome S))
    (st : S) : option (Outcome S) :=
  match l with
  | [] => Some (mret st)
  | x :: rest => fuel_bind (body x st) (for_each rest body)
  end.

Section Traversal.
Context (block_ : dbBlock).

(** The four loops that hand the terminals listed on a net to the
    visitor. *)
Definition visit_all (typ : dbObjectType) (ids : list dbId) (v : Visit)
  : Visit :=
  foldl (λ v i, visitor (dbToSta typ (Some i)) v) v ids.

(** The head of the body of the loop "visit below nets": the boundary
    terminal of the instantiated module that has the name of the module
    terminal, and the net of that pin.  [name(below_pin)] reads through
    the pin, so a module terminal without such a boundary terminal ends
    the call. *)
Definition below_pin_net (moditerm : dbId * dbModITerm) : Outcome (Pin * Net) :=
  mod_inst ← deref (ModInsts block_) (moditerm_parent moditerm.2);
  let module := modinst_master mod_inst in
  let pin_name := moditerm_name moditerm.2 in
  mod_bterm ← nonnull (module_findModBTerm block_ module pin_name);
  let below_pin := dbToSta dbModBTermObj (Some mod_bterm.1) in
  below_net ← net_Pin block_ below_pin;
  mret (below_pin, below_net).

(** The head of the body of the loop "visit above nets": the module
    terminal of that name on the instance of the module, if there is one,
    and its net.  [mod_inst->findModITerm] reads through the instance, so
    a boundary terminal of a module without an instance ends the call. *)
Definition above_pin_net (modbterm : dbId * dbModBTerm)
  : Outcome (option (Pin * Net)) :=
  db_module ← deref (Modules block_) (modbterm_parent modbterm.2);
  mod_inst ← nonnull (module_modInst db_module);
  let pin_name := modbterm_name modbterm.2 in
  match modinst_findModITerm block_ mod_inst pin_name with
  | Some mod_iterm =>
      let above_pin := dbToSta dbModITermObj (Some mod_iterm.1) in
      above_net ← net_Pin block_ above_pin;
      mret (Some (above_pin, above_net))
  | None => mret None
  end.

(** [dbNetwork::visitConnectedPins] *)
Fixpoint visitConnectedPins (fuel : nat) (net : Net) (v : Visit)
  : option (Outcome Visit) :=
  match fuel with
  | O => None
  | Datatypes.S fuel' =>
      if decide (net ∈ visited_nets v) then Some (mret v)
      else
        let v := mkVisit (visitor_calls v) ({[ net ]} ∪ visited_nets v) in
        match staToDb_Net net with
        | (_, Some mod_net) =>
            let v := visit_all dbITermObj (modnet_getITerms block_ mod_net).*1 v in
            let v := visit_all dbBTermObj (modnet_getBTerms block_ mod_net).*1 v in
            let v := visit_all dbModBTermObj
                       (modnet_getModBTerms block_ mod_net).*1 v in
            let v := visit_all dbModITermObj
                       (modnet_getModITerms block_ mod_net).*1 v in
            (* visit below nets *)
            fuel_bind
              (for_each (modnet_getModITerms block_ mod_net)
                 (λ moditerm v,
                    fuel_bind (Some (below_pin_net moditerm))
                      (λ '(below_pin, below_net),
                         visitConnectedPins fuel' below_net
                           (visitor below_pin v)))
                 v)
              (λ v,
                 (* visit above nets *)
                 for_each (modnet_getModBTerms block_ mod_net)
                   (λ modbterm v,
                      fuel_bind (Some (above_pin_net modbterm))
                        (λ above,
                           match above with
                           | Some (above_pin, above_net) =>
                               visitConnectedPins fuel' above_net
                                 (visitor above_pin v)
                           | None => Some (mret v)
                           end))
                   v)
        | (Some db_net, None) =>
            let v := visit_all dbITermObj (net_getITerms block_ db_net).*1 v in
            let v := visit_all dbBTermObj (net_getBTerms block_ db_net).*1 v in
            Some (mret v)
        | (None, None) => Some (mret v)
        end
  end.

(** The traversal as [Network::connectedPinIterator] starts it: an empty
    [visited_nets] set. *)
Definition connectedPins (fuel : nat) (net : Net) : option (Outcome Visit) :=
  visitConnectedPins fuel net (mkVisit [] ∅).
End Traversal.

(** ** Library, cell and port builder *)

(** [dbNetwork::dbToSta(const dbSigType&, const dbIoType&)].  The four io
    types are all there are, so the final [logger_->critical(ORD, 2008, ...)]
    is never reached. *)
Definition dbToSta_PortDirection (sig_type : dbSigType) (io_type : dbIoType)
  : PortDirection :=
  match sig_type with
  | POWER => dir_power
  | GROUND => dir_ground
  | _ =>
      match io_type with
      | INPUT => dir_input
      | OUTPUT => dir_output
      | INOUT => dir_bidirect
      | FEEDTHRU => dir_bidirect
      end
  end.

(** [dbNetwork::staToDb(PortDirection*, dbSigType&, dbIoType&)] *)
Definition staToDb_PortDirection (dir : PortDirection)
  : Outcome (dbSigType * dbIoType) :=
  match dir with
  | dir_input => mret (SIGNAL, INPUT)
  | dir_output => mret (SIGNAL, OUTPUT)
  | dir_bidirect => mret (SIGNAL, INOUT)
  | dir_power => mret (POWER, INOUT)
  | dir_ground => mret (GROUND, INOUT)
  | _ => logger_critical 2007
  end.

Record dbMTerm := mkMTerm {
  mterm_name : string;
  mterm_sigType : dbSigType;
  mterm_ioType : dbIoType
}.

Record dbMaster := mkMaster {
  master_name : string;
  master_MTerms : list dbMTerm
}.

Record LibertyPort := mkLibertyPort {
  liberty_port_name : string;
  liberty_port_direction : PortDirection
}.

Record LibertyCell := mkLibertyCell {
  liberty_cell_name : string;
  liberty_ports : list LibertyPort;
  liberty_pg_ports : list string
}.

(** The logical port built for a master terminal. *)
Record ConcretePort := mkPort {
  port_name : string;
  port_direction : PortDirection;
  port_libertyPort : option LibertyPort;
  port_extPort : option string          (* the dbMTerm it mirrors *)
}.

Record ConcreteCell := mkCell {
  cell_name : string;
  cell_libertyCell : option LibertyCell;
  cell_ports : list ConcretePort
}.

Definition findLibertyCell (liberty : list LibertyCell) (name : string)
  : option LibertyCell :=
  find (λ c, bool_decide (liberty_cell_name c = name)) liberty.

Definition findLibertyPort (cell : LibertyCell) (name : string)
  : option LibertyPort :=
  find (λ p, bool_decide (liberty_port_name p = name)) (liberty_ports cell).

Definition findPgPort (cell : LibertyCell) (name : string) : option string :=
  find (λ p, bool_decide (p = name)) (liberty_pg_ports cell).

(** The body of the loop over [master->getMTerms()] in
    [dbNetwork::makeCell]. *)
Definition makeCell_port (cell_name : string) (lib_cell : option LibertyCell)
    (mterm : dbMTerm) : Outcome ConcretePort :=
  let port_name := mterm_name mterm in
  let dir := dbToSta_PortDirection (mterm_sigType mterm) (mterm_ioType mterm) in
  match lib_cell with
  | Some lc =>
      match findLibertyPort lc port_name with
      | Some lib_port => mret (mkPort port_name dir (Some lib_port) (Some port_name))
      | None =>
          _ ← (if negb (isPowerGround dir)
                  && negb (bool_decide (is_Some (findPgPort lc port_name)))
               then logger_warn 2001 [cell_name; port_name]
               else mret tt);
          mret (mkPort port_name dir None (Some port_name))
      end
  | None => mret (mkPort port_name dir None (Some port_name))
  end.

(** A loop that collects what its body builds. *)
Fixpoint for_each_build {A B} (body : A → Outcome B) (l : list A)
  : Outcome (list B) :=
  match l with
  | [] => mret []
  | x :: rest =>
      y ← body x;
      ys ← for_each_build body rest;
      mret (y :: ys)
  end.

(** [dbNetwork::makeCell(Library* library, dbMaster* master)], against the
    default liberty library [liberty].  Grouping the bus ports and the
    closing loop over the other liberty libraries log nothing and are left
    out. *)
Definition makeCell (liberty : list LibertyCell) (master : dbMaster)
  : Outcome ConcreteCell :=
  let cell_name := master_name master in
  let lib_cell := findLibertyCell liberty cell_name in
  ports ← for_each_build (makeCell_port cell_name lib_cell)
                          (master_MTerms master);
  mret (mkCell cell_name lib_cell ports).

(** ** Edits *)

(** Modelled from the spec: the database's mutation primitives (section 6:
    [create], [destroy], [connect], [disconnect]), which live in odb and are
    not among the sources.  A terminal has one flat-net slot; connecting
    fills it, disconnecting leaves the terminal on no net, creating a
    boundary terminal gives it a fresh id and the database's default types,
    destroying a net takes it off every terminal. *)
Definition fresh_id {A} (tbl : gmap dbId A) : dbId :=
  N.succ (foldr N.max 0 (map_to_list tbl).*1).

Definition dbBTerm_connect (db : dbBlock) (b dnet : dbId) : dbBlock :=
  mkBlock (block_name db) (top_module db) (ITerms db)
    (alter (λ t, mkBTerm (bterm_name t) (bterm_sigType t) (bterm_ioType t)
                         (Some dnet) (bterm_modNet t)) b (BTerms db))
    (Insts db) (Nets db) (ModITerms db) (ModBTerms db) (ModInsts db)
    (ModNets db) (Modules db).

Definition dbBTerm_create (db : dbBlock) (dnet : dbId) (name : string)
  : dbBlock * dbId :=
  let b := fresh_id (BTerms db) in
  (mkBlock (block_name db) (top_module db) (ITerms db)
     (<[b := mkBTerm name SIGNAL INPUT (Some dnet) None]> (BTerms db))
     (Insts db) (Nets db) (ModITerms db) (ModBTerms db) (ModInsts db)
     (ModNets db) (Modules db), b).

Definition dbBTerm_setTypes (db : dbBlock) (b : dbId) (sig_type : dbSigType)
    (io_type : dbIoType) : dbBlock :=
  mkBlock (block_name db) (top_module db) (ITerms db)
    (alter (λ t, mkBTerm (bterm_name t) sig_type io_type
                         (bterm_net t) (bterm_modNet t)) b (BTerms db))
    (Insts db) (Nets db) (ModITerms db) (ModBTerms db) (ModInsts db)
    (ModNets db) (Modules db).

Definition dbBTerm_disconnect (db : dbBlock) (b : dbId) : dbBlock :=
  mkBlock (block_name db) (top_module db) (ITerms db)
    (alter (λ t, mkBTerm (bterm_name t) (bterm_sigType t) (bterm_ioType t)
                         None None) b (BTerms db))
    (Insts db) (Nets db) (ModITerms db) (ModBTerms db) (ModInsts db)
    (ModNets db) (Modules db).

Definition set_ITerms (db : dbBlock) (iterms : gmap dbId dbITerm) : dbBlock :=
  mkBlock (block_name db) (top_module db) iterms (BTerms db)
    (Insts db) (Nets db) (ModITerms db) (ModBTerms db) (ModInsts db)
    (ModNets db) (Modules db).

Definition dbITerm_connect (db : dbBlock) (i dnet : dbId) : dbBlock :=
  set_ITerms db
    (alter (λ t, mkITerm (iterm_inst t) (iterm_mterm t) (iterm_sigType t)
                         (iterm_ioType t) (Some dnet) (iterm_modNet t))
           i (ITerms db)).

Definition dbITerm_disconnect (db : dbBlock) (i : dbId) : dbBlock :=
  set_ITerms db
    (alter (λ t, mkITerm (iterm_inst t) (iterm_mterm t) (iterm_sigType t)
                         (iterm_ioType t) None None)
           i (ITerms db)).

Definition unlink (dnet : dbId) (o : option dbId) : option dbId :=
  if same dnet o then None else o.

Definition dbNet_destroy (db : dbBlock) (dnet : dbId) : dbBlock :=
  mkBlock (block_name db) (top_module db)
    ((λ t, mkITerm (iterm_inst t) (iterm_mterm t) (iterm_sigType t)
                   (iterm_ioType t) (unlink dnet (iterm_net t))
                   (iterm_modNet t)) <$> ITerms db)
    ((λ t, mkBTerm (bterm_name t) (bterm_sigType t) (bterm_ioType t)
                   (unlink dnet (bterm_net t)) (bterm_modNet t)) <$> BTerms db)
    (Insts db) (delete dnet (Nets db)) (ModITerms db) (ModBTerms db)
    (ModInsts db) (ModNets db) (Modules db).

(** [db_inst->getITerm(mterm)] *)
Definition inst_getITerm (db : dbBlock) (i : dbId) (mterm : string)
  : option (dbId * dbITerm) :=
  dbSet_find (ITerms db)
    (λ t, bool_decide (iterm_inst t = i ∧ iterm_mterm t = mterm)).

(** [dbNetwork::staToDb(const Net* net)], the one-result form: the handle is
    read as a [dbNet]; the database then needs a live flat net there. *)
Definition live_dbNet (db : dbBlock) (net : Net) : Outcome dbId :=
  obj ← nonnull net;
  match getObjectType obj with
  | dbNetObj => _ ← deref (Nets db) (getId obj); mret (getId obj)
  | _ => Stops [] DeadObject
  end.

Section Edits.
Context (block_ : dbBlock).

(** [dbNetwork::connect(Instance* inst, Port* port, Net* net)] *)
Definition connect_Port (inst : StaInstance) (port : ConcretePort)
    (net : Net) : Outcome (dbBlock * Pin) :=
  if decide (inst = top_instance_) then
    let port_name := port_name port in
    dnet ← live_dbNet block_ net;
    match block_findBTerm block_ port_name with
    | Some bterm =>
        mret (dbBTerm_connect block_ bterm.1 dnet,
              dbToSta dbBTermObj (Some bterm.1))
    | None =>
        let '(db, bterm) := dbBTerm_create block_ dnet port_name in
        let dir := port_direction port in
        '(sig_type, io_type) ← staToDb_PortDirection dir;
        mret (dbBTerm_setTypes db bterm sig_type io_type,
              dbToSta dbBTermObj (Some bterm))
    end
  else
    '(db_inst, mod_inst) ← staToDb_Instance inst;
    match db_inst with
    | Some i =>
        dterm ← nonnull (port_extPort port);
        iterm ← nonnull (inst_getITerm block_ i dterm);
        dnet ← live_dbNet block_ net;
        mret (dbITerm_connect block_ iterm.1 dnet,
              dbToSta dbITermObj (Some iterm.1))
    | None => mret (block_, None)
    end.

(** [dbNetwork::connect(Instance* inst, LibertyPort* port, Net* net)].  [master_mterms]
    is [db_inst->getMaster()->findMTerm]: the terminal names of the
    instance's master. *)
Definition connect_LibertyPort (master_mterms : string → list string)
    (inst : StaInstance) (port : LibertyPort) (net : Net)
  : Outcome (dbBlock * Pin) :=
  let port_name := liberty_port_name port in
  if decide (inst = top_instance_) then
    dnet ← live_dbNet block_ net;
    let '(db, bterm) :=
      match block_findBTerm block_ port_name with
      | Some bterm => (dbBTerm_connect block_ bterm.1 dnet, bterm.1)
      | None => dbBTerm_create block_ dnet port_name
      end in
    let dir := liberty_port_direction port in
    '(sig_type, io_type) ← staToDb_PortDirection dir;
    mret (dbBTerm_setTypes db bterm sig_type io_type,
          dbToSta dbBTermObj (Some bterm))
  else
    '(db_inst, mod_inst) ← staToDb_Instance inst;
    match db_inst with
    | Some i =>
        inst_obj ← deref (Insts block_) i;
        dterm ← nonnull (find (λ m, bool_decide (m = port_name))
                              (master_mterms (inst_master inst_obj)));
        iterm ← nonnull (inst_getITerm block_ i dterm);
        dnet ← live_dbNet block_ net;
        mret (dbITerm_connect block_ iterm.1 dnet,
              dbToSta dbITermObj (Some iterm.1))
    | None => mret (block_, None)
    end.

(** [dbNetwork::disconnectPin] *)
Definition disconnectPin (pin : Pin) : Outcome dbBlock :=
  t ← staToDb_Pin pin;
  match iterm t, bterm t with
  | Some i, _ => _ ← deref (ITerms block_) i; mret (dbITerm_disconnect block_ i)
  | None, Some b => _ ← deref (BTerms block_) b; mret (dbBTerm_disconnect block_ b)
  | None, None => mret block_
  end.
End Edits.

(** ** The driver index *)

(** [net_drvr_pin_map_]: from a net to its [PinSet] of drivers.  An entry
    is made by the timing engine when it first asks for the drivers of a
    net; the hooks below only update entries that exist. *)
Abbreviation NetDrvrPinMap := (gmap Net (gset Pin)).

Section DriverIndex.
(** [Network::isDriver] is the timing engine's; it reads the direction of
    the pin and the kind of its instance, not what the pin is wired to. *)
Context (isDriver : Pin → bool).

(** [dbNetwork::connectPinAfter] *)
Definition connectPinAfter (block_ : dbBlock)
    (net_drvr_pin_map_ : NetDrvrPinMap) (pin : Pin) : Outcome NetDrvrPinMap :=
  if isDriver pin then
    net ← net_Pin block_ pin;
    match net_drvr_pin_map_ !! net with
    | Some drvrs => mret (<[net := {[ pin ]} ∪ drvrs]> net_drvr_pin_map_)
    | None => mret net_drvr_pin_map_
    end
  else mret net_drvr_pin_map_.

(** [dbNetwork::disconnectPinBefore] *)
Definition disconnectPinBefore (block_ : dbBlock)
    (net_drvr_pin_map_ : NetDrvrPinMap) (pin : Pin) : Outcome NetDrvrPinMap :=
  net ← net_Pin block_ pin;
  if bool_decide (is_Some net) && isDriver pin then
    match net_drvr_pin_map_ !! net with
    | Some drvrs => mret (<[net := drvrs ∖ {[ pin ]}]> net_drvr_pin_map_)
    | None => mret net_drvr_pin_map_
    end
  else mret net_drvr_pin_map_.

(** [dbNetwork::deleteNetBefore] *)
Definition deleteNetBefore (net_drvr_pin_map_ : NetDrvrPinMap) (net : Net)
  : NetDrvrPinMap :=
  delete net net_drvr_pin_map_.

(** [dbNetwork::deleteNet] *)
Definition deleteNet (block_ : dbBlock) (net_drvr_pin_map_ : NetDrvrPinMap)
    (net : Net) : Outcome (dbBlock * NetDrvrPinMap) :=
  let map := deleteNetBefore net_drvr_pin_map_ net in
  dnet ← live_dbNet block_ net;
  mret (dbNet_destroy block_ dnet, map).

(** The adapter's state under edits. *)
Record NetworkState := mkState {
  st_block : dbBlock;
  st_drivers : NetDrvrPinMap
}.

(** The pins of leaves and of Top: flat terminals and boundary terminals,
    as opposed to the pins at a module boundary. *)
Definition is_terminal (pin : Pin) : bool :=
  match pin with
  | Some (mkObj dbITermObj _) | Some (mkObj dbBTermObj _) => true
  | _ => false
  end.

(** Modelled from the spec: whether the database's [connect] (section 6)
    finds the terminal on a flat net; it then takes the terminal off that
    net first. *)
Definition on_flat_net (db : dbBlock) (pin : Pin) : bool :=
  match pin with
  | Some obj =>
      match getObjectType obj with
      | dbITermObj =>
          match ITerms db !! getId obj with
          | Some it => bool_decide (is_Some (iterm_net it))
          | None => false
          end
      | dbBTermObj =>
          match BTerms db !! getId obj with
          | Some bt => bool_decide (is_Some (bterm_net bt))
          | None => false
          end
      | _ => false
      end
  | None => false
  end.

(** The edits of section 4.6 that touch the driver index, as requests to
    the layer. *)
Inductive Edit :=
| EditConnect (inst : StaInstance) (port : ConcretePort) (net : Net)
| EditDisconnect (pin : Pin)
| EditDeleteNet (net : Net).

(** Modelled from the spec: the database's callbacks, which call the hooks,
    are not among the sources.  Section 4.6 gives their contract:
    [disconnectPinBefore] runs before a pin is disconnected.
    [dbNetwork::disconnectPin] has the database disconnect a flat or a
    boundary terminal and does nothing for any other pin; a disconnect
    routed through the layer is that function, with the hook before it
    when the database disconnects. *)
Definition routed_disconnect (st : NetworkState) (pin : Pin)
  : Outcome NetworkState :=
  map ← (if is_terminal pin
         then disconnectPinBefore (st_block st) (st_drivers st) pin
         else mret (st_drivers st));
  db ← disconnectPin (st_block st) pin;
  mret (mkState db map).

(** Modelled from the spec: the database's callbacks are not among the
    sources.  By section 4.6 [connectPinAfter] runs after a pin is
    connected and [disconnectPinBefore] before a pin is disconnected, which
    is what a connect does first to a terminal that sits on a flat net.  A
    connect routed through the layer is
    [dbNetwork::connect(Instance* inst, Port* port, Net* net)], with the
    hooks around it when it has the database connect a terminal (for a
    module instance it connects nothing). *)
Definition routed_connect (st : NetworkState) (inst : StaInstance)
    (port : ConcretePort) (net : Net) : Outcome NetworkState :=
  '(db, pin) ← connect_Port (st_block st) inst port net;
  if is_terminal pin then
    map ← (if on_flat_net (st_block st) pin
           then disconnectPinBefore (st_block st) (st_drivers st) pin
           else mret (st_drivers st));
    map ← connectPinAfter db map pin;
    mret (mkState db map)
  else mret (mkState db (st_drivers st)).

(** Modelled from the spec: an edit routed through the layer is the layer's
    own function with the hooks of section 4.6 around it;
    [dbNetwork::deleteNet] calls its hook itself. *)
Definition routed_edit (st : NetworkState) (e : Edit) : Outcome NetworkState :=
  match e with
  | EditConnect inst port net => routed_connect st inst port net
  | EditDisconnect pin => routed_disconnect st pin
  | EditDeleteNet net =>
      '(db, map) ← deleteNet (st_block st) (st_drivers st) net;
      mret (mkState db map)
  end.

Fixpoint routed_edits (st : NetworkState) (es : list Edit)
  : Outcome NetworkState :=
  match es with
  | [] => mret st
  | e :: rest => st' ← routed_edit st e; routed_edits st' rest
  end.
End DriverIndex.

(** * Statements *)

(** ** A small hierarchical design

    The top module holds the leaf [u1] and the module instance [sub] of
    module [sub_mod]; inside, the leaf [sub/g1] and the module instance
    [sub/inner] of the empty module [inner_mod].  The module net [top_net]
    reaches [sub] through the module terminal [in]; inside [sub_mod] the
    boundary terminal [in] is on the module net [in] with [sub/g1.A]. *)
Definition demo_block : dbBlock :=
  mkBlock "top" 1
    (list_to_map
       [(1, mkITerm 1 "A" SIGNAL INPUT (Some 1) (Some 2));
        (2, mkITerm 1 "Z" SIGNAL OUTPUT (Some 2) None);
        (3, mkITerm 1 "VDD" POWER INOUT (Some 3) (Some 3));
        (4, mkITerm 2 "Z" SIGNAL OUTPUT (Some 1) (Some 1));
        (5, mkITerm 2 "A" SIGNAL INPUT None None)])
    (list_to_map
       [(1, mkBTerm "in_port" SIGNAL INPUT (Some 1) (Some 1));
        (2, mkBTerm "VDD" POWER INOUT (Some 3) None);
        (3, mkBTerm "out_port" SIGNAL OUTPUT (Some 2) None)])
    (list_to_map
       [(1, mkInst "sub/g1" "BUF_X1" 2); (2, mkInst "u1" "BUF_X1" 1)])
    (list_to_map
       [(1, mkNet "top_net" SIGNAL); (2, mkNet "n2" SIGNAL);
        (3, mkNet "VDD" POWER)])
    (list_to_map [(1, mkModITerm "in" 1 (Some 1))])
    (list_to_map [(1, mkModBTerm "in" 2 SIGNAL INPUT (Some 2))])
    (list_to_map [(1, mkModInst "sub" 1 2); (2, mkModInst "sub/inner" 2 3)])
    (list_to_map
       [(1, mkModNet "top_net" 1); (2, mkModNet "in" 2);
        (3, mkModNet "VDD" 2)])
    (list_to_map
       [(1, mkModule "top" None); (2, mkModule "sub_mod" (Some 1));
        (3, mkModule "inner_mod" (Some 2))]).



(** ** Classification of handles *)

(** The kinds [getDbNwkObjectId] has a case for. *)
Definition recognized (typ : dbObjectType) : bool :=
  match typ with
  | dbITermObj | dbBTermObj | dbInstObj | dbNetObj | dbModITermObj
  | dbModBTermObj | dbModInstObj | dbModNetObj | dbModuleObj => true
  | _ => false
  end.


(** ** Identified entities *)

(** What [id] is asked of: an instance, a pin, a net or a term handle. *)
Inductive Entity :=
| EntInstance (i : InstanceRef)
| EntPin (o : dbObject)
| EntNet (o : dbObject)
| EntTerm (o : dbObject).

#[global] Instance Entity_eq_dec : EqDecision Entity.
Proof. solve_decision. Defined.

(** The four overloads of [dbNetwork::id]. *)
Definition identify (s : IdScheme) (hierarchy_ : bool) (e : Entity) : Outcome N :=
  match e with
  | EntInstance i => id_Instance s hierarchy_ (Some i)
  | EntPin o => id_Pin s hierarchy_ (Some o)
  | EntNet o => id_Net s hierarchy_ (Some o)
  | EntTerm o => id_Term s hierarchy_ (Some o)
  end.

(** The database object behind an entity; Top has none. *)
Definition entity_object (e : Entity) : option dbObject :=
  match e with
  | EntInstance TopInstance => None
  | EntInstance (InstanceObj o) | EntPin o | EntNet o | EntTerm o => Some o
  end.

Inductive Interface := IfInstance | IfPin | IfNet | IfTerm.

#[global] Instance Interface_eq_dec : EqDecision Interface.
Proof. solve_decision. Defined.

Definition interface (e : Entity) : Interface :=
  match e with
  | EntInstance _ => IfInstance
  | EntPin _ => IfPin
  | EntNet _ => IfNet
  | EntTerm _ => IfTerm
  end.

(** The kinds of object each handle type stands for, whatever the
    hierarchy flag: [net(pin)] and the traversal hand out module terminals
    and module nets with and without hierarchy. *)
Definition kind_ok (e : Entity) : bool :=
  match e with
  | EntInstance TopInstance => true
  | EntInstance (InstanceObj o) =>
      match getObjectType o with
      | dbInstObj | dbModInstObj => true
      | _ => false
      end
  | EntPin o =>
      match getObjectType o with
      | dbITermObj | dbBTermObj | dbModITermObj | dbModBTermObj => true
      | _ => false
      end
  | EntNet o =>
      match getObjectType o with
      | dbNetObj | dbModNetObj => true
      | _ => false
      end
  | EntTerm o =>
      match getObjectType o with
      | dbBTermObj | dbModBTermObj => true
      | _ => false
      end
  end.

(** The entities of the flat database: Top, flat instances, flat and
    boundary terminals, flat nets and boundary terms.  The branches of [id]
    without hierarchy have a case for these and no other. *)
Definition flat_kind (e : Entity) : bool :=
  match e with
  | EntInstance TopInstance => true
  | EntInstance (InstanceObj o) =>
      match getObjectType o with dbInstObj => true | _ => false end
  | EntPin o =>
      match getObjectType o with
      | dbITermObj | dbBTermObj => true
      | _ => false
      end
  | EntNet o =>
      match getObjectType o with dbNetObj => true | _ => false end
  | EntTerm o =>
      match getObjectType o with dbBTermObj => true | _ => false end
  end.

(** Database ids start at 1.  With hierarchy an id must fit the bits left
    of the tag; without, a terminal id must leave room for the low bit. *)
Definition id_in_range (s : IdScheme) (hierarchy_ : bool) (e : Entity) : Prop :=
  match entity_object e with
  | None => True
  | Some o =>
      1 ≤ getId o ∧
      if hierarchy_ then
        getId o ≤ N.shiftr (ObjectId_max s) (DBIDTAG_WIDTH s)
      else
        interface e = IfPin → getId o < 2 ^ (OBJECTID_BITS s - 1)
  end.

Definition live (s : IdScheme) (hierarchy_ : bool) (e : Entity) : Prop :=
  kind_ok e = true ∧ id_in_range s hierarchy_ e.

Definition tags (s : IdScheme) : list N :=
  [DBITERM_ID s; DBBTERM_ID s; DBINST_ID s; DBNET_ID s; DBMODITERM_ID s;
   DBMODBTERM_ID s; DBMODINST_ID s; DBMODNET_ID s; DBMODULE_ID s].

(** What the header has to provide: tags that differ and fit the tag
    width, which fits the identifier. *)
Definition scheme_ok (s : IdScheme) : Prop :=
  1 ≤ OBJECTID_BITS s ∧ DBIDTAG_WIDTH s ≤ OBJECTID_BITS s
  ∧ NoDup (tags s) ∧ Forall (λ t, t < 2 ^ DBIDTAG_WIDTH s) (tags s).

(** When two entities are told apart by [id]: with hierarchy, when they are
    different objects; without, when they are different handles of one
    handle type. *)
Definition separated (hierarchy_ : bool) (e1 e2 : Entity) : Prop :=
  if hierarchy_ then entity_object e1 ≠ entity_object e2
  else interface e1 = interface e2 ∧ e1 ≠ e2.

(** The position of a kind's tag in [tags]. *)
Definition tag_index (typ : dbObjectType) : nat :=
  match typ with
  | dbITermObj => 0 | dbBTermObj => 1 | dbInstObj => 2 | dbNetObj => 3
  | dbModITermObj => 4 | dbModBTermObj => 5 | dbModInstObj => 6
  | dbModNetObj => 7 | dbModuleObj => 8
  | _ => 9
  end%nat.

(** The identifier of a live entity of a flat design. *)
Definition flat_id (e : Entity) : N :=
  match e with
  | EntInstance TopInstance => 0
  | EntInstance (InstanceObj o) | EntNet o | EntTerm o => getId o
  | EntPin o =>
      match getObjectType o with
      | dbITermObj => 2 * getId o
      | _ => 2 * getId o + 1
      end
  end.


(** ** Pin enumeration *)

(** The handles of the terminals of a set that are not supply terminals. *)
Definition signal_pins (iterms : list (dbId * dbITerm)) : list Pin :=
  (λ kv, dbToSta dbITermObj (Some kv.1))
    <$> filter (λ kv, isSupply (iterm_sigType kv.2) = false) iterms.

Definition pins_of (typ : dbObjectType) (ids : list dbId) : list Pin :=
  (λ i, dbToSta typ (Some i)) <$> ids.

(** ** Connectivity *)

(** The terminals listed on a net. *)
Definition listed_pins (block_ : dbBlock) (net : Net) : list Pin :=
  match staToDb_Net net with
  | (_, Some mod_net) =>
      pins_of dbITermObj (modnet_getITerms block_ mod_net).*1
      ++ pins_of dbBTermObj (modnet_getBTerms block_ mod_net).*1
      ++ pins_of dbModBTermObj (modnet_getModBTerms block_ mod_net).*1
      ++ pins_of dbModITermObj (modnet_getModITerms block_ mod_net).*1
  | (Some db_net, None) =>
      pins_of dbITermObj (net_getITerms block_ db_net).*1
      ++ pins_of dbBTermObj (net_getBTerms block_ db_net).*1
  | (None, None) => []
  end.

(** One crossing of a module boundary: from a module net through one of its
    module terminals down into the instantiated module, or through one of
    its boundary terminals up to the instance; [pin] is the terminal on the
    other side and [net'] its net. *)
Definition crosses (block_ : dbBlock) (net : Net) (pin : Pin) (net' : Net)
  : Prop :=
  ∃ mod_net, staToDb_Net net = (None, Some mod_net) ∧
    ((∃ moditerm, moditerm ∈ modnet_getModITerms block_ mod_net
                  ∧ below_pin_net block_ moditerm = Returns [] (pin, net'))
     ∨ (∃ modbterm, modbterm ∈ modnet_getModBTerms block_ mod_net
                    ∧ above_pin_net block_ modbterm
                      = Returns [] (Some (pin, net')))).

Definition connects (block_ : dbBlock) (net net' : Net) : Prop :=
  ∃ pin, crosses block_ net pin net'.

(** A pin is connected to a net when it is listed on a net reached from it
    by crossings, or is the far side of a crossing on the way. *)
Definition connected_pin (block_ : dbBlock) (net : Net) (pin : Pin) : Prop :=
  ∃ n, rtc (connects block_) net n
       ∧ (pin ∈ listed_pins block_ n ∨ ∃ n', crosses block_ n pin n').

(** The hierarchy is linked: every module terminal on a module net has a
    boundary terminal of its name in the module its instance instantiates,
    and every boundary terminal on a module net belongs to a module that
    has an instance.  Then no crossing reads through a null pointer. *)
Definition hierarchy_linked (block_ : dbBlock) : Prop :=
  ∀ mod_net,
    (∀ moditerm, moditerm ∈ modnet_getModITerms block_ mod_net →
                 is_fatal (below_pin_net block_ moditerm) = false)
    ∧ (∀ modbterm, modbterm ∈ modnet_getModBTerms block_ mod_net →
                   is_fatal (above_pin_net block_ modbterm) = false).

(** The nets a crossing can lead to. *)
Definition table_nets (block_ : dbBlock) : gset Net :=
  list_to_set ((λ kv, dbToSta dbModNetObj (modbterm_modNet kv.2))
                 <$> map_to_list (ModBTerms block_))
  ∪ list_to_set ((λ kv, dbToSta dbModNetObj (moditerm_modNet kv.2))
                   <$> map_to_list (ModITerms block_)).

(** Fuel that is enough for any traversal of the block. *)
Definition traversal_bound (block_ : dbBlock) : nat :=
  Datatypes.S (Datatypes.S (size (table_nets block_))).

(** How a traversal state moves: nets and visitor calls are only added. *)
Definition grows (v v' : Visit) : Prop :=
  visited_nets v ⊆ visited_nets v'
  ∧ ∀ pin, pin ∈ visitor_calls v → pin ∈ visitor_calls v'.

(** A net is done in a state: its terminals were handed to the visitor and
    every crossing from it leads to a visited pin and a visited net. *)
Definition done_in (block_ : dbBlock) (v : Visit) (net : Net) : Prop :=
  (∀ pin, pin ∈ listed_pins block_ net → pin ∈ visitor_calls v)
  ∧ (∀ pin net', crosses block_ net pin net' →
       pin ∈ visitor_calls v ∧ net' ∈ visited_nets v).

Definition terminals (pins : list Pin) : list Pin :=
  filter (λ pin, is_terminal pin = true) pins.

(** What the recursion keeps: no terminal was handed over twice, and every
    terminal handed over is listed on a module net that is visited. *)
Definition terminals_once (block_ : dbBlock) (v : Visit) : Prop :=
  NoDup (terminals (visitor_calls v))
  ∧ ∀ pin, pin ∈ visitor_calls v → is_terminal pin = true →
      ∃ m, Some (mkObj dbModNetObj m) ∈ visited_nets v
           ∧ pin ∈ listed_pins block_ (Some (mkObj dbModNetObj m)).

(** ** Library cross-reference *)

(** The condition of the warning of [makeCell]: the terminal is not a
    power or ground terminal, the liberty cell of the master's name exists
    and has neither a port nor a pg-port of the terminal's name. *)
Definition missing_from_liberty (liberty : list LibertyCell) (master : dbMaster)
    (mterm : dbMTerm) : Prop :=
  isPowerGround (dbToSta_PortDirection (mterm_sigType mterm)
                                       (mterm_ioType mterm)) = false
  ∧ ∃ lib_cell,
      findLibertyCell liberty (master_name master) = Some lib_cell
      ∧ findLibertyPort lib_cell (mterm_name mterm) = None
      ∧ findPgPort lib_cell (mterm_name mterm) = None.

(** A two-input gate and its liberty cell, and a liberty cell that lacks
    one of the pins. *)
Definition demo_master : dbMaster :=
  mkMaster "AND2_X1"
    [mkMTerm "A" SIGNAL INPUT; mkMTerm "B" SIGNAL INPUT;
     mkMTerm "Z" SIGNAL OUTPUT; mkMTerm "VDD" POWER INOUT;
     mkMTerm "VSS" GROUND INOUT].

Definition demo_liberty : list LibertyCell :=
  [mkLibertyCell "AND2_X1"
     [mkLibertyPort "A" dir_input; mkLibertyPort "B" dir_input;
      mkLibertyPort "Z" dir_output]
     ["VDD"; "VSS"]].

Definition demo_liberty_partial : list LibertyCell :=
  [mkLibertyCell "AND2_X1"
     [mkLibertyPort "A" dir_input; mkLibertyPort "Z" dir_output] []].

(** ** Connecting at Top *)

(** What [connect] leaves in the table of boundary terminals: the terminal
    [b] reads [bt], every other terminal is as before. *)
Definition bterm_written (before after : dbBlock) (b : dbId) (bt : dbBTerm)
  : Prop :=
  BTerms after !! b = Some bt
  ∧ (∀ b', b' ≠ b → BTerms after !! b' = BTerms before !! b')
  ∧ ITerms after = ITerms before.

Definition iterm_written (before after : dbBlock) (i : dbId) (it : dbITerm)
  : Prop :=
  ITerms after !! i = Some it
  ∧ (∀ i', i' ≠ i → ITerms after !! i' = ITerms before !! i')
  ∧ BTerms after = BTerms before.

Definition bterm_on (bt : dbBTerm) (dnet : dbId) : dbBTerm :=
  mkBTerm (bterm_name bt) (bterm_sigType bt) (bterm_ioType bt) (Some dnet)
          (bterm_modNet bt).

Definition iterm_on (it : dbITerm) (dnet : dbId) : dbITerm :=
  mkITerm (iterm_inst it) (iterm_mterm it) (iterm_sigType it)
          (iterm_ioType it) (Some dnet) (iterm_modNet it).

(** ** Drivers *)

(** The net [net(pin)] answers for a flat terminal. *)
Definition net_of_iterm (it : dbITerm) : Net :=
  match iterm_modNet it with
  | Some mnet => Some (mkObj dbModNetObj mnet)
  | None => mkObj dbNetObj <$> iterm_net it
  end.

(** The set the index is meant to hold for a net: the drivers among the
    pins connected to the net, which are the pins the traversal of the net
    hands to the visitor when the timing engine computes the entry. *)
Definition drives (isDriver : Pin → bool) (db : dbBlock) (net : Net)
    (pin : Pin) : Prop :=
  isDriver pin = true ∧ connected_pin db net pin.

Definition index_consistent (isDriver : Pin → bool) (st : NetworkState)
  : Prop :=
  ∀ n drvrs, st_drivers st !! Some n = Some drvrs →
    ∀ pin, pin ∈ drvrs ↔ drives isDriver (st_block st) (Some n) pin.

(** Two blocks that differ at most in how one pin is wired. *)
Definition rewired (db db' : dbBlock) (p : Pin) : Prop :=
  ModITerms db' = ModITerms db ∧ ModBTerms db' = ModBTerms db
  ∧ ModInsts db' = ModInsts db ∧ Modules db' = Modules db
  ∧ (∀ j, p ≠ Some (mkObj dbITermObj j) → ITerms db' !! j = ITerms db !! j)
  ∧ (∀ b, p ≠ Some (mkObj dbBTermObj b) → BTerms db' !! b = BTerms db !! b).

(** The pins whose edits the hooks follow: every pin that does not drive,
    and of the drivers all but the boundary terminals, for which
    [net(pin)] is null, and the flat terminals that have a module net, for
    which [net(pin)] is the module net and not the flat net. *)
Definition plain_pin (isDriver : Pin → bool) (db : dbBlock) (pin : Pin)
  : Prop :=
  isDriver pin = true →
  (∀ b, pin ≠ Some (mkObj dbBTermObj b))
  ∧ ∀ i it, pin = Some (mkObj dbITermObj i) → ITerms db !! i = Some it →
            iterm_modNet it = None.

(** An edit connects or disconnects a plain pin; any net may be deleted. *)
Definition edit_plain (isDriver : Pin → bool) (db : dbBlock) (e : Edit)
  : Prop :=
  match e with
  | EditConnect inst port net =>
      ∀ w db' pin, connect_Port db inst port net = Returns w (db', pin) →
                   plain_pin isDriver db pin
  | EditDisconnect pin => plain_pin isDriver db pin
  | EditDeleteNet _ => True
  end.

Fixpoint edits_plain (isDriver : Pin → bool) (st : NetworkState)
    (es : list Edit) : Prop :=
  match es with
  | [] => True
  | e :: rest =>
      edit_plain isDriver (st_block st) e
      ∧ ∀ w st', routed_edit isDriver st e = Returns w st' →
                 edits_plain isDriver st' rest
  end.

(** The outputs of the two leaves of the demo design drive. *)
Definition demo_isDriver (pin : Pin) : bool :=
  bool_decide (pin = Some (mkObj dbITermObj 2)
               ∨ pin = Some (mkObj dbITermObj 4)).

(** The same with the input port of the design, which drives from
    outside. *)
Definition demo_isDriver_ports (pin : Pin) : bool :=
  bool_decide (pin = Some (mkObj dbITermObj 2)
               ∨ pin = Some (mkObj dbITermObj 4)
               ∨ pin = Some (mkObj dbBTermObj 1)).

(** An index with one entry: the drivers of the flat net [n2]. *)
Definition demo_index : NetDrvrPinMap :=
  {[ Some (mkObj dbNetObj 2) := {[ Some (mkObj dbITermObj 2) ]} ]}.

(** An index with the entry of the flat net [top_net], whose drivers are
    the output of [u1], which also has a module net, and the input port. *)
Definition demo_index_top : NetDrvrPinMap :=
  {[ Some (mkObj dbNetObj 1) :=
       {[ Some (mkObj dbITermObj 4); Some (mkObj dbBTermObj 1) ]} ]}.

(** The port [Z] of the leaf [sub/g1] and the output port of the design. *)
Definition demo_port_Z : ConcretePort := mkPort "Z" dir_output None (Some "Z").
Definition demo_port_out : ConcretePort :=
  mkPort "out_port" dir_output None None.

Definition demo_edits : list Edit :=
  [EditDisconnect (Some (mkObj dbITermObj 2));
   EditConnect (Some (InstanceObj (mkObj dbInstObj 1))) demo_port_Z
               (Some (mkObj dbNetObj 1));
   EditConnect (Some (InstanceObj (mkObj dbInstObj 1))) demo_port_Z
               (Some (mkObj dbNetObj 2));
   EditConnect (Some TopInstance) demo_port_out (Some (mkObj dbNetObj 1));
   EditDeleteNet (Some (mkObj dbNetObj 3))].

(** * More of the adapter *)

(** ** The term iterator of a net *)

Record DbNetTermIterator := mkNetTermIter {
  term_iter_ : list dbId;       (* from iter_ to end_ *)
  term_mod_iter_ : list dbId    (* from mod_iter_ to mod_end_ *)
}.

(** [DbNetTermIterator::DbNetTermIterator] *)
Definition DbNetTermIterator_new (block_ : dbBlock) (net : Net)
  : DbNetTermIterator :=
  match staToDb_Net net with
  | (Some dnet, None) => mkNetTermIter (net_getBTerms block_ dnet).*1 []
  | (_, Some modnet) =>
      mkNetTermIter (modnet_getBTerms block_ modnet).*1
                    (modnet_getModBTerms block_ modnet).*1
  | (None, None) => mkNetTermIter [] []
  end.

(** [DbNetTermIterator::hasNext] *)
Definition DbNetTermIterator_hasNext (it : DbNetTermIterator)
  : bool * DbNetTermIterator :=
  (negb (bool_decide (term_mod_iter_ it = []))
   || negb (bool_decide (term_iter_ it = [])), it).

(** [DbNetTermIterator::next] *)
Definition DbNetTermIterator_next (hierarchy_ : bool) (it : DbNetTermIterator)
  : Term * DbNetTermIterator :=
  match term_iter_ it with
  | b :: rest =>
      (dbToSta dbBTermObj (Some b), mkNetTermIter rest (term_mod_iter_ it))
  | [] =>
      match term_mod_iter_ it with
      | m :: rest =>
          if hierarchy_ then
            (dbToSta dbModBTermObj (Some m), mkNetTermIter [] rest)
          else (None, it)
      | [] => (None, it)
      end
  end.

(** The first [fuel] terms [dbNetwork::termIterator(net)] produces. *)
Definition termIterator (hierarchy_ : bool) (block_ : dbBlock) (fuel : nat)
    (net : Net) : list Term :=
  iterate DbNetTermIterator_hasNext (DbNetTermIterator_next hierarchy_) fuel
          (DbNetTermIterator_new block_ net).

(** ** Terms, names and lookup *)

Definition block_findNet (db : dbBlock) (name : string) :=
  dbSet_find (Nets db) (λ n, bool_decide (net_name n = name)).
Definition block_findInst (db : dbBlock) (name : string) :=
  dbSet_find (Insts db) (λ i, bool_decide (inst_name i = name)).
Definition module_findModInst (db : dbBlock) (m : dbId) (name : string) :=
  dbSet_find (ModInsts db)
    (λ i, bool_decide (modinst_parent i = m ∧ modinst_name i = name)).

Section Lookup.
Context (block_ : dbBlock).

(** [dbNetwork::pin(const Term* term)] *)
Definition pin_Term (term : Term) : Outcome Pin :=
  let t := staToDb_Term term in
  match bterm t, modbterm t with
  | Some b, _ => mret (dbToSta dbBTermObj (Some b))
  | None, Some mb =>
      modbterm ← deref (ModBTerms block_) mb;
      cur_module ← deref (Modules block_) (modbterm_parent modbterm);
      cur_mod_inst ← nonnull (module_modInst cur_module);
      match modinst_findModITerm block_ cur_mod_inst (modbterm_name modbterm) with
      | Some parent_moditerm =>
          mret (dbToSta dbModITermObj (Some parent_moditerm.1))
      | None => mret None
      end
  | None, None => mret None
  end.

(** [dbNetwork::findPin(const Instance* instance, const char* port_name)] *)
Definition findPin (instance : StaInstance) (port_name : string) : Outcome Pin :=
  if decide (instance = top_instance_) then
    mret (dbToSta dbBTermObj (fst <$> block_findBTerm block_ port_name))
  else
    '(db_inst, mod_inst) ← staToDb_Instance instance;
    match db_inst, mod_inst with
    | Some i, _ =>
        mret (dbToSta dbITermObj (fst <$> inst_getITerm block_ i port_name))
    | None, Some m =>
        mret (dbToSta dbModITermObj
                (fst <$> modinst_findModITerm block_ m port_name))
    | None, None => mret None
    end.

(** [dbNetwork::name(const Net* net)] *)
Definition name_Net (net : Net) : Outcome (option string) :=
  match staToDb_Net net with
  | (Some dnet, _) => n ← deref (Nets block_) dnet; mret (Some (net_name n))
  | (None, Some modnet) =>
      n ← deref (ModNets block_) modnet; mret (Some (modnet_name n))
  | (None, None) => mret None
  end.

(** [dbNetwork::name(const Instance* instance)]; a handle that is neither
    Top nor a flat instance is read as a module instance. *)
Definition name_Instance (instance : StaInstance) : Outcome string :=
  if decide (instance = top_instance_) then mret (block_name block_)
  else
    '(db_inst, mod_inst) ← staToDb_Instance instance;
    match db_inst with
    | Some i => inst ← deref (Insts block_) i; mret (inst_name inst)
    | None =>
        m ← nonnull mod_inst;
        inst ← deref (ModInsts block_) m;
        mret (modinst_name inst)
    end.

(** [dbNetwork::findInstance] *)
Definition findInstance (path_name : string) : StaInstance :=
  dbToSta_Instance dbInstObj (fst <$> block_findInst block_ path_name).

(** [Network::pathName], [Network::pathDivider] and
    [dbModInst::getHierarchicalName] belong to the timing engine and to the
    database; the lookups below take them as given. *)
Context (pathName : StaInstance → string) (pathDivider : string)
        (getHierarchicalName : dbId → string).

(** [dbNetwork::findNet] *)
Definition findNet (instance : StaInstance) (net_name : string) : Net :=
  if decide (instance = top_instance_) then
    dbToSta dbNetObj (fst <$> block_findNet block_ net_name)
  else
    let flat_net_name := pathName instance +:+ pathDivider +:+ net_name in
    dbToSta dbNetObj (fst <$> block_findNet block_ flat_net_name).

(** [dbNetwork::findChild] *)
Definition findChild (parent : StaInstance) (name : string)
  : Outcome StaInstance :=
  if decide (parent = top_instance_) then
    match block_findInst block_ name with
    | None =>
        mret (dbToSta_Instance dbModInstObj
                (fst <$> module_findModInst block_ (top_module block_) name))
    | Some inst => mret (dbToSta_Instance dbInstObj (Some inst.1))
    end
  else
    '(db_inst, mod_inst) ← staToDb_Instance parent;
    match mod_inst with
    | None => mret None
    | Some m =>
        mi ← deref (ModInsts block_) m;
        match module_findModInst block_ (modinst_master mi) name with
        | Some child_inst =>
            mret (dbToSta_Instance dbModInstObj (Some child_inst.1))
        | None =>
            (* Look for a leaf instance *)
            let full_name := getHierarchicalName m +:+ pathDivider +:+ name in
            mret (dbToSta_Instance dbInstObj
                    (fst <$> block_findInst block_ full_name))
        end
    end.

(** [Network::libertyPort(const Pin* pin)] is the timing engine's;
    [direction] asks it first. *)
Context (libertyPort : Pin → option LibertyPort).

(** [dbNetwork::direction(const Pin* pin)] *)
Definition direction_Pin (pin : Pin) : Outcome PortDirection :=
  match libertyPort pin with
  | Some lib_port => mret (liberty_port_direction lib_port)
  | None =>
      t ← staToDb_Pin pin;
      match iterm t, bterm t, modbterm t, moditerm t with
      | Some i, _, _, _ =>
          it ← deref (ITerms block_) i;
          mret (dbToSta_PortDirection (iterm_sigType it) (iterm_ioType it))
      | None, Some b, _, _ =>
          bt ← deref (BTerms block_) b;
          mret (dbToSta_PortDirection (bterm_sigType bt) (bterm_ioType bt))
      | None, None, Some mb, _ =>
          t ← deref (ModBTerms block_) mb;
          mret (dbToSta_PortDirection (modbterm_sigType t) (modbterm_ioType t))
      | None, None, None, Some m =>
          mt ← deref (ModITerms block_) m;
          mod_inst ← deref (ModInsts block_) (moditerm_parent mt);
          modbterm_local ← nonnull (module_findModBTerm block_
                                      (modinst_master mod_inst)
                                      (moditerm_name mt));
          mret (dbToSta_PortDirection (modbterm_sigType modbterm_local.2)
                                      (modbterm_ioType modbterm_local.2))
      | None, None, None, None => mret dir_unknown
      end
  end.
End Lookup.

(** ** Constant nets *)

(** The two values of [LogicValue] that [findConstantNets] uses. *)
Inductive LogicValue := logic_zero | logic_one.

#[global] Instance LogicValue_eq_dec : EqDecision LogicValue.
Proof. solve_decision. Defined.

(** [dbNetwork::findConstantNets]: the calls of [addConstantNet] it makes
    after [clearConstantNets], in order. *)
Definition findConstantNets (block_ : dbBlock) : list (Net * LogicValue) :=
  foldl (λ calls (dnet : dbId * dbNet),
           if bool_decide (net_sigType dnet.2 = GROUND) then
             calls ++ [(dbToSta dbNetObj (Some dnet.1), logic_zero)]
           else if bool_decide (net_sigType dnet.2 = POWER) then
             calls ++ [(dbToSta dbNetObj (Some dnet.1), logic_one)]
           else calls)
        []
        (dbSet_of (Nets block_) (λ _, true)).

(** ** Linking a liberty library that is read later *)

Record ConcreteLibrary := mkLibrary {
  library_isLiberty : bool;
  library_cells : list ConcreteCell
}.

(** The body of the loop over the ports in [dbNetwork::readLibertyAfter]. *)
Definition readLibertyAfter_port (lcell : LibertyCell) (cport : ConcretePort)
  : Outcome ConcretePort :=
  let port_name := port_name cport in
  match findLibertyPort lcell port_name with
  | Some lport =>
      mret (mkPort port_name (port_direction cport) (Some lport)
                   (port_extPort cport))
  | None =>
      _ ← (if negb (isPowerGround (port_direction cport))
              && negb (bool_decide (is_Some (findPgPort lcell port_name)))
           then logger_warn 2002 [liberty_cell_name lcell; port_name]
           else mret tt);
      mret cport
  end.

(** The body of the loop over the cells: a cell that has a liberty cell
    keeps it. *)
Definition readLibertyAfter_cell (lib : list LibertyCell) (ccell : ConcreteCell)
  : Outcome ConcreteCell :=
  match cell_libertyCell ccell with
  | Some _ => mret ccell
  | None =>
      match findLibertyCell lib (cell_name ccell) with
      | Some lcell =>
          ports ← for_each_build (readLibertyAfter_port lcell)
                                  (cell_ports ccell);
          mret (mkCell (cell_name ccell) (Some lcell) ports)
      | None => mret ccell
      end
  end.

(** [dbNetwork::readLibertyAfter], up to the observers it calls last.  The
    back links that [setExtCell] and [setExtPort] write into the liberty
    objects are not part of the cells and are left out. *)
Definition readLibertyAfter (lib : list LibertyCell)
    (library_seq_ : list ConcreteLibrary) : Outcome (list ConcreteLibrary) :=
  for_each_build
    (λ clib,
       if library_isLiberty clib then mret clib
       else
         cells ← for_each_build (readLibertyAfter_cell lib)
                                 (library_cells clib);
         mret (mkLibrary false cells))
    library_seq_.

(** ** The top cell *)

(** [dbNetwork::makeTopPort]: the port of the top cell for a boundary
    terminal. *)
Definition makeTopPort (bterm : dbBTerm) : ConcretePort :=
  let port_name := bterm_name bterm in
  let dir := dbToSta_PortDirection (bterm_sigType bterm) (bterm_ioType bterm) in
  mkPort port_name dir None None.

(** [dbNetwork::makeTopCell], up to removing the previous top cell and
    grouping the bus ports. *)
Definition makeTopCell (block_ : dbBlock) : ConcreteCell :=
  let design_name := block_name block_ in
  mkCell design_name None (makeTopPort <$> (block_getBTerms block_).*2).

(** ** More edits *)

(** Modelled from the spec: [dbBTerm::destroy], the database's (section 6);
    the terminal leaves the block. *)
Definition dbBTerm_destroy (db : dbBlock) (b : dbId) : dbBlock :=
  mkBlock (block_name db) (top_module db) (ITerms db) (delete b (BTerms db))
    (Insts db) (Nets db) (ModITerms db) (ModBTerms db) (ModInsts db)
    (ModNets db) (Modules db).

(** [dbNetwork::deletePin] *)
Definition deletePin (block_ : dbBlock) (pin : Pin) : Outcome dbBlock :=
  t ← staToDb_Pin pin;
  _ ← (if bool_decide (is_Some (iterm t)) then logger_critical 2003
       else mret tt);
  match bterm t with
  | Some b => _ ← deref (BTerms block_) b; mret (dbBTerm_destroy block_ b)
  | None => mret block_
  end.

(** Modelled from the spec: the database's store of named boolean
    properties (section 6) is a map from the name to the value;
    [dbBoolProperty::find] is its lookup. *)
Abbreviation BoolProperties := (gmap string bool).

(** The key [dbNetwork::portMsbFirst] builds. *)
Definition portMsbFirst_key (port_name cell_name : string) : string :=
  "bus_msb_first " +:+ port_name +:+ " " +:+ cell_name.

(** [dbNetwork::portMsbFirst] *)
Definition portMsbFirst (properties : BoolProperties)
    (port_name cell_name : string) : bool :=
  match properties !! portMsbFirst_key port_name cell_name with
  | Some value => value
  | None => true
  end.

(** ** The net iterator of an instance *)

Record DbInstanceNetIterator := mkInstNetIter {
  net_iter_ : list dbId        (* from iter_ to end_ *)
}.

(** [DbInstanceNetIterator::DbInstanceNetIterator]: below Top the two
    iterators stay as they were default-constructed, an empty range. *)
Definition DbInstanceNetIterator_new (block_ : dbBlock) (instance : StaInstance)
  : DbInstanceNetIterator :=
  if decide (instance = top_instance_) then
    mkInstNetIter (dbSet_of (Nets block_) (λ _, true)).*1
  else mkInstNetIter [].

(** [DbInstanceNetIterator::hasNext] *)
Definition DbInstanceNetIterator_hasNext (it : DbInstanceNetIterator)
  : bool * DbInstanceNetIterator :=
  (negb (bool_decide (net_iter_ it = [])), it).

(** [DbInstanceNetIterator::next]; the caller's loop calls it only after
    [hasNext] answered true. *)
Definition DbInstanceNetIterator_next (it : DbInstanceNetIterator)
  : Net * DbInstanceNetIterator :=
  match net_iter_ it with
  | dnet :: rest => (dbToSta dbNetObj (Some dnet), mkInstNetIter rest)
  | [] => (None, it)
  end.

(** The nets [dbNetwork::netIterator(instance)] produces. *)
Definition netIterator (block_ : dbBlock) (instance : StaInstance) : list Net :=
  let it := DbInstanceNetIterator_new block_ instance in
  iterate DbInstanceNetIterator_hasNext DbInstanceNetIterator_next
    (Datatypes.S (length (net_iter_ it))) it.

(** ** Statement-level definitions for the properties below *)

(** A cell after a liberty library was read: same name, same ports by name
    and direction; a cell that had a liberty cell is untouched, another one
    has the liberty cell of its name, if the library has one. *)
Definition relinked_cell (lib : list LibertyCell) (c c' : ConcreteCell)
  : Prop :=
  cell_name c' = cell_name c
  ∧ port_name <$> cell_ports c' = port_name <$> cell_ports c
  ∧ port_direction <$> cell_ports c' = port_direction <$> cell_ports c
  ∧ match cell_libertyCell c with
    | Some _ => c' = c
    | None => cell_libertyCell c' = findLibertyCell lib (cell_name c)
    end.

Definition relinked_library (lib : list LibertyCell)
    (clib clib' : ConcreteLibrary) : Prop :=
  library_isLiberty clib' = library_isLiberty clib
  ∧ if library_isLiberty clib then clib' = clib
    else Forall2 (relinked_cell lib) (library_cells clib) (library_cells clib').

(** The same message under another id. *)
Definition with_id (id : N) (m : LogMsg) : LogMsg := mkLogMsg id (msg_args m).

(** The library of cells built from the demo master before any liberty
    library was read. *)
Definition demo_lef_library : list ConcreteLibrary :=
  [mkLibrary false
     [mkCell "AND2_X1" None
        [mkPort "A" dir_input None (Some "A");
         mkPort "B" dir_input None (Some "B");
         mkPort "Z" dir_output None (Some "Z");
         mkPort "VDD" dir_power None (Some "VDD");
         mkPort "VSS" dir_ground None (Some "VSS")]]].

(** A pin is handed to the visitor by the traversal of a net, run with
    the fuel that is enough for the block. *)
Definition traversed (block_ : dbBlock) (net : Net) (pin : Pin) : Prop :=
  ∃ w v, connectedPins block_ (traversal_bound block_) net
         = Some (Returns w v)
         ∧ pin ∈ visitor_calls v.

(** A name with a blank in it. *)
Fixpoint has_space (str : string) : bool :=
  match str with
  | EmptyString => false
  | String c rest => Ascii.eqb c " "%char || has_space rest
  end.

(** * Properties *)

#[local] Set Warnings "-clear-no-such-hyp".

(** ** Pin, net and term duality *)

(** C2: a flat terminal that is on a flat net and on a module net answers
    [net(pin)] with the module net. *)
Theorem net_Pin_prefers_mod_net (block_ : dbBlock) (i dnet mnet : dbId)
    (it : dbITerm) :
  ITerms block_ !! i = Some it →
  iterm_net it = Some dnet →
  iterm_modNet it = Some mnet →
  net_Pin block_ (Some (mkObj dbITermObj i))
    = Returns [] (Some (mkObj dbModNetObj mnet))
  ∧ net_Pin block_ (Some (mkObj dbITermObj i))
    ≠ Returns [] (Some (mkObj dbNetObj dnet)).
Proof.
  intros Hi Hd Hm.
  assert (net_Pin block_ (Some (mkObj dbITermObj i))
          = Returns [] (Some (mkObj dbModNetObj mnet))) as ->.
  { unfold net_Pin; cbn. unfold deref. rewrite Hi. cbn. by rewrite Hm. }
  split; [done | congruence].
Qed.

Lemma net_Pin_prefers_mod_net_witness :
  net_Pin demo_block (Some (mkObj dbITermObj 1))
    = Returns [] (Some (mkObj dbModNetObj 2))
  ∧ net_Pin demo_block (Some (mkObj dbITermObj 1))
    ≠ Returns [] (Some (mkObj dbNetObj 1)).
Proof.
  apply (net_Pin_prefers_mod_net demo_block 1 1 2
           (mkITerm 1 "A" SIGNAL INPUT (Some 1) (Some 2)));
    reflexivity.
Defined.

(** C10: the pin of a boundary terminal has no net; its net is the net of
    its term, the module net when there is one, the flat net otherwise. *)
Theorem bterm_net_through_term (block_ : dbBlock) (b : dbId) (bt : dbBTerm) :
  BTerms block_ !! b = Some bt →
  let pin : Pin := Some (mkObj dbBTermObj b) in
  net_Pin block_ pin = Returns [] None
  ∧ term_Pin block_ pin = Returns [] (Some (mkObj dbBTermObj b))
  ∧ net_Term block_ (Some (mkObj dbBTermObj b))
    = Returns []
        match bterm_modNet bt with
        | Some mod_net => Some (mkObj dbModNetObj mod_net)
        | None => mkObj dbNetObj <$> bterm_net bt
        end.
Proof.
  intros Hb pin. repeat split.
  unfold net_Term; cbn. unfold deref. rewrite Hb. cbn.
  by destruct (bterm_modNet bt), (bterm_net bt).
Qed.

Lemma bterm_net_through_term_witness :
  net_Pin demo_block (Some (mkObj dbBTermObj 1)) = Returns [] None
  ∧ term_Pin demo_block (Some (mkObj dbBTermObj 1))
    = Returns [] (Some (mkObj dbBTermObj 1))
  ∧ net_Term demo_block (Some (mkObj dbBTermObj 1))
    = Returns [] (Some (mkObj dbModNetObj 1)).
Proof.
  apply (bterm_net_through_term demo_block 1
           (mkBTerm "in_port" SIGNAL INPUT (Some 1) (Some 1))).
  reflexivity.
Defined.

(** ** Classification of handles *)

(** C4, as stated, fails: a pin handle of an unknown kind is classified
    with a warning and four null results, a net handle of an unknown kind
    with no message at all; neither call ends. *)
Lemma unknown_kind_not_always_fatal :
  recognized dbMasterObj = false
  ∧ staToDb_Pin (Some (mkObj dbMasterObj 1))
    = Returns [mkLogMsg 2018 []] no_term
  ∧ is_fatal (staToDb_Pin (Some (mkObj dbMasterObj 1))) = false
  ∧ staToDb_Net (Some (mkObj dbMasterObj 1)) = (None, None).
Proof. repeat split. Qed.

(** C4, amended: for a handle whose kind is none of the nine, resolving an
    Instance ends in the critical message 2016 and generating an identifier
    ends in the error 2017 (or 2019 when the id is over capacity); resolving
    a Pin logs the warning 2018 and returns four nulls; resolving a Net or a
    Term returns nulls without a message. *)
Theorem unknown_kind_outcomes (s : IdScheme) (typ : dbObjectType) (i : dbId) :
  recognized typ = false →
  staToDb_Instance (Some (InstanceObj (mkObj typ i)))
    = Stops [] (LoggedCritical 2016)
  ∧ getDbNwkObjectId s typ i
    = Stops [] (LoggedError
                  (if decide (N.shiftr (ObjectId_max s) (DBIDTAG_WIDTH s) < i)
                   then 2019 else 2017))
  ∧ staToDb_Pin (Some (mkObj typ i)) = Returns [mkLogMsg 2018 []] no_term
  ∧ staToDb_Net (Some (mkObj typ i)) = (None, None)
  ∧ staToDb_Term (Some (mkObj typ i)) = no_term.
Proof.
  intros Hty. destruct typ; try discriminate Hty; repeat split;
    unfold getDbNwkObjectId; cbn; case_decide; auto.
Qed.

Lemma unknown_kind_outcomes_witness :
  staToDb_Instance (Some (InstanceObj (mkObj dbMasterObj 7)))
    = Stops [] (LoggedCritical 2016)
  ∧ getDbNwkObjectId header_scheme dbMasterObj 7
    = Stops [] (LoggedError 2017)
  ∧ staToDb_Pin (Some (mkObj dbMasterObj 7)) = Returns [mkLogMsg 2018 []] no_term
  ∧ staToDb_Net (Some (mkObj dbMasterObj 7)) = (None, None)
  ∧ staToDb_Term (Some (mkObj dbMasterObj 7)) = no_term.
Proof. apply (unknown_kind_outcomes header_scheme dbMasterObj 7). reflexivity. Defined.

(** ** The identity encoder *)

Section Encoding.
Context (s : IdScheme) (Hs : scheme_ok s).

Lemma lor_shiftl_add (a t : N) :
  t < 2 ^ DBIDTAG_WIDTH s →
  N.lor (N.shiftl a (DBIDTAG_WIDTH s)) t = a * 2 ^ DBIDTAG_WIDTH s + t.
Proof.
  intros Ht. rewrite N.shiftl_mul_pow2.
  rewrite <- N.lxor_lor, <- N.add_nocarry_lxor; [done | |].
  all: apply N.bits_inj_0; intros n; rewrite N.land_spec.
  all: destruct (decide (n < DBIDTAG_WIDTH s)) as [Hlt|Hge].
  all: try (rewrite N.mul_pow2_bits_low by done; done).
  all: destruct (decide (t = 0)) as [->|Hnz];
    [by rewrite N.bits_0, andb_false_r|].
  all: rewrite (N.bits_above_log2 t n); [by rewrite andb_false_r|].
  all: apply N.lt_le_trans with (DBIDTAG_WIDTH s); [|lia].
  all: apply N.log2_lt_pow2; [lia|done].
Qed.

Lemma capacity_fits (a t : N) :
  a ≤ N.shiftr (ObjectId_max s) (DBIDTAG_WIDTH s) →
  t < 2 ^ DBIDTAG_WIDTH s →
  a * 2 ^ DBIDTAG_WIDTH s + t < 2 ^ OBJECTID_BITS s.
Proof.
  destruct Hs as (_ & Hw & _). unfold ObjectId_max.
  rewrite N.shiftr_div_pow2.
  assert (2 ^ OBJECTID_BITS s
          = 2 ^ DBIDTAG_WIDTH s * 2 ^ (OBJECTID_BITS s - DBIDTAG_WIDTH s))
    as Hsplit.
  { rewrite <- N.pow_add_r. f_equal. lia. }
  rewrite Hsplit.
  set (P := 2 ^ DBIDTAG_WIDTH s).
  set (Q := 2 ^ (OBJECTID_BITS s - DBIDTAG_WIDTH s)).
  assert (0 < P) by (apply N.neq_0_lt_0, N.pow_nonzero; lia).
  assert (0 < Q) by (apply N.neq_0_lt_0, N.pow_nonzero; lia).
  assert ((P * Q - 1) / P = Q - 1) as ->.
  { symmetry. apply (N.div_unique _ _ _ (P - 1)); [lia|nia]. }
  intros Ha Ht. nia.
Qed.

Lemma tag_fits (typ : dbObjectType) (tag : N) :
  tag_of s typ = Some tag → tag < 2 ^ DBIDTAG_WIDTH s.
Proof.
  intros Htag. destruct Hs as (_ & _ & _ & Hall).
  rewrite Forall_forall in Hall. apply Hall.
  destruct typ; simplify_eq/=; set_solver.
Qed.

Lemma getDbNwkObjectId_value (typ : dbObjectType) (i tag : N) :
  tag_of s typ = Some tag →
  i ≤ N.shiftr (ObjectId_max s) (DBIDTAG_WIDTH s) →
  getDbNwkObjectId s typ i = Returns [] (i * 2 ^ DBIDTAG_WIDTH s + tag).
Proof.
  intros Htag Hi. unfold getDbNwkObjectId.
  case_decide; [lia|]. cbn. rewrite Htag. cbn.
  pose proof (tag_fits _ _ Htag) as Hlt.
  rewrite lor_shiftl_add by done.
  unfold ret, wrap. by rewrite N.mod_small by by apply capacity_fits.
Qed.

Lemma tag_of_index (typ : dbObjectType) (tag : N) :
  tag_of s typ = Some tag → tags s !! tag_index typ = Some tag.
Proof. by destruct typ; intros; simplify_eq/=. Qed.

Lemma tag_of_inj (typ1 typ2 : dbObjectType) (tag : N) :
  tag_of s typ1 = Some tag → tag_of s typ2 = Some tag → typ1 = typ2.
Proof.
  intros H1 H2. destruct Hs as (_ & _ & Hnd & _).
  assert (tag_index typ1 = tag_index typ2) as Hidx.
  { eapply NoDup_lookup; eauto using tag_of_index. }
  destruct typ1; try discriminate H1; destruct typ2; try discriminate H2;
    done.
Qed.

Lemma encode_inj (i1 t1 i2 t2 : N) :
  t1 < 2 ^ DBIDTAG_WIDTH s → t2 < 2 ^ DBIDTAG_WIDTH s →
  i1 * 2 ^ DBIDTAG_WIDTH s + t1 = i2 * 2 ^ DBIDTAG_WIDTH s + t2 →
  i1 = i2 ∧ t1 = t2.
Proof.
  set (P := 2 ^ DBIDTAG_WIDTH s). intros H1 H2 Heq.
  assert (i1 = (i1 * P + t1) / P) as Hq1
    by (apply (N.div_unique _ _ _ t1); lia).
  assert (i2 = (i2 * P + t2) / P) as Hq2
    by (apply (N.div_unique _ _ _ t2); lia).
  assert (i1 = i2) by congruence. subst i2. lia.
Qed.
End Encoding.

Lemma getDbNwkObjectId_Returns (s : IdScheme) (typ : dbObjectType) (i a : N)
    (w : list LogMsg) :
  scheme_ok s →
  getDbNwkObjectId s typ i = Returns w a →
  ∃ tag, tag_of s typ = Some tag ∧ a = i * 2 ^ DBIDTAG_WIDTH s + tag.
Proof.
  intros Hs Hr.
  assert (i ≤ N.shiftr (ObjectId_max s) (DBIDTAG_WIDTH s)) as Hcap.
  { unfold getDbNwkObjectId in Hr. case_decide; [done|lia]. }
  destruct (tag_of s typ) as [tag|] eqn:Htag.
  - exists tag. split; [done|].
    rewrite (getDbNwkObjectId_value s Hs _ _ _ Htag Hcap) in Hr.
    by injection Hr as <- <-.
  - unfold getDbNwkObjectId in Hr. case_decide; [done|].
    cbn in Hr. by rewrite Htag in Hr.
Qed.

Lemma identify_hierarchy (s : IdScheme) (e : Entity) (o : dbObject) :
  scheme_ok s → live s true e → entity_object e = Some o →
  ∃ tag, tag_of s (getObjectType o) = Some tag
         ∧ identify s true e
           = Returns [] (getId o * 2 ^ DBIDTAG_WIDTH s + tag).
Proof.
  intros Hs [Hkind Hrange] Ho. unfold id_in_range in Hrange.
  rewrite Ho in Hrange. destruct Hrange as [_ Hcap].
  destruct e as [[|o']|o'|o'|o']; simplify_eq/=; destruct o as [typ i];
    destruct typ; simplify_eq/=; eexists; (split; [done|]);
    unfold identify, id_Instance, id_Pin, id_Net, id_Term; cbn;
    try (case_decide; [done|]); cbn;
    by erewrite getDbNwkObjectId_value.
Qed.

Lemma identify_flat (s : IdScheme) (e : Entity) :
  scheme_ok s → live s false e → flat_kind e = true →
  identify s false e = Returns [] (flat_id e).
Proof.
  intros (Hb & _) [_ Hrange] Hkind. unfold id_in_range in Hrange.
  assert (2 ^ OBJECTID_BITS s = 2 * 2 ^ (OBJECTID_BITS s - 1)) as Hpow.
  { rewrite <- N.pow_succ_r'. f_equal. lia. }
  destruct e as [[|o]|o|o|o]; [done|..]; destruct o as [typ i];
    destruct typ; simplify_eq/=; try done;
    destruct Hrange as [? Hlt]; specialize (Hlt eq_refl);
    unfold id_Pin; cbn; unfold wrap; rewrite N.shiftl_mul_pow2, N.pow_1_r.
  all: rewrite Hpow; set (X := 2 ^ (OBJECTID_BITS s - 1)) in *; clearbody X.
  - rewrite N.mod_small by lia. f_equal. lia.
  - rewrite (N.mod_small (i * 2)) by lia. rewrite N.mod_small by lia.
    f_equal. lia.
Qed.

Lemma flat_id_nonzero (s : IdScheme) (e : Entity) :
  live s false e → flat_kind e = true → e ≠ EntInstance TopInstance →
  flat_id e ≠ 0.
Proof.
  intros [_ Hrange] Hkind Hne. unfold id_in_range in Hrange.
  destruct e as [[|o]|o|o|o]; [done|..]; destruct o as [typ i];
    cbn in *; destruct Hrange as [? _]; destruct typ; lia.
Qed.

Lemma id_Pin_wraps (s : IdScheme) (typ : dbObjectType) (i : dbId) :
  scheme_ok s → typ = dbITermObj ∨ typ = dbBTermObj →
  id_Pin s false (Some (mkObj typ (i + 2 ^ (OBJECTID_BITS s - 1))))
  = id_Pin s false (Some (mkObj typ i)).
Proof.
  intros (Hb & _) Htyp.
  assert (2 ^ OBJECTID_BITS s = 2 * 2 ^ (OBJECTID_BITS s - 1)) as Hpow.
  { rewrite <- N.pow_succ_r'. f_equal. lia. }
  assert (wrap s (N.shiftl (i + 2 ^ (OBJECTID_BITS s - 1)) 1)
          = wrap s (N.shiftl i 1)) as Hw.
  { unfold wrap. rewrite !N.shiftl_mul_pow2, N.pow_1_r.
    replace ((i + 2 ^ (OBJECTID_BITS s - 1)) * 2)
      with (i * 2 + 1 * 2 ^ OBJECTID_BITS s) by lia.
    by rewrite N.Div0.mod_add. }
  destruct Htyp as [-> | ->]; unfold id_Pin; cbn; by rewrite Hw.
Qed.

(** C3, as stated, fails without hierarchy.  An instance, a net and a pin
    of a loaded design carry one identifier.  The module terminal and the
    module boundary terminal that the traversal of the demo design hands
    out, whatever the flag, are both identified by 0, the identifier of
    Top.  A boundary term and a module boundary term share an identifier,
    a module instance and a module net have none, and a terminal id from
    2^31 on wraps around onto a small one. *)
Lemma identifiers_collide_without_hierarchy :
  let s := header_scheme in
  let e1 := EntInstance (InstanceObj (mkObj dbInstObj 2)) in
  let e2 := EntNet (mkObj dbNetObj 2) in
  let e3 := EntPin (mkObj dbITermObj 1) in
  let p1 := EntPin (mkObj dbModITermObj 1) in
  let p2 := EntPin (mkObj dbModBTermObj 1) in
  let t1 := EntTerm (mkObj dbBTermObj 1) in
  let t2 := EntTerm (mkObj dbModBTermObj 1) in
  let wide := EntPin (mkObj dbITermObj (2 ^ 31 + 1)) in
  (live s false e1 ∧ live s false e2 ∧ live s false e3
   ∧ entity_object e1 ≠ entity_object e2 ∧ entity_object e1 ≠ entity_object e3
   ∧ identify s false e1 = Returns [] 2
   ∧ identify s false e2 = Returns [] 2
   ∧ identify s false e3 = Returns [] 2)
  ∧ (live s false p1 ∧ live s false p2 ∧ p1 ≠ p2
     ∧ (∃ v, connectedPins demo_block 5 (Some (mkObj dbModNetObj 1))
             = Some (Returns [] v)
             ∧ entity_object p1 ∈ visitor_calls v
             ∧ entity_object p2 ∈ visitor_calls v)
     ∧ identify s false p1 = Returns [] 0
     ∧ identify s false p2 = Returns [] 0
     ∧ identify s false (EntInstance TopInstance) = Returns [] 0)
  ∧ (live s false t1 ∧ live s false t2 ∧ t1 ≠ t2
     ∧ identify s false t1 = Returns [] 1
     ∧ identify s false t2 = Returns [] 1)
  ∧ (is_fatal (identify s false
                 (EntInstance (InstanceObj (mkObj dbModInstObj 1)))) = true
     ∧ is_fatal (identify s false (EntNet (mkObj dbModNetObj 1))) = true)
  ∧ (kind_ok wide = true ∧ wide ≠ e3
     ∧ identify s false wide = Returns [] 2).
Proof.
  cbn zeta. unfold live, id_in_range.
  assert (∀ P : Prop, P → IfPin = IfPin → P) as Hpin by auto.
  split; [repeat split; try done; try apply Hpin; by vm_compute|].
  split.
  { split; [repeat split; try done; try apply Hpin; by vm_compute|].
    split; [repeat split; try done; try apply Hpin; by vm_compute|].
    split; [done|]. split; [|by vm_compute].
    eexists. split; [vm_compute; reflexivity|].
    cbn [visitor_calls entity_object]. split; set_solver. }
  split; [repeat split; try done; try apply Hpin; by vm_compute|].
  split; [by vm_compute|].
  split; [done|]. split; [done|]. by vm_compute.
Qed.

(** C3, amended: Top is always identified by 0.  The encoder gives
    different identifiers to different pairs of a kind and a database id,
    over all nine kinds.  With hierarchy, different live objects (Top
    included) get different identifiers.  Without hierarchy, over the
    entities of the flat database (Top, flat instances, flat nets, flat and
    boundary terminals, boundary terms) with terminal ids below
    2^(bits-1), different handles of one handle type get different
    identifiers, and bit 0 of a pin's identifier is clear for a flat
    terminal and set for a boundary terminal; handles of different types
    may share one.  In both modes no live entity other than Top is
    identified by 0.  Outside that range the flat scheme does not
    separate: every module terminal and module boundary terminal is
    identified by 0, and a terminal id that is 2^(bits-1) larger gets the
    same identifier. *)
Theorem identify_injective (s : IdScheme) (hierarchy_ : bool) :
  scheme_ok s →
  identify s hierarchy_ (EntInstance TopInstance) = Returns [] 0
  ∧ (∀ typ1 i1 typ2 i2 a b,
       getDbNwkObjectId s typ1 i1 = Returns [] a →
       getDbNwkObjectId s typ2 i2 = Returns [] b →
       (typ1, i1) ≠ (typ2, i2) → a ≠ b)
  ∧ (∀ e1 e2, live s hierarchy_ e1 → live s hierarchy_ e2 →
       (hierarchy_ = false → flat_kind e1 = true ∧ flat_kind e2 = true) →
       separated hierarchy_ e1 e2 →
       ∃ a b, identify s hierarchy_ e1 = Returns [] a
              ∧ identify s hierarchy_ e2 = Returns [] b ∧ a ≠ b)
  ∧ (∀ e, live s hierarchy_ e →
       (hierarchy_ = false → flat_kind e = true) →
       e ≠ EntInstance TopInstance →
       ∃ a, identify s hierarchy_ e = Returns [] a ∧ a ≠ 0)
  ∧ (hierarchy_ = false → ∀ i b,
       live s false (EntPin (mkObj dbITermObj i)) →
       live s false (EntPin (mkObj dbBTermObj b)) →
       ∃ x y, id_Pin s false (Some (mkObj dbITermObj i)) = Returns [] x
              ∧ N.testbit x 0 = false
              ∧ id_Pin s false (Some (mkObj dbBTermObj b)) = Returns [] y
              ∧ N.testbit y 0 = true)
  ∧ (hierarchy_ = false → ∀ i,
       id_Pin s false (Some (mkObj dbModITermObj i)) = Returns [] 0
       ∧ id_Pin s false (Some (mkObj dbModBTermObj i)) = Returns [] 0)
  ∧ (hierarchy_ = false → ∀ typ i,
       typ = dbITermObj ∨ typ = dbBTermObj →
       id_Pin s false (Some (mkObj typ (i + 2 ^ (OBJECTID_BITS s - 1))))
       = id_Pin s false (Some (mkObj typ i))).
Proof.
  intros Hs. split; [done|]. split; [|split; [|split; [|split; [|split]]]].
  - intros typ1 i1 typ2 i2 a b Ha Hb Hne ->.
    apply (getDbNwkObjectId_Returns s) in Ha as (t1 & Ht1 & Ha); [|done].
    apply (getDbNwkObjectId_Returns s) in Hb as (t2 & Ht2 & Hb); [|done].
    rewrite Ha in Hb.
    apply (encode_inj s) in Hb as [-> ->]; eauto using tag_fits.
    apply Hne. f_equal. by eapply tag_of_inj.
  - intros e1 e2 H1 H2 Hflat Hsep. destruct hierarchy_; cbn in Hsep.
    + assert (0 < 2 ^ DBIDTAG_WIDTH s) as Hpos
        by (apply N.neq_0_lt_0, N.pow_nonzero; lia).
      destruct (entity_object e1) as [o1|] eqn:Ho1,
               (entity_object e2) as [o2|] eqn:Ho2.
      * destruct (identify_hierarchy s e1 o1 Hs H1 Ho1) as (t1 & Ht1 & ->).
        destruct (identify_hierarchy s e2 o2 Hs H2 Ho2) as (t2 & Ht2 & ->).
        do 2 eexists. do 2 (split; [done|]). intros Heq.
        apply (encode_inj s) in Heq as [Hid Htag]; eauto using tag_fits.
        subst t2. pose proof (tag_of_inj s Hs _ _ _ Ht1 Ht2) as Hty.
        apply Hsep. f_equal. by destruct o1, o2; simplify_eq/=.
      * destruct (identify_hierarchy s e1 o1 Hs H1 Ho1) as (t1 & Ht1 & ->).
        destruct e2 as [[|?]|?|?|?]; simplify_eq/=.
        do 2 eexists. do 2 (split; [done|]).
        destruct H1 as [_ Hr]. unfold id_in_range in Hr. rewrite Ho1 in Hr.
        nia.
      * destruct (identify_hierarchy s e2 o2 Hs H2 Ho2) as (t2 & Ht2 & ->).
        destruct e1 as [[|?]|?|?|?]; simplify_eq/=.
        do 2 eexists. do 2 (split; [done|]).
        destruct H2 as [_ Hr]. unfold id_in_range in Hr. rewrite Ho2 in Hr.
        nia.
      * done.
    + destruct Hsep as [Hif Hne]. destruct (Hflat eq_refl) as [Hf1 Hf2].
      rewrite (identify_flat s e1 Hs H1 Hf1), (identify_flat s e2 Hs H2 Hf2).
      do 2 eexists. do 2 (split; [done|]). intros Heq. apply Hne.
      destruct H1 as [Hk1 Hr1], H2 as [Hk2 Hr2].
      unfold id_in_range in Hr1, Hr2.
      destruct e1 as [[|[typ1 i1]]|[typ1 i1]|[typ1 i1]|[typ1 i1]],
               e2 as [[|[typ2 i2]]|[typ2 i2]|[typ2 i2]|[typ2 i2]];
        try discriminate Hif; try done; cbn in *.
      all: try (destruct typ1; try discriminate Hf1).
      all: try (destruct typ2; try discriminate Hf2).
      all: cbn in *; try (repeat f_equal; lia).
  - intros e He Hflat Hne. destruct hierarchy_.
    + destruct (entity_object e) as [o|] eqn:Ho;
        [|by destruct e as [[|?]|?|?|?]].
      destruct (identify_hierarchy s e o Hs He Ho) as (t & Ht & ->).
      eexists. split; [done|].
      destruct He as [_ Hr]. unfold id_in_range in Hr. rewrite Ho in Hr.
      assert (0 < 2 ^ DBIDTAG_WIDTH s)
        by (apply N.neq_0_lt_0, N.pow_nonzero; lia).
      nia.
    + rewrite (identify_flat s e Hs He (Hflat eq_refl)).
      eexists. split; [done|].
      exact (flat_id_nonzero s e He (Hflat eq_refl) Hne).
  - intros -> i b Hi Hb.
    pose proof (identify_flat s _ Hs Hi eq_refl) as Hx.
    pose proof (identify_flat s _ Hs Hb eq_refl) as Hy. cbn in Hx, Hy.
    do 2 eexists. split; [exact Hx|]. split; [|split; [exact Hy|]].
    + apply N.testbit_even_0.
    + apply N.testbit_odd_0.
  - intros -> i. by split.
  - intros -> typ i Htyp. by apply id_Pin_wraps.
Qed.

(** Two objects of the demo design under the scheme of the header: the
    flat terminal 1 and the flat net 1 share the database id and differ in
    the tag. *)
Example identify_demo :
  live header_scheme true (EntPin (mkObj dbITermObj 1))
  ∧ live header_scheme true (EntNet (mkObj dbNetObj 1))
  ∧ identify header_scheme true (EntPin (mkObj dbITermObj 1)) = Returns [] 16
  ∧ identify header_scheme true (EntNet (mkObj dbNetObj 1)) = Returns [] 19
  ∧ identify header_scheme false (EntPin (mkObj dbITermObj 1)) = Returns [] 2
  ∧ identify header_scheme false (EntPin (mkObj dbBTermObj 1)) = Returns [] 3.
Proof. unfold live, id_in_range; cbn. repeat split; try done; lia. Qed.

Lemma identify_injective_witness :
  let s := header_scheme in
  identify s false (EntInstance TopInstance) = Returns [] 0
  ∧ (∀ typ1 i1 typ2 i2 a b,
       getDbNwkObjectId s typ1 i1 = Returns [] a →
       getDbNwkObjectId s typ2 i2 = Returns [] b →
       (typ1, i1) ≠ (typ2, i2) → a ≠ b)
  ∧ (∀ e1 e2, live s false e1 → live s false e2 →
       (false = false → flat_kind e1 = true ∧ flat_kind e2 = true) →
       separated false e1 e2 →
       ∃ a b, identify s false e1 = Returns [] a
              ∧ identify s false e2 = Returns [] b ∧ a ≠ b)
  ∧ (∀ e, live s false e →
       (false = false → flat_kind e = true) →
       e ≠ EntInstance TopInstance →
       ∃ a, identify s false e = Returns [] a ∧ a ≠ 0)
  ∧ (false = false → ∀ i b,
       live s false (EntPin (mkObj dbITermObj i)) →
       live s false (EntPin (mkObj dbBTermObj b)) →
       ∃ x y, id_Pin s false (Some (mkObj dbITermObj i)) = Returns [] x
              ∧ N.testbit x 0 = false
              ∧ id_Pin s false (Some (mkObj dbBTermObj b)) = Returns [] y
              ∧ N.testbit y 0 = true)
  ∧ (false = false → ∀ i,
       id_Pin s false (Some (mkObj dbModITermObj i)) = Returns [] 0
       ∧ id_Pin s false (Some (mkObj dbModBTermObj i)) = Returns [] 0)
  ∧ (false = false → ∀ typ i,
       typ = dbITermObj ∨ typ = dbBTermObj →
       id_Pin s false (Some (mkObj typ (i + 2 ^ (OBJECTID_BITS s - 1))))
       = id_Pin s false (Some (mkObj typ i))).
Proof.
  apply (identify_injective header_scheme false).
  unfold scheme_ok. cbn. repeat split; try lia.
  - compute_done.
  - repeat constructor; cbn; lia.
Defined.

(** ** Hierarchy navigation *)

Lemma elem_of_dbSet_of {A} (tbl : gmap dbId A) (p : A → bool) (i : dbId) (a : A) :
  (i, a) ∈ dbSet_of tbl p ↔ tbl !! i = Some a ∧ p a = true.
Proof.
  unfold dbSet_of. rewrite list_elem_of_filter, elem_of_map_to_list. tauto.
Qed.

Lemma elem_of_dbSet_of_fst {A} (tbl : gmap dbId A) (p : A → bool) (i : dbId) :
  i ∈ (dbSet_of tbl p).*1 ↔ ∃ a, tbl !! i = Some a ∧ p a = true.
Proof.
  rewrite list_elem_of_fmap. split.
  - intros ([i' a] & -> & Hin). apply elem_of_dbSet_of in Hin. eauto.
  - intros (a & Ha). exists (i, a). split; [done|]. by apply elem_of_dbSet_of.
Qed.

Lemma NoDup_dbSet_of_fst {A} (tbl : gmap dbId A) (p : A → bool) :
  NoDup (dbSet_of tbl p).*1.
Proof.
  unfold dbSet_of. apply NoDup_fmap_fst.
  - intros i a b [_ Ha]%list_elem_of_filter [_ Hb]%list_elem_of_filter.
    apply elem_of_map_to_list in Ha, Hb. congruence.
  - apply NoDup_filter, NoDup_map_to_list.
Qed.

Lemma child_iterator_drains (top : bool) (insts modinsts : list dbId) (fuel : nat) :
  (length insts + length modinsts < fuel)%nat →
  iterate DbInstanceChildIterator_hasNext DbInstanceChildIterator_next fuel
          (mkChildIter top insts modinsts)
  = ((λ i, dbToSta_Instance dbInstObj (Some i)) <$> insts)
    ++ ((λ i, dbToSta_Instance dbModInstObj (Some i)) <$> modinsts).
Proof.
  revert fuel. induction insts as [|i insts IH]; intros fuel Hfuel.
  - revert fuel Hfuel. induction modinsts as [|m modinsts IHm]; intros fuel Hfuel.
    + destruct fuel; [cbn in Hfuel; lia|done].
    + destruct fuel; [cbn in Hfuel; lia|]. cbn. f_equal.
      apply IHm. simpl in *. lia.
  - destruct fuel; [cbn in Hfuel; lia|]. cbn. f_equal.
    apply IH. simpl in *. lia.
Qed.

Lemma DbInstanceChildIterator_new_ModInst (block_ : dbBlock) (m : dbId)
    (mi : dbModInst) :
  ModInsts block_ !! m = Some mi →
  DbInstanceChildIterator_new true block_
    (Some (InstanceObj (mkObj dbModInstObj m)))
  = Returns []
      (mkChildIter false (module_getInsts block_ (modinst_master mi)).*1
                         (module_getModInsts block_ (modinst_master mi)).*1).
Proof.
  intros Hm. unfold DbInstanceChildIterator_new. cbn.
  case_decide; [done|]. unfold deref. by rewrite Hm.
Qed.

(** The children of a module instance, with hierarchy. *)
Lemma childIterator_ModInst (block_ : dbBlock) (m : dbId) (mi : dbModInst) :
  ModInsts block_ !! m = Some mi →
  childIterator true block_ (Some (InstanceObj (mkObj dbModInstObj m)))
  = Returns []
      (((λ i, dbToSta_Instance dbInstObj (Some i))
          <$> (module_getInsts block_ (modinst_master mi)).*1)
       ++ ((λ i, dbToSta_Instance dbModInstObj (Some i))
             <$> (module_getModInsts block_ (modinst_master mi)).*1)).
Proof.
  intros Hm. unfold childIterator.
  rewrite (DbInstanceChildIterator_new_ModInst _ _ _ Hm).
  unfold mbind, Outcome_bind, bind, mret, Outcome_ret, ret.
  rewrite child_iterator_drains; [done | simpl; lia].
Qed.

(** C5, as stated, fails: the leaf [sub/g1] is a child of the module
    instance [sub], and its parent is Top. *)
Lemma flat_child_parent_is_top :
  let M : StaInstance := Some (InstanceObj (mkObj dbModInstObj 1)) in
  let C : StaInstance := Some (InstanceObj (mkObj dbInstObj 1)) in
  (∃ children, childIterator true demo_block M = Returns [] children
               ∧ C ∈ children)
  ∧ parent demo_block C = Returns [] (Some TopInstance)
  ∧ parent demo_block C ≠ Returns [] M.
Proof.
  cbn. split; [|done]. eexists. split; [vm_compute; reflexivity|].
  apply list_elem_of_here.
Qed.

(** C5, amended: every child of a module instance M is a flat instance or
    a module instance of the module M instantiates; the parent of a
    module-instance child is M, the parent of a flat-instance child is
    Top. *)
Theorem parent_of_child (block_ : dbBlock) (m : dbId) (mi : dbModInst)
    (md : dbModule) :
  ModInsts block_ !! m = Some mi →
  Modules block_ !! modinst_master mi = Some md →
  module_modInst md = Some m →
  let M : StaInstance := Some (InstanceObj (mkObj dbModInstObj m)) in
  ∃ children,
    childIterator true block_ M = Returns [] children
    ∧ ∀ C, C ∈ children →
        (∃ c, C = Some (InstanceObj (mkObj dbModInstObj c))
              ∧ parent block_ C = Returns [] M)
        ∨ (∃ c, C = Some (InstanceObj (mkObj dbInstObj c))
                ∧ parent block_ C = Returns [] (Some TopInstance)).
Proof.
  intros Hm Hmd Hback M. eexists. split; [by apply childIterator_ModInst|].
  intros C [HC|HC]%elem_of_app.
  - right. apply list_elem_of_fmap in HC as (c & -> & _). eauto.
  - left. apply list_elem_of_fmap in HC as (c & -> & Hc). exists c.
    split; [done|].
    apply elem_of_dbSet_of_fst in Hc as (ci & Hci & Hpar).
    apply bool_decide_eq_true in Hpar.
    unfold parent; cbn. unfold deref. rewrite Hci; cbn.
    rewrite Hpar, Hmd; cbn. by rewrite Hback.
Qed.

Lemma parent_of_child_witness :
  let M : StaInstance := Some (InstanceObj (mkObj dbModInstObj 1)) in
  ∃ children,
    childIterator true demo_block M = Returns [] children
    ∧ ∀ C, C ∈ children →
        (∃ c, C = Some (InstanceObj (mkObj dbModInstObj c))
              ∧ parent demo_block C = Returns [] M)
        ∨ (∃ c, C = Some (InstanceObj (mkObj dbInstObj c))
                ∧ parent demo_block C = Returns [] (Some TopInstance)).
Proof.
  apply (parent_of_child demo_block 1 (mkModInst "sub" 1 2)
           (mkModule "sub_mod" (Some 1))); reflexivity.
Defined.

(** ** Pin enumeration and supply terminals *)

Lemma next_signal_iterm_None (iitr : list (dbId * dbITerm)) :
  next_signal_iterm iitr = None → signal_pins iitr = [].
Proof.
  unfold signal_pins. induction iitr as [|it rest IH]; [done|].
  simpl next_signal_iterm. rewrite filter_cons.
  destruct (isSupply (iterm_sigType it.2)) eqn:Hsup; simpl negb; cbv iota;
    [|done].
  intros Hn. case_decide; [done|]. auto.
Qed.

Lemma next_signal_iterm_Some (iitr rest : list (dbId * dbITerm)) (i : dbId) :
  next_signal_iterm iitr = Some (i, rest) →
  signal_pins iitr = dbToSta dbITermObj (Some i) :: signal_pins rest
  ∧ (length rest < length iitr)%nat.
Proof.
  unfold signal_pins. induction iitr as [|it tl IH]; [done|].
  simpl next_signal_iterm. rewrite filter_cons.
  destruct (isSupply (iterm_sigType it.2)) eqn:Hsup; simpl negb; cbv iota.
  - intros Hn. case_decide; [done|].
    destruct (IH Hn) as [-> ?]. split; [done|simpl; lia].
  - intros [= <- <-]. case_decide; [|done]. split; [done|simpl; lia].
Qed.

Lemma net_pin_iterator_drains (hierarchy_ : bool) (fuel : nat)
    (iitr : list (dbId * dbITerm)) (mitr : list dbId) (nx : Pin) :
  (length iitr + length mitr < fuel)%nat →
  iterate (DbNetPinIterator_hasNext hierarchy_) DbNetPinIterator_next fuel
          (mkNetPinIter iitr mitr nx)
  = signal_pins iitr
    ++ (if hierarchy_ then pins_of dbModITermObj mitr else []).
Proof.
  revert iitr mitr nx. induction fuel as [|fuel IH]; intros iitr mitr nx Hfuel;
    [lia|].
  cbn. unfold DbNetPinIterator_hasNext. cbn.
  destruct (next_signal_iterm iitr) as [[i rest]|] eqn:Hnext.
  - apply next_signal_iterm_Some in Hnext as [-> Hlen]. cbn. f_equal.
    apply IH. lia.
  - rewrite (next_signal_iterm_None _ Hnext). cbn.
    destruct mitr as [|m mitr]; [by destruct hierarchy_|].
    destruct hierarchy_; [|done]. cbn. f_equal.
    rewrite IH by (simpl in *; lia). done.
Qed.

Lemma inst_pin_iterator_drains (hierarchy_ : bool) (fuel : nat)
    (iitr : list (dbId * dbITerm)) (bitr mitr : list dbId) (nx : Pin) :
  (length iitr + length bitr + length mitr < fuel)%nat →
  iterate (DbInstancePinIterator_hasNext hierarchy_) DbInstancePinIterator_next
          fuel (mkInstPinIter false iitr bitr mitr nx)
  = signal_pins iitr
    ++ (if hierarchy_ then pins_of dbModITermObj mitr else []).
Proof.
  revert iitr mitr nx. induction fuel as [|fuel IH]; intros iitr mitr nx Hfuel;
    [lia|].
  cbn. unfold DbInstancePinIterator_hasNext. cbn.
  destruct (next_signal_iterm iitr) as [[i rest]|] eqn:Hnext.
  - apply next_signal_iterm_Some in Hnext as [-> Hlen]. cbn. f_equal.
    apply IH. lia.
  - rewrite (next_signal_iterm_None _ Hnext). cbn.
    destruct mitr as [|m mitr]; [by destruct hierarchy_|].
    destruct hierarchy_; [|done]. cbn. f_equal.
    rewrite IH by (simpl in *; lia). done.
Qed.

Lemma top_pin_iterator_drains (hierarchy_ : bool) (fuel : nat)
    (iitr : list (dbId * dbITerm)) (bitr mitr : list dbId) (nx : Pin) :
  (length bitr < fuel)%nat →
  iterate (DbInstancePinIterator_hasNext hierarchy_) DbInstancePinIterator_next
          fuel (mkInstPinIter true iitr bitr mitr nx)
  = pins_of dbBTermObj bitr.
Proof.
  revert bitr nx. induction fuel as [|fuel IH]; intros bitr nx Hfuel; [lia|].
  destruct bitr as [|b bitr]; [done|]. cbn. f_equal. apply IH.
  simpl in *; lia.
Qed.

Lemma visit_all_calls (typ : dbObjectType) (ids : list dbId) (v : Visit) :
  visit_all typ ids v
  = mkVisit (visitor_calls v ++ pins_of typ ids) (visited_nets v).
Proof.
  unfold visit_all, pins_of. revert v.
  induction ids as [|i ids IH]; intros v; simpl.
  - rewrite app_nil_r. by destruct v.
  - rewrite IH. unfold visitor; simpl. by rewrite <- app_assoc.
Qed.

(** ** Connectivity traversal *)

Lemma grows_refl (v : Visit) : grows v v.
Proof. by split. Qed.

Lemma grows_trans (v1 v2 v3 : Visit) : grows v1 v2 → grows v2 v3 → grows v1 v3.
Proof. intros [? ?] [? ?]. split; [set_solver|auto]. Qed.

Lemma grows_visitor (pin : Pin) (v : Visit) : grows v (visitor pin v).
Proof. split; [done|]. intros p Hp. cbn. set_solver. Qed.

Lemma done_in_grows (block_ : dbBlock) (v v' : Visit) (net : Net) :
  done_in block_ v net → grows v v' → done_in block_ v' net.
Proof.
  intros [Hl Hc] [Hn Hp]. split; [auto|].
  intros pin net' Hx. destruct (Hc _ _ Hx) as [? ?]. split; [auto|set_solver].
Qed.

Lemma dbSet_find_Some {A} (tbl : gmap dbId A) (p : A → bool) (i : dbId) (a : A) :
  dbSet_find tbl p = Some (i, a) → tbl !! i = Some a ∧ p a = true.
Proof.
  unfold dbSet_find. intros Hh. apply elem_of_dbSet_of.
  destruct (dbSet_of tbl p); simplify_eq/=. apply list_elem_of_here.
Qed.

Lemma net_Pin_ModBTerm (block_ : dbBlock) (b : dbId) (mb : dbModBTerm) :
  ModBTerms block_ !! b = Some mb →
  net_Pin block_ (Some (mkObj dbModBTermObj b))
  = Returns [] (dbToSta dbModNetObj (modbterm_modNet mb)).
Proof. intros Hb. unfold net_Pin; cbn. unfold deref. by rewrite Hb. Qed.

Lemma net_Pin_ModITerm (block_ : dbBlock) (m : dbId) (mt : dbModITerm) :
  ModITerms block_ !! m = Some mt →
  net_Pin block_ (Some (mkObj dbModITermObj m))
  = Returns [] (dbToSta dbModNetObj (moditerm_modNet mt)).
Proof. intros Hm. unfold net_Pin; cbn. unfold deref. by rewrite Hm. Qed.

Lemma below_pin_net_Returns (block_ : dbBlock) (x : dbId * dbModITerm)
    (w : list LogMsg) (pin : Pin) (net : Net) :
  below_pin_net block_ x = Returns w (pin, net) →
  w = [] ∧ net ∈ table_nets block_.
Proof.
  unfold below_pin_net, deref.
  destruct (ModInsts block_ !! moditerm_parent x.2) as [mi|]; [|done]. cbn.
  destruct (module_findModBTerm block_ (modinst_master mi) (moditerm_name x.2))
    as [[b mb]|] eqn:Hfind; [|done]. cbn [nonnull].
  apply dbSet_find_Some in Hfind as [Hb _].
  cbn. unfold deref. rewrite Hb. cbn.
  intros [= <- <- <-]. split; [done|].
  unfold table_nets. apply elem_of_union_l, elem_of_list_to_set.
  apply list_elem_of_fmap. exists (b, mb). split; [done|].
  by apply elem_of_map_to_list.
Qed.

Lemma above_pin_net_Returns (block_ : dbBlock) (x : dbId * dbModBTerm)
    (w : list LogMsg) (pin : Pin) (net : Net) :
  above_pin_net block_ x = Returns w (Some (pin, net)) →
  w = [] ∧ net ∈ table_nets block_.
Proof.
  unfold above_pin_net, deref.
  destruct (Modules block_ !! modbterm_parent x.2) as [md|]; [|done]. cbn.
  destruct (module_modInst md) as [mi|]; [|done]. cbn [nonnull].
  cbn -[net_Pin modinst_findModITerm].
  destruct (modinst_findModITerm block_ mi (modbterm_name x.2))
    as [[m mt]|] eqn:Hfind; [|done].
  apply dbSet_find_Some in Hfind as [Hm _].
  cbn. unfold deref. rewrite Hm. cbn.
  intros [= <- <- <-]. split; [done|].
  unfold table_nets. apply elem_of_union_r, elem_of_list_to_set.
  apply list_elem_of_fmap. exists (m, mt). split; [done|].
  by apply elem_of_map_to_list.
Qed.

Lemma for_each_visit {A} (I : Visit → Prop) (Q : A → Visit → Prop)
    (l : list A) (body : A → Visit → option (Outcome Visit)) (v : Visit) :
  (∀ x v v', Q x v → grows v v' → Q x v') →
  (∀ x v, x ∈ l → I v →
     ∃ r, body x v = Some r
          ∧ ∀ w v', r = Returns w v' → I v' ∧ grows v v' ∧ Q x v') →
  I v →
  ∃ r, for_each l body v = Some r
       ∧ ∀ w v', r = Returns w v' →
           I v' ∧ grows v v' ∧ ∀ x, x ∈ l → Q x v'.
Proof.
  intros Hmono. revert v. induction l as [|x l IH]; intros v Hbody Hv.
  - eexists. split; [done|]. intros w v' [= <- <-].
    split; [done|]. split; [apply grows_refl|]. intros x Hx. by inversion Hx.
  - destruct (Hbody x v) as (r1 & Hr1 & Hpost1); [apply list_elem_of_here|done|].
    cbn. rewrite Hr1. destruct r1 as [w1 v1|w1 f1]; [|by eexists].
    destruct (Hpost1 _ _ eq_refl) as (Hv1 & Hg1 & Hq1).
    destruct (IH v1) as (r2 & Hr2 & Hpost2); [|done|].
    { intros y v0 Hy. apply Hbody. by apply list_elem_of_further. }
    cbn. rewrite Hr2. destruct r2 as [w2 v2|w2 f2]; [|by eexists].
    destruct (Hpost2 _ _ eq_refl) as (Hv2 & Hg2 & Hq2).
    eexists. split; [done|]. intros w v' [= <- <-].
    split; [done|]. split; [by eapply grows_trans|].
    intros y [->|Hy]%elem_of_cons; [by eapply Hmono|auto].
Qed.


Lemma staToDb_Net_mod (net : Net) (d : option dbId) (m : dbId) :
  staToDb_Net net = (d, Some m) → d = None ∧ net = Some (mkObj dbModNetObj m).
Proof.
  destruct net as [[typ i]|]; [|done]. destruct typ; cbn; intros; by simplify_eq.
Qed.

Lemma unvisited_shrinks (U X : gset Net) (net : Net) :
  net ∈ U → net ∉ X → (size (U ∖ ({[net]} ∪ X)) < size (U ∖ X))%nat.
Proof.
  intros HU HX. apply subset_size. split; [set_solver|].
  intros Hsub. assert (net ∈ U ∖ ({[net]} ∪ X)) by set_solver. set_solver.
Qed.

Lemma unvisited_mono (U X Y : gset Net) :
  X ⊆ Y → (size (U ∖ Y) ≤ size (U ∖ X))%nat.
Proof. intros. apply subseteq_size. set_solver. Qed.

(** One call of the traversal: with fuel above the number of nets not yet
    visited it returns or stops; when it returns, nothing was removed, the
    net is visited, and every net it added is done. *)
Lemma visitConnectedPins_spec (block_ : dbBlock) (U : gset Net) :
  table_nets block_ ⊆ U →
  ∀ (fuel : nat) (net : Net) (v : Visit),
    net ∈ U → (size (U ∖ visited_nets v) < fuel)%nat →
    ∃ r, visitConnectedPins block_ fuel net v = Some r
         ∧ ∀ w v', r = Returns w v' →
             grows v v' ∧ net ∈ visited_nets v'
             ∧ ∀ n, n ∈ visited_nets v' → n ∉ visited_nets v →
                    done_in block_ v' n.
Proof.
  intros HU. induction fuel as [|fuel IH]; intros net v Hnet Hfuel; [lia|].
  cbn [visitConnectedPins]. case_decide as Hseen.
  { eexists. split; [done|]. intros w v' [= <- <-].
    split; [apply grows_refl|]. split; [done|]. intros n Hn Hn'. done. }
  set (v1 := mkVisit (visitor_calls v) ({[net]} ∪ visited_nets v)).
  assert (grows v v1) as Hg1 by (split; [set_solver|done]).
  assert (size (U ∖ visited_nets v1) < fuel)%nat as Hfuel1.
  { pose proof (unvisited_shrinks U (visited_nets v) net Hnet Hseen).
    cbn. lia. }
  destruct (staToDb_Net net) as [d [m|]] eqn:Hcls.
  - (* a module net *)
    apply staToDb_Net_mod in Hcls as Hcls'. destruct Hcls' as [-> Hnet_eq].
    rewrite !visit_all_calls. cbn [visitor_calls visited_nets].
    set (v2 := mkVisit _ _).
    assert (grows v1 v2) as Hg2.
    { split; [done|]. intros p Hp. cbn. rewrite !elem_of_app. auto. }
    assert (∀ pin, pin ∈ listed_pins block_ net → pin ∈ visitor_calls v2)
      as Hlisted.
    { intros pin. unfold listed_pins. rewrite Hcls. cbn.
      rewrite !elem_of_app. tauto. }
    set (I := λ v' : Visit,
           grows v2 v'
           ∧ ∀ n, n ∈ visited_nets v' → n ∉ visited_nets v2 →
                  done_in block_ v' n).
    assert (I v2) as HI2 by (split; [apply grows_refl|done]).
    assert (∀ (pin : Pin) (net' : Net) (v0 : Visit),
              I v0 → net' ∈ table_nets block_ →
              ∃ r, visitConnectedPins block_ fuel net' (visitor pin v0) = Some r
                   ∧ ∀ w v', r = Returns w v' →
                       I v' ∧ grows v0 v'
                       ∧ pin ∈ visitor_calls v' ∧ net' ∈ visited_nets v')
      as Hcall.
    { intros pin net' v0 [Hg0 Hd0] Hnet'.
      destruct (IH net' (visitor pin v0)) as (r & Hr & Hpost).
      { set_solver. }
      { pose proof (unvisited_mono U _ _ (proj1 Hg0)) as Hm.
        cbn in Hm, Hfuel1 |- *. lia. }
      exists r. split; [done|]. intros w v' ->.
      destruct (Hpost _ _ eq_refl) as (Hg & Hin & Hnew).
      assert (grows v0 v') as Hg0'
        by (eapply grows_trans; [apply grows_visitor|done]).
      split; [|split; [done|split; [|done]]].
      - split; [by eapply grows_trans|]. intros n Hn Hn2.
        destruct (decide (n ∈ visited_nets v0)) as [Hold|Hfresh].
        + eapply done_in_grows; eauto.
        + by apply Hnew.
      - destruct Hg as [_ Hp]. apply Hp. cbn. set_solver. }
    set (Qb := λ (x : dbId * dbModITerm) (v' : Visit),
           ∀ pin net', below_pin_net block_ x = Returns [] (pin, net') →
                       pin ∈ visitor_calls v' ∧ net' ∈ visited_nets v').
    set (Qa := λ (x : dbId * dbModBTerm) (v' : Visit),
           ∀ pin net', above_pin_net block_ x = Returns [] (Some (pin, net')) →
                       pin ∈ visitor_calls v' ∧ net' ∈ visited_nets v').
    match goal with
    | |- context [fuel_bind (for_each ?l ?body ?v0) _] =>
        edestruct (for_each_visit I Qb l body v0)
          as (rb & Hrb & Hpostb); [| |exact HI2|]
    end.
    { intros x va vb Hq [Hn Hp] pin net' Hx. destruct (Hq _ _ Hx).
      split; [auto|set_solver]. }
    { intros x v0 _ Hv0.
      destruct (below_pin_net block_ x) as [wx [pin net']|wx fx] eqn:Hx;
        [|by eexists].
      apply below_pin_net_Returns in Hx as Hx'. destruct Hx' as [-> Hnet'].
      destruct (Hcall pin net' v0 Hv0 Hnet') as (r & Hr & Hpost).
      cbn. rewrite Hr. destruct r as [w' v'|w' f']; [|by eexists].
      eexists. split; [done|]. intros w v'' [= <- <-].
      destruct (Hpost _ _ eq_refl) as (? & ? & ? & ?).
      split; [done|]. split; [done|]. intros pin' net'' Heq.
      rewrite Hx in Heq. injection Heq as <- <-. done. }
    rewrite Hrb. destruct rb as [wb vb|wb fb]; [|by eexists].
    cbn [fuel_bind].
    destruct (Hpostb _ _ eq_refl) as (HIb & Hgb & Hqb).
    set (I' := λ v' : Visit, I v' ∧ ∀ x, x ∈ modnet_getModITerms block_ m → Qb x v').
    match goal with
    | |- context [for_each ?l ?body vb] =>
        edestruct (for_each_visit I' Qa l body vb)
          as (ra & Hra & Hposta); [| |split; [exact HIb|exact Hqb]|]
    end.
    { intros x va vc Hq [Hn Hp] pin net' Hx. destruct (Hq _ _ Hx).
      split; [auto|set_solver]. }
    { intros x v0 _ [Hv0 Hq0].
      destruct (above_pin_net block_ x) as [wx [[pin net']|]|wx fx] eqn:Hx;
        [| |by eexists].
      - apply above_pin_net_Returns in Hx as Hx'. destruct Hx' as [-> Hnet'].
        destruct (Hcall pin net' v0 Hv0 Hnet') as (r & Hr & Hpost).
        cbn. rewrite Hr. destruct r as [w' v'|w' f']; [|by eexists].
        eexists. split; [done|]. intros w v'' [= <- <-].
        destruct (Hpost _ _ eq_refl) as (? & Hg' & ? & ?).
        split; [|split; [done|]].
        + split; [done|]. intros y Hy pin' net'' Hy'.
          destruct (Hq0 y Hy _ _ Hy'). destruct Hg' as [? ?].
          split; [auto|set_solver].
        + intros pin' net'' Heq. rewrite Hx in Heq.
          injection Heq as <- <-. done.
      - eexists. split; [done|]. intros w v'' [= <- <-].
        split; [done|]. split; [apply grows_refl|]. intros pin' net'' Heq.
        rewrite Hx in Heq. discriminate Heq. }
    rewrite Hra. destruct ra as [wa va|wa fa]; [|by eexists].
    destruct (Hposta _ _ eq_refl) as ([[Hga' Hda] Hqb'] & Hga & Hqa).
    eexists. split; [done|]. intros w v' [= <- <-].
    assert (grows v va) as Hgv.
    { eapply grows_trans; [exact Hg1|].
      eapply grows_trans; [exact Hg2|]. exact Hga'. }
    split; [done|]. split.
    { destruct Hga' as [Hsub _]. apply Hsub. cbn. set_solver. }
    intros n Hn Hn0. destruct (decide (n = net)) as [->|Hne].
    + split.
      * intros pin Hpin. destruct Hga' as [_ Hp]. auto.
      * intros pin net' (m' & Hm' & Hcross). rewrite Hcls in Hm'.
        injection Hm' as <-.
        destruct Hcross as [(x & Hx & Hxb)|(x & Hx & Hxa)].
        -- by apply (Hqb' x Hx).
        -- by apply (Hqa x Hx).
    + apply Hda; [done|]. cbn. set_solver.
  - (* a flat net *)
    destruct d as [d|].
    + rewrite !visit_all_calls. cbn [visitor_calls visited_nets].
      eexists. split; [done|]. intros w v' [= <- <-].
      split; [|split].
      * split; [set_solver|]. intros p Hp. cbn. rewrite !elem_of_app. auto.
      * cbn. set_solver.
      * intros n Hn Hn0. assert (n = net) as -> by (cbn in Hn; set_solver).
        split.
        -- intros pin. unfold listed_pins. rewrite Hcls. cbn.
           rewrite !elem_of_app. tauto.
        -- intros pin net' (m' & Hm' & _). congruence.
    + eexists. split; [done|]. intros w v' [= <- <-].
      split; [done|]. split; [cbn; set_solver|].
      intros n Hn Hn0. assert (n = net) as -> by (cbn in Hn; set_solver).
      split.
      * intros pin. unfold listed_pins. by rewrite Hcls, elem_of_nil.
      * intros pin net' (m' & Hm' & _). congruence.
Qed.

Lemma traversal_bound_enough (block_ : dbBlock) (net : Net) (extra : nat) :
  (size (({[net]} ∪ table_nets block_) ∖ (∅ : gset Net))
   < traversal_bound block_ + extra)%nat.
Proof.
  unfold traversal_bound.
  pose proof (subseteq_size (({[net]} ∪ table_nets block_) ∖ (∅ : gset Net))
                ({[net]} ∪ table_nets block_)) as H1.
  pose proof (size_union_alt ({[net]} : gset Net) (table_nets block_)) as H2.
  pose proof (subseteq_size (table_nets block_ ∖ {[net]}) (table_nets block_))
    as H3.
  rewrite size_singleton in H2.
  assert (size (({[net]} ∪ table_nets block_) ∖ (∅ : gset Net))
          ≤ size ({[net]} ∪ table_nets block_))%nat by (apply H1; set_solver).
  assert (size (table_nets block_ ∖ {[net]}) ≤ size (table_nets block_))%nat
    by (apply H3; set_solver).
  lia.
Qed.

Lemma pins_of_NoDup (typ : dbObjectType) (ids : list dbId) :
  NoDup ids → NoDup (pins_of typ ids).
Proof. apply NoDup_fmap_2. intros i j. unfold dbToSta; cbn. congruence. Qed.

Lemma flat_net_pins_NoDup (block_ : dbBlock) (d : dbId) :
  NoDup (pins_of dbITermObj (net_getITerms block_ d).*1
         ++ pins_of dbBTermObj (net_getBTerms block_ d).*1).
Proof.
  apply NoDup_app. split; [|split].
  - apply pins_of_NoDup, NoDup_dbSet_of_fst.
  - intros pin (i & -> & _)%list_elem_of_fmap (b & Hb & _)%list_elem_of_fmap.
    discriminate Hb.
  - apply pins_of_NoDup, NoDup_dbSet_of_fst.
Qed.

(** C1, as stated, fails: from the module net [top_net] the boundary
    terminal [in] of [sub_mod] is handed to the visitor twice (once as the
    far side of the crossing into [sub], once as a terminal listed on the
    inner net), and so is the module terminal [sub/in]. *)
Lemma boundary_pins_visited_twice :
  ∃ v, connectedPins demo_block 3 (Some (mkObj dbModNetObj 1))
       = Some (Returns [] v)
       ∧ visitor_calls v
         = [Some (mkObj dbITermObj 4); Some (mkObj dbBTermObj 1);
            Some (mkObj dbModITermObj 1); Some (mkObj dbModBTermObj 1);
            Some (mkObj dbITermObj 1); Some (mkObj dbModBTermObj 1);
            Some (mkObj dbModITermObj 1)]
       ∧ ¬ NoDup (visitor_calls v).
Proof.
  eexists. split; [vm_compute; reflexivity|]. split; [reflexivity|].
  cbn. intros Hnd. apply NoDup_cons in Hnd as [_ Hnd].
  apply NoDup_cons in Hnd as [_ Hnd]. apply NoDup_cons in Hnd as [Hnotin _].
  apply Hnotin. set_solver.
Qed.

Lemma for_each_returns {A} (l : list A)
    (body : A → Visit → option (Outcome Visit)) (v : Visit) (r : Outcome Visit) :
  (∀ x v r, x ∈ l → body x v = Some r → is_fatal r = false) →
  for_each l body v = Some r → is_fatal r = false.
Proof.
  revert v r. induction l as [|x l IH]; intros v r Hbody; cbn.
  - by intros [= <-].
  - destruct (body x v) as [[w1 v1|w1 f1]|] eqn:Hx; cbn; [| |done].
    + destruct (for_each l body v1) as [[w2 v2|w2 f2]|] eqn:Hl; cbn;
        [by intros [= <-]| |done].
      assert (is_fatal (Stops w2 f2 : Outcome Visit) = false) as Hf; [|done].
      apply (IH v1); [|done]. intros y v0 r0 Hy. apply Hbody.
      by apply list_elem_of_further.
    + assert (is_fatal (Stops w1 f1 : Outcome Visit) = false) as Hf; [|done].
      apply (Hbody x v); [apply list_elem_of_here|done].
Qed.

(** In a linked hierarchy the traversal never stops. *)
Lemma visitConnectedPins_returns (block_ : dbBlock) :
  hierarchy_linked block_ →
  ∀ (fuel : nat) (net : Net) (v : Visit) (r : Outcome Visit),
    visitConnectedPins block_ fuel net v = Some r → is_fatal r = false.
Proof.
  intros Hlinked. induction fuel as [|fuel IH]; intros net v r; [done|].
  cbn [visitConnectedPins]. case_decide; [by intros [= <-]|]. cbv zeta.
  destruct (staToDb_Net net) as [d [m|]] eqn:Hcls;
    [|destruct d; by intros [= <-]].
  apply staToDb_Net_mod in Hcls as [-> _].
  destruct (Hlinked m) as [Hbelow Habove].
  match goal with
  | |- fuel_bind (for_each ?l ?body ?v0) ?k = _ → _ =>
      destruct (for_each l body v0) as [[w1 v1|w1 f1]|] eqn:Hl; cbn; [| |done]
  end.
  - match goal with
    | |- match for_each ?l ?body ?v0 with _ => _ end = _ → _ =>
        destruct (for_each l body v0) as [[w2 v2|w2 f2]|] eqn:Hl2; cbn;
          [by intros [= <-]| |done]
    end.
    apply for_each_returns in Hl2; [done|].
    intros x v0 r0 Hx. specialize (Habove x Hx).
    destruct (above_pin_net block_ x) as [wx [[pin net']|]|]; [| |done]; cbn.
    + destruct (visitConnectedPins block_ fuel net' (visitor pin v0))
        as [r1|] eqn:Hr1; [|done].
      apply IH in Hr1. destruct r1; [|done]. by intros [= <-].
    + by intros [= <-].
  - apply for_each_returns in Hl; [done|].
    intros x v0 r0 Hx. specialize (Hbelow x Hx).
    destruct (below_pin_net block_ x) as [wx [pin net']|]; [|done]; cbn.
    destruct (visitConnectedPins block_ fuel net' (visitor pin v0))
      as [r1|] eqn:Hr1; [|done].
    apply IH in Hr1. destruct r1; [|done]. by intros [= <-].
Qed.

(** The traversal ends and covers the connected pins. *)
Lemma elem_of_pins_of (typ : dbObjectType) (ids : list dbId) (pin : Pin) :
  pin ∈ pins_of typ ids ↔ ∃ i, pin = Some (mkObj typ i) ∧ i ∈ ids.
Proof. unfold pins_of. by rewrite list_elem_of_fmap. Qed.

Lemma for_each_inv {A} (P : Visit → Prop) (l : list A)
    (body : A → Visit → option (Outcome Visit)) (v v' : Visit)
    (w : list LogMsg) :
  (∀ x v w v', x ∈ l → P v → body x v = Some (Returns w v') → P v') →
  P v → for_each l body v = Some (Returns w v') → P v'.
Proof.
  revert v w. induction l as [|x l IH]; intros v w Hbody Hv.
  - by intros [= <- <-].
  - cbn. destruct (body x v) as [[w1 v1|w1 f1]|] eqn:Hx; cbn; [|done|done].
    destruct (for_each l body v1) as [[w2 v2|w2 f2]|] eqn:Hl; [|done|done].
    intros [= <- <-]. eapply IH; [| |exact Hl].
    + intros y v0 w0 v0' Hy. apply Hbody. by apply list_elem_of_further.
    + eapply Hbody; [apply list_elem_of_here|exact Hv|exact Hx].
Qed.

Lemma terminals_pins_of (typ : dbObjectType) (ids : list dbId) :
  terminals (pins_of typ ids)
  = if bool_decide (typ = dbITermObj ∨ typ = dbBTermObj)
    then pins_of typ ids else [].
Proof.
  unfold terminals, pins_of. induction ids as [|i ids IH].
  - by case_bool_decide.
  - cbn [fmap list_fmap]. rewrite filter_cons, IH.
    destruct typ; cbn; case_decide; try done; by case_bool_decide.
Qed.

Lemma staToDb_Net_flat (net : Net) (d : dbId) :
  staToDb_Net net = (Some d, None) → net = Some (mkObj dbNetObj d).
Proof.
  destruct net as [[typ i]|]; [|done]. destruct typ; cbn; intros; by simplify_eq.
Qed.

Lemma below_pin_net_kinds (block_ : dbBlock) (x : dbId * dbModITerm)
    (w : list LogMsg) (pin : Pin) (net : Net) :
  below_pin_net block_ x = Returns w (pin, net) →
  (∃ b, pin = Some (mkObj dbModBTermObj b))
  ∧ ∃ o, net = dbToSta dbModNetObj o.
Proof.
  unfold below_pin_net.
  destruct (deref (ModInsts block_) (moditerm_parent x.2)) as [w1 mi|];
    [|done].
  cbn -[net_Pin module_findModBTerm].
  destruct (module_findModBTerm block_ (modinst_master mi)
              (moditerm_name x.2)) as [[b mb]|] eqn:Hfind; [|done].
  apply dbSet_find_Some in Hfind as [Hb _].
  cbn -[net_Pin]. rewrite (net_Pin_ModBTerm _ _ _ Hb). cbn.
  intros [= _ <- <-]. split; by eexists.
Qed.

Lemma above_pin_net_kinds (block_ : dbBlock) (x : dbId * dbModBTerm)
    (w : list LogMsg) (pin : Pin) (net : Net) :
  above_pin_net block_ x = Returns w (Some (pin, net)) →
  (∃ m, pin = Some (mkObj dbModITermObj m))
  ∧ ∃ o, net = dbToSta dbModNetObj o.
Proof.
  unfold above_pin_net.
  destruct (deref (Modules block_) (modbterm_parent x.2)) as [w1 md|];
    [|done].
  cbn -[net_Pin modinst_findModITerm].
  destruct (module_modInst md) as [mi|]; [|done].
  cbn -[net_Pin modinst_findModITerm].
  destruct (modinst_findModITerm block_ mi (modbterm_name x.2))
    as [[m mt]|] eqn:Hfind; [|done].
  apply dbSet_find_Some in Hfind as [Hm _].
  cbn -[net_Pin]. rewrite (net_Pin_ModITerm _ _ _ Hm). cbn.
  intros [= _ <- <-]. split; by eexists.
Qed.

Lemma terminals_once_visitor (block_ : dbBlock) (pin : Pin) (v : Visit) :
  is_terminal pin = false → terminals_once block_ v →
  terminals_once block_ (visitor pin v).
Proof.
  intros Hpin [Hnd Hl]. split; cbn [visitor visitor_calls visited_nets].
  - unfold terminals. rewrite filter_app, filter_cons, filter_nil.
    rewrite decide_False by (by rewrite Hpin). by rewrite app_nil_r.
  - intros q [?|Hq%list_elem_of_singleton]%elem_of_app Hterm; [auto|].
    subst q. congruence.
Qed.

(** One call of the traversal from a net that is not a flat net keeps
    [terminals_once]: a terminal is listed on one module net at most, and
    a net is entered once. *)
Lemma visitConnectedPins_terminals_once (block_ : dbBlock) (fuel : nat) :
  ∀ (net : Net) (v v' : Visit) (w : list LogMsg),
    (∀ d, net ≠ Some (mkObj dbNetObj d)) →
    terminals_once block_ v →
    visitConnectedPins block_ fuel net v = Some (Returns w v') →
    terminals_once block_ v'.
Proof.
  induction fuel as [|fuel IH]; intros net v v' w Hnet Hv; [done|].
  cbn [visitConnectedPins]. case_decide as Hseen.
  { by intros [= <- <-]. }
  cbv zeta.
  destruct (staToDb_Net net) as [d [m|]] eqn:Hcls.
  - pose proof (staToDb_Net_mod _ _ _ Hcls) as [-> Hm]. subst net.
    rewrite !visit_all_calls. cbn [visitor_calls visited_nets].
    set (v0 := mkVisit _ _).
    assert (terminals_once block_ v0) as Hv0.
    { destruct Hv as [Hnd Hl]. subst v0. split; cbn [visitor_calls visited_nets].
      - unfold terminals. rewrite !filter_app.
        fold (terminals (visitor_calls v)).
        fold (terminals (pins_of dbITermObj (modnet_getITerms block_ m).*1)).
        fold (terminals (pins_of dbBTermObj (modnet_getBTerms block_ m).*1)).
        fold (terminals
                (pins_of dbModBTermObj (modnet_getModBTerms block_ m).*1)).
        fold (terminals
                (pins_of dbModITermObj (modnet_getModITerms block_ m).*1)).
        rewrite !terminals_pins_of.
        rewrite (bool_decide_eq_true_2 (dbITermObj = _ ∨ _)) by (by left).
        rewrite (bool_decide_eq_true_2 (dbBTermObj = _ ∨ _)) by (by right).
        rewrite !bool_decide_eq_false_2 by (by intros [?|?]).
        rewrite !app_nil_r, <- app_assoc.
        apply NoDup_app. split; [done|]. split.
        + intros pin [Hterm Hin]%list_elem_of_filter Hnew.
          destruct (Hl pin Hin Hterm) as (m' & Hvis & Hlist).
          assert (m' ≠ m) as Hne by (intros ->; done).
          unfold listed_pins in Hlist. cbn in Hlist.
          apply elem_of_app in Hnew as [Hnew|Hnew];
            apply elem_of_pins_of in Hnew as (j & -> & Hj);
            apply elem_of_dbSet_of_fst in Hj as (t & Ht & Hs);
            apply bool_decide_eq_true in Hs;
            rewrite !elem_of_app, !elem_of_pins_of in Hlist;
            destruct Hlist as [Hx|[Hx|[Hx|Hx]]];
            destruct Hx as (j' & Heq & Hj'); try discriminate Heq;
            injection Heq as <-;
            apply elem_of_dbSet_of_fst in Hj' as (t' & Ht' & Hs');
            apply bool_decide_eq_true in Hs'; congruence.
        + apply NoDup_app. split; [|split].
          * apply pins_of_NoDup, NoDup_dbSet_of_fst.
          * intros pin (i & -> & _)%elem_of_pins_of
              (b & Hb & _)%elem_of_pins_of. discriminate Hb.
          * apply pins_of_NoDup, NoDup_dbSet_of_fst.
      - intros pin Hin Hterm.
        rewrite <- !app_assoc in Hin.
        apply elem_of_app in Hin as [Hold|Hnew].
        + destruct (Hl pin Hold Hterm) as (m' & Hvis & Hlist).
          exists m'. split; [set_solver|done].
        + exists m. split; [set_solver|]. unfold listed_pins. by cbn. }
    clearbody v0.
    match goal with
    | |- fuel_bind (for_each ?l ?body ?v1) ?k = _ → _ =>
        destruct (for_each l body v1) as [[w1 v1'|w1 f1]|] eqn:Hl; cbn;
          [| done | done]
    end.
    match goal with
    | |- match for_each ?l ?body ?v1 with _ => _ end = _ → _ =>
        destruct (for_each l body v1) as [[w2 v2|w2 f2]|] eqn:Hl2;
          [| done | done]
    end.
    intros [= <- <-].
    eapply (for_each_inv (terminals_once block_)); [| |exact Hl2].
    + intros x u wu u' Hx Hu. cbv beta.
      destruct (above_pin_net block_ x) as [wa [[ap an]|]|] eqn:Ha; cbn;
        [| |done].
      * destruct (visitConnectedPins block_ fuel an (visitor ap u))
          as [[wr ur|]|] eqn:Hrec; [|done|done].
        intros [= <- <-].
        apply above_pin_net_kinds in Ha as [[j ->] [o ->]].
        eapply IH; [| |exact Hrec].
        -- intros d'. by destruct o.
        -- by apply terminals_once_visitor.
      * by intros [= <- <-].
    + eapply (for_each_inv (terminals_once block_)); [| |exact Hl].
      * intros x u wu u' Hx Hu. cbv beta.
        destruct (below_pin_net block_ x) as [wb [bp bn]|] eqn:Hb; cbn;
          [|done].
        destruct (visitConnectedPins block_ fuel bn (visitor bp u))
          as [[wr ur|]|] eqn:Hrec; [|done|done].
        intros [= <- <-].
        apply below_pin_net_kinds in Hb as [[j ->] [o ->]].
        eapply IH; [| |exact Hrec].
        -- intros d'. by destruct o.
        -- by apply terminals_once_visitor.
      * exact Hv0.
  - destruct d as [d|].
    + apply staToDb_Net_flat in Hcls. by destruct (Hnet d).
    + intros [= <- <-]. destruct Hv as [Hnd Hl]. split; [done|].
      cbn [visitor_calls visited_nets]. intros pin Hin Hterm.
      destruct (Hl pin Hin Hterm) as (m' & Hvis & Hlist).
      exists m'. split; [set_solver|done].
Qed.

Lemma traversal_ends_and_covers (block_ : dbBlock) (net : Net)
    (extra : nat) :
  ∃ r, connectedPins block_ (traversal_bound block_ + extra) net = Some r
       ∧ (hierarchy_linked block_ → ∃ w v, r = Returns w v)
       ∧ ∀ w v, r = Returns w v →
           (∀ pin, connected_pin block_ net pin → pin ∈ visitor_calls v)
           ∧ NoDup (terminals (visitor_calls v))
           ∧ (∀ d, staToDb_Net net = (Some d, None) →
                visitor_calls v = listed_pins block_ net
                ∧ NoDup (visitor_calls v)).
Proof.
  destruct (visitConnectedPins_spec block_ ({[net]} ∪ table_nets block_))
    with (fuel := (traversal_bound block_ + extra)%nat) (net := net)
         (v := mkVisit [] ∅) as (r & Hr & Hpost).
  { set_solver. }
  { set_solver. }
  { apply traversal_bound_enough. }
  exists r. split; [exact Hr|]. split.
  { intros Hlinked. apply (visitConnectedPins_returns _ Hlinked) in Hr.
    destruct r; [by eauto|done]. }
  intros w v ->.
  assert (∀ d, staToDb_Net net = (Some d, None) →
               visitor_calls v = listed_pins block_ net
               ∧ NoDup (visitor_calls v)) as Hflat.
  { intros d Hd. unfold connectedPins, traversal_bound in Hr.
    cbn [Nat.add visitConnectedPins] in Hr.
    case_decide; [set_solver|]. rewrite Hd in Hr.
    rewrite !visit_all_calls in Hr. cbn in Hr. injection Hr as <- <-.
    unfold listed_pins. rewrite Hd. split; [done|].
    apply flat_net_pins_NoDup. }
  destruct (Hpost _ _ eq_refl) as (_ & Hin & Hdone). split; [|split].
  - intros pin (n & Hreach & Hpin).
    assert (n ∈ visited_nets v) as Hn; [clear Hpin|].
    { revert n Hreach. apply rtc_ind_r; [done|].
      intros n1 n2 _ [p Hx] IH.
      destruct (Hdone n1) as [_ Hc]; [done|set_solver|].
      by destruct (Hc _ _ Hx). }
    destruct (Hdone n Hn) as [Hl Hc]; [set_solver|].
    destruct Hpin as [?|[n' Hx]]; [auto|]. by destruct (Hc _ _ Hx).
  - destruct (staToDb_Net net) as [[d|] [m|]] eqn:Hcls.
    + by apply staToDb_Net_mod in Hcls as [[=] _].
    + destruct (Hflat d eq_refl) as [_ Hnd]. by apply NoDup_filter.
    + eapply (visitConnectedPins_terminals_once block_ _ net (mkVisit [] ∅));
        [| |exact Hr].
      * intros d ->. cbn in Hcls. done.
      * split; [apply NoDup_nil_2|]. by intros pin ?%elem_of_nil.
    + eapply (visitConnectedPins_terminals_once block_ _ net (mkVisit [] ∅));
        [| |exact Hr].
      * intros d ->. cbn in Hcls. done.
      * split; [apply NoDup_nil_2|]. by intros pin ?%elem_of_nil.
  - exact Hflat.
Qed.

(** C1, amended: with fuel above the number of nets of the block the
    traversal from an empty visited set ends; in a linked hierarchy it
    returns.  When it returns, every pin connected to the net across module
    boundaries was handed to the visitor at least once, no flat terminal
    and no boundary terminal was handed over twice, whatever the net the
    traversal started from, and on a flat net every pin was handed over
    exactly once.  Only a pin at a module boundary can be handed over more
    than once. *)
Theorem connectedPins_terminates_and_covers (block_ : dbBlock) (net : Net)
    (extra : nat) :
  ∃ r, connectedPins block_ (traversal_bound block_ + extra) net = Some r
       ∧ (hierarchy_linked block_ → ∃ w v, r = Returns w v)
       ∧ ∀ w v, r = Returns w v →
           (∀ pin, connected_pin block_ net pin → pin ∈ visitor_calls v)
           ∧ NoDup (terminals (visitor_calls v))
           ∧ (∀ d, staToDb_Net net = (Some d, None) →
                visitor_calls v = listed_pins block_ net
                ∧ NoDup (visitor_calls v)).
Proof. apply traversal_ends_and_covers. Qed.

Lemma elem_of_signal_pins (iterms : list (dbId * dbITerm)) (pin : Pin) :
  pin ∈ signal_pins iterms
  ↔ ∃ i it, (i, it) ∈ iterms ∧ isSupply (iterm_sigType it) = false
            ∧ pin = Some (mkObj dbITermObj i).
Proof.
  unfold signal_pins. rewrite list_elem_of_fmap. split.
  - intros ([i it] & -> & [Hs Hin]%list_elem_of_filter). by exists i, it.
  - intros (i & it & Hin & Hs & ->). exists (i, it). split; [done|].
    by apply list_elem_of_filter.
Qed.

(** The demo design is linked. *)
Example demo_block_linked : hierarchy_linked demo_block.
Proof.
  intros m. split.
  - intros [i mt] [Hl _]%elem_of_dbSet_of.
    apply elem_of_list_to_map_2 in Hl as Hin.
    by apply list_elem_of_singleton in Hin as [= -> ->].
  - intros [i mb] [Hl _]%elem_of_dbSet_of.
    apply elem_of_list_to_map_2 in Hl as Hin.
    by apply list_elem_of_singleton in Hin as [= -> ->].
Qed.

(** C7, as stated, fails: the traversal hands the supply terminal
    [sub/g1.VDD] to the visitor, from its module net and from its flat net,
    and the pins of Top include the supply boundary terminal [VDD]. *)
Lemma supply_pins_are_enumerated :
  let vdd_pin : Pin := Some (mkObj dbITermObj 3) in
  (∃ it, ITerms demo_block !! 3 = Some it
         ∧ isSupply (iterm_sigType it) = true)
  ∧ (∃ v, connectedPins demo_block 2 (Some (mkObj dbModNetObj 3))
          = Some (Returns [] v) ∧ vdd_pin ∈ visitor_calls v)
  ∧ (∃ v, connectedPins demo_block 2 (Some (mkObj dbNetObj 3))
          = Some (Returns [] v) ∧ vdd_pin ∈ visitor_calls v)
  ∧ (∃ bt, BTerms demo_block !! 2 = Some bt
           ∧ isSupply (bterm_sigType bt) = true)
  ∧ (∃ pins, pinIterator_Instance true demo_block (Some TopInstance)
             = Returns [] pins ∧ Some (mkObj dbBTermObj 2) ∈ pins).
Proof.
  cbn zeta. split; [by eexists|]. split.
  { eexists. split; [vm_compute; reflexivity|]. cbn. set_solver. }
  split.
  { eexists. split; [vm_compute; reflexivity|]. cbn. set_solver. }
  split; [by eexists|].
  eexists. split; [vm_compute; reflexivity|]. set_solver.
Qed.

(** C7, amended: the pin iterator of a flat instance and the pin iterator
    of a net produce the terminals that are not supply terminals (the net
    iterator then the module terminals, with hierarchy).  The pin iterator
    of Top produces every boundary terminal, and the connectivity traversal
    hands every terminal listed on the net to the visitor, supply terminals
    included.  A flat net is a power (ground) net exactly when its signal
    type is POWER (GROUND). *)
Theorem pin_enumeration_and_supply (hierarchy_ : bool) (block_ : dbBlock) :
  (∀ iterms pin,
     pin ∈ signal_pins iterms
     ↔ ∃ i it, (i, it) ∈ iterms ∧ isSupply (iterm_sigType it) = false
               ∧ pin = Some (mkObj dbITermObj i))
  ∧ (∀ i, pinIterator_Instance hierarchy_ block_
            (Some (InstanceObj (mkObj dbInstObj i)))
          = Returns [] (signal_pins (inst_getITerms block_ i)))
  ∧ (∀ d, pinIterator_Net hierarchy_ block_ (Some (mkObj dbNetObj d))
          = signal_pins (net_getITerms block_ d))
  ∧ (∀ m, pinIterator_Net hierarchy_ block_ (Some (mkObj dbModNetObj m))
          = signal_pins (modnet_getITerms block_ m)
            ++ (if hierarchy_
                then pins_of dbModITermObj (modnet_getModITerms block_ m).*1
                else []))
  ∧ pinIterator_Instance hierarchy_ block_ (Some TopInstance)
    = Returns [] (pins_of dbBTermObj (block_getBTerms block_).*1)
  ∧ (∀ net extra w v,
       connectedPins block_ (traversal_bound block_ + extra) net
       = Some (Returns w v) →
       ∀ pin, pin ∈ listed_pins block_ net → pin ∈ visitor_calls v)
  ∧ (∀ d n, Nets block_ !! d = Some n →
       isPower block_ (Some (mkObj dbNetObj d))
       = Returns [] (bool_decide (net_sigType n = POWER))
       ∧ isGround block_ (Some (mkObj dbNetObj d))
         = Returns [] (bool_decide (net_sigType n = GROUND))).
Proof.
  split; [apply elem_of_signal_pins|]. split.
  { intros i. unfold pinIterator_Instance, DbInstancePinIterator_new.
    rewrite bool_decide_eq_false_2 by done.
    unfold staToDb_Instance, getObjectType.
    unfold mbind, Outcome_bind, bind, mret, Outcome_ret, ret.
    cbn [inst_iitr_ inst_bitr_ inst_mi_itr_ length Nat.add app].
    rewrite inst_pin_iterator_drains by (simpl; lia).
    destruct hierarchy_; by rewrite app_nil_r. }
  split.
  { intros d. unfold pinIterator_Net, DbNetPinIterator_new.
    cbn [staToDb_Net getObjectType getId net_iitr_ net_mitr_].
    rewrite net_pin_iterator_drains by (simpl; lia).
    destruct hierarchy_; by rewrite app_nil_r. }
  split.
  { intros m. unfold pinIterator_Net, DbNetPinIterator_new.
    cbn [staToDb_Net getObjectType getId net_iitr_ net_mitr_].
    by rewrite net_pin_iterator_drains by (simpl; lia). }
  split.
  { unfold pinIterator_Instance, DbInstancePinIterator_new.
    rewrite bool_decide_eq_true_2 by done.
    unfold mbind, Outcome_bind, bind, mret, Outcome_ret, ret.
    cbn [inst_iitr_ inst_bitr_ inst_mi_itr_ length Nat.add app].
    by rewrite top_pin_iterator_drains by (simpl; lia). }
  split.
  { intros net extra w v Hr pin Hpin.
    destruct (traversal_ends_and_covers block_ net extra)
      as (r & Hr' & _ & Hcov).
    rewrite Hr in Hr'. injection Hr' as <-.
    apply (Hcov _ _ eq_refl). exists net. split; [done|]. by left. }
  intros d n Hd. unfold isPower, isGround, Net_sigType; cbn.
  unfold deref. by rewrite Hd.
Qed.

(** ** Library cross-reference *)

Lemma makeCell_port_outcome (cell_name : string) (lib_cell : option LibertyCell)
    (mterm : dbMTerm) :
  ∃ port,
    makeCell_port cell_name lib_cell mterm
    = Returns
        (match lib_cell with
         | Some lc =>
             if bool_decide (findLibertyPort lc (mterm_name mterm) = None)
                && negb (isPowerGround
                           (dbToSta_PortDirection (mterm_sigType mterm)
                                                  (mterm_ioType mterm)))
                && bool_decide (findPgPort lc (mterm_name mterm) = None)
             then [mkLogMsg 2001 [cell_name; mterm_name mterm]]
             else []
         | None => []
         end) port.
Proof.
  unfold makeCell_port. destruct lib_cell as [lc|]; [|by eexists].
  destruct (findLibertyPort lc (mterm_name mterm)); [by eexists|].
  destruct (isPowerGround _); [by eexists|].
  destruct (findPgPort lc (mterm_name mterm)); by eexists.
Qed.

Lemma for_each_build_outcome {A B} (body : A → Outcome B) (w : A → list LogMsg)
    (l : list A) :
  (∀ x, ∃ y, body x = Returns (w x) y) →
  ∃ ys, for_each_build body l = Returns (mjoin (w <$> l)) ys.
Proof.
  intros Hbody. induction l as [|x l [ys IH]]; [by eexists|].
  destruct (Hbody x) as [y Hy]. cbn. rewrite Hy, IH. cbn.
  rewrite app_nil_r. by eexists.
Qed.

(** C8: building a cell never stops, and it warns about a terminal exactly
    when the terminal is not power or ground and the liberty cell of that
    name exists and has neither a port nor a pg-port of the terminal's
    name; nothing else is logged. *)
Theorem makeCell_warns_on_missing_port (liberty : list LibertyCell)
    (master : dbMaster) :
  (∃ log cell, makeCell liberty master = Returns log cell)
  ∧ (∀ name,
       mkLogMsg 2001 [master_name master; name]
         ∈ warnings (makeCell liberty master)
       ↔ ∃ mterm, mterm ∈ master_MTerms master ∧ mterm_name mterm = name
                  ∧ missing_from_liberty liberty master mterm)
  ∧ (∀ msg, msg ∈ warnings (makeCell liberty master) →
            ∃ name, msg = mkLogMsg 2001 [master_name master; name]).
Proof.
  unfold makeCell.
  edestruct (for_each_build_outcome
               (makeCell_port (master_name master)
                  (findLibertyCell liberty (master_name master))))
    as [ports Hports]; [apply makeCell_port_outcome|].
  rewrite Hports. cbn. rewrite app_nil_r.
  split; [by do 2 eexists|].
  assert (∀ msg,
            msg ∈ mjoin
              ((λ mterm,
                  match findLibertyCell liberty (master_name master) with
                  | Some lc =>
                      if bool_decide
                           (findLibertyPort lc (mterm_name mterm) = None)
                         && negb (isPowerGround
                                    (dbToSta_PortDirection
                                       (mterm_sigType mterm)
                                       (mterm_ioType mterm)))
                         && bool_decide
                              (findPgPort lc (mterm_name mterm) = None)
                      then [mkLogMsg 2001 [master_name master; mterm_name mterm]]
                      else []
                  | None => []
                  end) <$> master_MTerms master)
            ↔ ∃ mterm, mterm ∈ master_MTerms master
                       ∧ msg = mkLogMsg 2001 [master_name master;
                                               mterm_name mterm]
                       ∧ missing_from_liberty liberty master mterm) as Hmsg.
  { intros msg. rewrite list_elem_of_join. unfold missing_from_liberty.
    split.
    - intros (ws & Hmsg & (mterm & -> & Hin)%list_elem_of_fmap).
      exists mterm. split; [done|].
      destruct (findLibertyCell liberty (master_name master)) as [lc|];
        [|by apply elem_of_nil in Hmsg].
      destruct (bool_decide _ && _ && _) eqn:Hcond;
        [|by apply elem_of_nil in Hmsg].
      apply list_elem_of_singleton in Hmsg as ->.
      apply andb_prop in Hcond as [[Hp Hpg]%andb_prop Hf].
      apply bool_decide_eq_true in Hp, Hf. apply negb_true_iff in Hpg.
      split; [done|]. split; [done|]. by exists lc.
    - intros (mterm & Hin & -> & Hpg & lc & Hlc & Hp & Hf).
      eexists. split; [|apply list_elem_of_fmap; by exists mterm].
      cbn beta. rewrite Hlc, Hp, Hf, Hpg. cbn. apply list_elem_of_here. }
  split.
  - intros name. rewrite Hmsg. split.
    + intros (mterm & Hin & [= ->] & Hmiss). by exists mterm.
    + intros (mterm & Hin & <- & Hmiss). by exists mterm.
  - intros msg (mterm & _ & -> & _)%Hmsg. by eexists.
Qed.

(** End-to-end scenario 1 of the design: all ports found, no warning.  A
    liberty cell that lacks pin B and declares no pg-ports draws one
    warning, for B; the power and ground terminals draw none. *)
Example makeCell_demo :
  warnings (makeCell demo_liberty demo_master) = []
  ∧ warnings (makeCell demo_liberty_partial demo_master)
    = [mkLogMsg 2001 ["AND2_X1"; "B"]].
Proof. split; reflexivity. Qed.

(** ** Connecting a port *)

Lemma le_foldr_max (l : list N) (x : N) : x ∈ l → x ≤ foldr N.max 0 l.
Proof.
  induction l as [|y l IH]; [by intros ?%elem_of_nil|].
  intros [->|Hin]%elem_of_cons; cbn; [lia|]. specialize (IH Hin). lia.
Qed.

Lemma fresh_id_None {A} (tbl : gmap dbId A) : tbl !! fresh_id tbl = None.
Proof.
  destruct (tbl !! fresh_id tbl) as [a|] eqn:Hl; [|done].
  assert (fresh_id tbl ∈ (map_to_list tbl).*1) as Hin.
  { apply list_elem_of_fmap. exists (fresh_id tbl, a).
    split; [done|]. by apply elem_of_map_to_list. }
  apply le_foldr_max in Hin. unfold fresh_id in Hin at 1. lia.
Qed.

Lemma live_dbNet_flat (block_ : dbBlock) (d : dbId) (n : dbNet) :
  Nets block_ !! d = Some n →
  live_dbNet block_ (Some (mkObj dbNetObj d)) = Returns [] d.
Proof. intros Hd. unfold live_dbNet; cbn. unfold deref. by rewrite Hd. Qed.

(** C9, as stated, fails: connecting the output port [in_port] at Top
    reuses the boundary terminal [in_port], moves it to the net, and leaves
    its io type INPUT. *)
Lemma reused_bterm_keeps_its_types :
  let port := mkPort "in_port" dir_output None None in
  staToDb_PortDirection (port_direction port) = Returns [] (SIGNAL, OUTPUT)
  ∧ ∃ db, connect_Port demo_block (Some TopInstance) port
            (Some (mkObj dbNetObj 2))
          = Returns [] (db, Some (mkObj dbBTermObj 1))
          ∧ BTerms db !! 1
            = Some (mkBTerm "in_port" SIGNAL INPUT (Some 2) (Some 1)).
Proof.
  cbn zeta. split; [done|]. eexists. split; [vm_compute; reflexivity|].
  reflexivity.
Qed.

Lemma bterm_alter_written (block_ db : dbBlock) (f : dbBTerm → dbBTerm)
    (b : dbId) (bt : dbBTerm) :
  BTerms block_ !! b = Some bt →
  BTerms db = alter f b (BTerms block_) → ITerms db = ITerms block_ →
  bterm_written block_ db b (f bt).
Proof.
  intros Hb Htbl Hit. unfold bterm_written. rewrite Htbl.
  split; [by rewrite lookup_alter_eq, Hb|].
  split; [|done]. intros b' Hne. by rewrite lookup_alter_ne.
Qed.

(** C9, amended: at Top, [connect] with a Port creates a boundary terminal
    of the port's name on the net when there is none and gives it the
    signal and io type of the port's direction; when there is one it moves
    that terminal to the net and leaves its types as they are.  [connect]
    with a LibertyPort does the same and sets the types in both cases.
    Below Top, on a flat instance, it connects the instance's terminal for
    the port's master terminal and returns its pin; on a module instance it
    changes nothing and returns no pin. *)
Theorem connect_at_top_and_below (block_ : dbBlock) (d : dbId) (n : dbNet)
    (dir : PortDirection) (sig_type : dbSigType) (io_type : dbIoType) :
  Nets block_ !! d = Some n →
  staToDb_PortDirection dir = Returns [] (sig_type, io_type) →
  let net : Net := Some (mkObj dbNetObj d) in
  let top : StaInstance := Some TopInstance in
  (∀ name lp ext,
     block_findBTerm block_ name = None →
     let b := fresh_id (BTerms block_) in
     BTerms block_ !! b = None
     ∧ ∃ db, connect_Port block_ top (mkPort name dir lp ext) net
             = Returns [] (db, Some (mkObj dbBTermObj b))
             ∧ bterm_written block_ db b
                 (mkBTerm name sig_type io_type (Some d) None))
  ∧ (∀ name lp ext b bt,
       block_findBTerm block_ name = Some (b, bt) →
       ∃ db, connect_Port block_ top (mkPort name dir lp ext) net
             = Returns [] (db, Some (mkObj dbBTermObj b))
             ∧ bterm_written block_ db b (bterm_on bt d))
  ∧ (∀ mterms name,
       block_findBTerm block_ name = None →
       let b := fresh_id (BTerms block_) in
       ∃ db, connect_LibertyPort block_ mterms top (mkLibertyPort name dir) net
             = Returns [] (db, Some (mkObj dbBTermObj b))
             ∧ bterm_written block_ db b
                 (mkBTerm name sig_type io_type (Some d) None))
  ∧ (∀ mterms name b bt,
       block_findBTerm block_ name = Some (b, bt) →
       ∃ db, connect_LibertyPort block_ mterms top (mkLibertyPort name dir) net
             = Returns [] (db, Some (mkObj dbBTermObj b))
             ∧ bterm_written block_ db b
                 (mkBTerm (bterm_name bt) sig_type io_type (Some d)
                          (bterm_modNet bt)))
  ∧ (∀ i name lp mterm it_id it,
       inst_getITerm block_ i mterm = Some (it_id, it) →
       ∃ db, connect_Port block_ (Some (InstanceObj (mkObj dbInstObj i)))
               (mkPort name dir lp (Some mterm)) net
             = Returns [] (db, Some (mkObj dbITermObj it_id))
             ∧ iterm_written block_ db it_id (iterm_on it d))
  ∧ (∀ m port,
       connect_Port block_ (Some (InstanceObj (mkObj dbModInstObj m))) port net
       = Returns [] (block_, None)).
Proof.
  intros Hd Hdir net top. subst net top.
  pose proof (live_dbNet_flat _ _ _ Hd) as Hlive.
  split; [|split; [|split; [|split; [|split]]]].
  - intros name lp ext Hfind b. split; [apply fresh_id_None|].
    unfold connect_Port. rewrite decide_True by done. cbn [port_name].
    rewrite Hlive. cbn. rewrite Hfind. cbn. rewrite Hdir. cbn.
    eexists. split; [done|]. unfold bterm_written; cbn.
    split; [by rewrite lookup_alter_eq, lookup_insert_eq|].
    split; [|done]. intros b' Hne.
    by rewrite lookup_alter_ne, lookup_insert_ne.
  - intros name lp ext b bt Hfind.
    apply dbSet_find_Some in Hfind as Hb. destruct Hb as [Hb _].
    unfold connect_Port. rewrite decide_True by done. cbn [port_name].
    rewrite Hlive. cbn. rewrite Hfind. cbn.
    eexists. split; [done|].
    by apply (bterm_alter_written block_ _ (λ t, bterm_on t d)).
  - intros mterms name Hfind b.
    unfold connect_LibertyPort. rewrite decide_True by done.
    cbn [liberty_port_name]. rewrite Hlive. cbn. rewrite Hfind. cbn. rewrite Hdir. cbn.
    eexists. split; [done|]. unfold bterm_written; cbn.
    split; [by rewrite lookup_alter_eq, lookup_insert_eq|].
    split; [|done]. intros b' Hne.
    by rewrite lookup_alter_ne, lookup_insert_ne.
  - intros mterms name b bt Hfind.
    apply dbSet_find_Some in Hfind as Hb. destruct Hb as [Hb _].
    unfold connect_LibertyPort. rewrite decide_True by done.
    cbn [liberty_port_name]. rewrite Hlive. cbn. rewrite Hfind. cbn. rewrite Hdir. cbn.
    eexists. split; [done|]. unfold bterm_written; cbn.
    split; [by rewrite !lookup_alter_eq, Hb|].
    split; [|done]. intros b' Hne. by rewrite !lookup_alter_ne.
  - intros i name lp mterm it_id it Hfind.
    apply dbSet_find_Some in Hfind as Hi. destruct Hi as [Hi _].
    unfold connect_Port. rewrite decide_False by done. cbn.
    rewrite Hfind. cbn. unfold deref. rewrite Hd. cbn.
    eexists. split; [done|]. unfold iterm_written; cbn.
    split; [by rewrite lookup_alter_eq, Hi|].
    split; [|done]. intros i' Hne. by rewrite lookup_alter_ne.
  - intros m port. unfold connect_Port. by rewrite decide_False by done.
Qed.

Lemma connect_at_top_and_below_witness :
  (∃ db, connect_Port demo_block (Some TopInstance)
           (mkPort "new_port" dir_output None None) (Some (mkObj dbNetObj 2))
         = Returns [] (db, Some (mkObj dbBTermObj 4))
         ∧ bterm_written demo_block db 4
             (mkBTerm "new_port" SIGNAL OUTPUT (Some 2) None))
  ∧ (∃ db, connect_LibertyPort demo_block (λ _, []) (Some TopInstance)
             (mkLibertyPort "in_port" dir_output) (Some (mkObj dbNetObj 2))
           = Returns [] (db, Some (mkObj dbBTermObj 1))
           ∧ bterm_written demo_block db 1
               (mkBTerm "in_port" SIGNAL OUTPUT (Some 2) (Some 1))).
Proof.
  pose proof (connect_at_top_and_below demo_block 2 (mkNet "n2" SIGNAL)
                dir_output SIGNAL OUTPUT eq_refl eq_refl)
    as (Hcreate & _ & _ & Hreuse & _).
  split.
  - destruct (Hcreate "new_port" None None eq_refl) as [_ Hc]. exact Hc.
  - exact (Hreuse (λ _, []) "in_port" 1
             (mkBTerm "in_port" SIGNAL INPUT (Some 1) (Some 1)) eq_refl).
Defined.

(** ** The driver index *)

Lemma net_Pin_ITerm (db : dbBlock) (i : dbId) :
  net_Pin db (Some (mkObj dbITermObj i))
  = match ITerms db !! i with
    | Some it => Returns [] (net_of_iterm it)
    | None => Stops [] DeadObject
    end.
Proof.
  unfold net_Pin, net_of_iterm; cbn. unfold deref.
  destruct (ITerms db !! i) as [it|]; [|done]. cbn.
  by destruct (iterm_modNet it), (iterm_net it).
Qed.

Lemma net_Pin_not_ITerm (db : dbBlock) (typ : dbObjectType) (i : dbId)
    (w : list LogMsg) (n : dbObject) :
  typ ≠ dbITermObj → typ ≠ dbModITermObj → typ ≠ dbModBTermObj →
  net_Pin db (Some (mkObj typ i)) ≠ Returns w (Some n).
Proof. by destruct typ. Qed.

Lemma net_Pin_same_tables (db db' : dbBlock) (pin : Pin) :
  (∀ i, pin = Some (mkObj dbITermObj i) → ITerms db' !! i = ITerms db !! i) →
  ModITerms db' = ModITerms db → ModBTerms db' = ModBTerms db →
  net_Pin db' pin = net_Pin db pin.
Proof.
  intros Hit Hmi Hmb. destruct pin as [[typ i]|]; [|done].
  destruct typ; try done.
  - rewrite !net_Pin_ITerm. by rewrite Hit.
  - unfold net_Pin; cbn. by rewrite Hmi.
  - unfold net_Pin; cbn. by rewrite Hmb.
Qed.

Section DriverIndexProofs.
Context (isDriver : Pin → bool).

(** *** What an edit leaves of the connectivity *)

Lemma pins_of_table_agree {A} (typ : dbObjectType) (tbl tbl' : gmap dbId A)
    (f : A → bool) (q : Pin) :
  (∀ j, q = Some (mkObj typ j) → tbl' !! j = tbl !! j) →
  q ∈ pins_of typ (dbSet_of tbl' f).*1 ↔ q ∈ pins_of typ (dbSet_of tbl f).*1.
Proof.
  intros Hsame. rewrite !elem_of_pins_of.
  split; intros (j & -> & Hj); exists j; (split; [done|]);
    apply elem_of_dbSet_of_fst in Hj as (a & Ha & Hp);
    apply elem_of_dbSet_of_fst; exists a; split; try done.
  - by rewrite <- (Hsame j eq_refl).
  - by rewrite (Hsame j eq_refl).
Qed.

Lemma pins_of_fmap_agree {A} (typ : dbObjectType) (tbl : gmap dbId A)
    (g : A → A) (f : A → bool) (q : Pin) :
  (∀ a, f (g a) = f a) →
  q ∈ pins_of typ (dbSet_of (g <$> tbl) f).*1
  ↔ q ∈ pins_of typ (dbSet_of tbl f).*1.
Proof.
  intros Hf. rewrite !elem_of_pins_of.
  split; intros (j & -> & Hj); exists j; (split; [done|]);
    apply elem_of_dbSet_of_fst in Hj as (a & Ha & Hp);
    apply elem_of_dbSet_of_fst.
  - rewrite lookup_fmap in Ha.
    destruct (tbl !! j) as [a0|]; [|done]. injection Ha as <-.
    exists a0. by rewrite <- Hf.
  - exists (g a). rewrite lookup_fmap, Ha. by rewrite Hf.
Qed.

Lemma listed_pins_rewired (db db' : dbBlock) (p q : Pin) (n : Net) :
  rewired db db' p → q ≠ p →
  q ∈ listed_pins db' n ↔ q ∈ listed_pins db n.
Proof.
  intros (Hmi & Hmb & _ & _ & Hit & Hbt) Hq.
  unfold listed_pins, modnet_getITerms, modnet_getBTerms,
    modnet_getModBTerms, modnet_getModITerms, net_getITerms, net_getBTerms.
  rewrite Hmi, Hmb.
  destruct (staToDb_Net n) as [[d|] [m|]]; rewrite ?elem_of_app;
    rewrite ?(pins_of_table_agree dbITermObj (ITerms db) (ITerms db')),
      ?(pins_of_table_agree dbBTermObj (BTerms db) (BTerms db'));
    try done.
  all: intros j ->; by (apply Hit || apply Hbt).
Qed.

Lemma below_pin_net_same (db db' : dbBlock) (x : dbId * dbModITerm) :
  ModITerms db' = ModITerms db → ModBTerms db' = ModBTerms db →
  ModInsts db' = ModInsts db →
  below_pin_net db' x = below_pin_net db x.
Proof.
  intros Hmi Hmb Hminst. unfold below_pin_net. rewrite Hminst.
  destruct (deref (ModInsts db) (moditerm_parent x.2)) as [w1 mi|]; [|done].
  cbn -[net_Pin module_findModBTerm]. unfold module_findModBTerm.
  rewrite Hmb.
  destruct (dbSet_find (ModBTerms db) _) as [[b mb]|]; [|done].
  cbn -[net_Pin]. by rewrite (net_Pin_same_tables db db').
Qed.

Lemma above_pin_net_same (db db' : dbBlock) (x : dbId * dbModBTerm) :
  ModITerms db' = ModITerms db → ModBTerms db' = ModBTerms db →
  Modules db' = Modules db →
  above_pin_net db' x = above_pin_net db x.
Proof.
  intros Hmi Hmb Hmod. unfold above_pin_net. rewrite Hmod.
  destruct (deref (Modules db) (modbterm_parent x.2)) as [w1 md|]; [|done].
  cbn -[net_Pin modinst_findModITerm].
  destruct (nonnull (module_modInst md)) as [w2 mi|]; [|done].
  cbn -[net_Pin modinst_findModITerm]. unfold modinst_findModITerm.
  rewrite Hmi.
  destruct (dbSet_find (ModITerms db) _) as [[m mt]|]; [|done].
  cbn -[net_Pin]. by rewrite (net_Pin_same_tables db db').
Qed.

Lemma crosses_same (db db' : dbBlock) (n n' : Net) (q : Pin) :
  ModITerms db' = ModITerms db → ModBTerms db' = ModBTerms db →
  ModInsts db' = ModInsts db → Modules db' = Modules db →
  crosses db' n q n' ↔ crosses db n q n'.
Proof.
  intros Hmi Hmb Hminst Hmod. unfold crosses, modnet_getModITerms,
    modnet_getModBTerms. rewrite Hmi, Hmb.
  split; intros (m & Hm & Hc); exists m; (split; [done|]);
    destruct Hc as [(x & Hx & Hc)|(x & Hx & Hc)]; [left|right|left|right];
    exists x; (split; [done|]).
  - by rewrite <- (below_pin_net_same db db').
  - by rewrite <- (above_pin_net_same db db').
  - by rewrite (below_pin_net_same db db').
  - by rewrite (above_pin_net_same db db').
Qed.

Lemma crosses_kinds (db : dbBlock) (n n' : Net) (q : Pin) :
  crosses db n q n' →
  (∃ m, n = Some (mkObj dbModNetObj m))
  ∧ ((∃ b, q = Some (mkObj dbModBTermObj b))
     ∨ (∃ b, q = Some (mkObj dbModITermObj b)))
  ∧ ∃ o, n' = dbToSta dbModNetObj o.
Proof.
  intros (m & Hm & Hc). split.
  { exists m. destruct n as [[typ i]|]; [|done].
    destruct typ; cbn in Hm; by simplify_eq. }
  destruct Hc as [(x & _ & Hc)|(x & _ & Hc)].
  - apply below_pin_net_kinds in Hc as [Hq Hn]. split; [by left|done].
  - apply above_pin_net_kinds in Hc as [Hq Hn]. split; [by right|done].
Qed.

Lemma reached_net (db : dbBlock) (n n' : Net) :
  rtc (connects db) n n' → n' = n ∨ ∃ o, n' = dbToSta dbModNetObj o.
Proof.
  intros [->|(y & _ & [q Hc])]%rtc_inv_r; [by left|].
  right. by apply crosses_kinds in Hc as (_ & _ & ?).
Qed.

Lemma reached_flat (db : dbBlock) (n : Net) (d : dbId) :
  rtc (connects db) n (Some (mkObj dbNetObj d)) → n = Some (mkObj dbNetObj d).
Proof. intros [->|[[o|] [=]]]%reached_net. done. Qed.

Lemma from_flat (db : dbBlock) (n : Net) (d : dbId) :
  rtc (connects db) (Some (mkObj dbNetObj d)) n → n = Some (mkObj dbNetObj d).
Proof.
  intros [Heq|(y & [q Hc] & _)]%rtc_inv; [done|].
  by apply crosses_kinds in Hc as ([m [=]] & _).
Qed.

(** On a flat net the connected pins are the listed ones. *)
Lemma connected_pin_flat (db : dbBlock) (d : dbId) (q : Pin) :
  connected_pin db (Some (mkObj dbNetObj d)) q
  ↔ q ∈ listed_pins db (Some (mkObj dbNetObj d)).
Proof.
  split.
  - intros (n & ->%from_flat & [Hl|[n' Hc]]); [done|].
    by apply crosses_kinds in Hc as ([m [=]] & _).
  - intros Hl. exists (Some (mkObj dbNetObj d)). split; [done|by left].
Qed.

Lemma connected_pin_same (db db' : dbBlock) (S : Net → Prop) (Q : Pin → Prop) :
  ModITerms db' = ModITerms db → ModBTerms db' = ModBTerms db →
  ModInsts db' = ModInsts db → Modules db' = Modules db →
  (∀ n n', S n → connects db n n' → S n') →
  (∀ n q, S n → Q q → q ∈ listed_pins db' n ↔ q ∈ listed_pins db n) →
  ∀ net q, S net → Q q → connected_pin db' net q ↔ connected_pin db net q.
Proof.
  intros Hmi Hmb Hminst Hmod Hclosed Hlisted net q Hnet Hq.
  assert (∀ n n', connects db' n n' ↔ connects db n n') as Hconn.
  { intros n n'. unfold connects.
    split; intros [x Hx]; exists x; by apply (crosses_same db db'). }
  assert (∀ n, rtc (connects db') net n ↔ rtc (connects db) net n) as Hrtc.
  { intros n. split; apply rtc_subrel; intros x y; apply Hconn. }
  assert (∀ x n, rtc (connects db) x n → S x → S n) as Hreach.
  { induction 1; eauto. }
  unfold connected_pin.
  split; intros (n & Hr & Hpin); exists n.
  - apply Hrtc in Hr. split; [done|].
    destruct Hpin as [Hl|[n' Hc]]; [left; apply Hlisted; eauto|right].
    exists n'. by apply (crosses_same db db').
  - split; [by apply Hrtc|].
    destruct Hpin as [Hl|[n' Hc]]; [left; apply Hlisted; eauto|right].
    exists n'. by apply (crosses_same db db').
Qed.

Lemma rewired_connected (db db' : dbBlock) (p q : Pin) (net : Net) :
  rewired db db' p → q ≠ p →
  connected_pin db' net q ↔ connected_pin db net q.
Proof.
  intros Hre Hq.
  pose proof Hre as (Hmi & Hmb & Hminst & Hmod & _).
  apply (connected_pin_same db db' (λ _, True) (λ q, q ≠ p)); try done.
  intros n q' _ Hq'. by apply (listed_pins_rewired db db' p).
Qed.

(** A flat terminal without a module net is connected to its flat net and
    to no other net. *)
Lemma plain_connected (db : dbBlock) (i : dbId) (it : dbITerm) (n : Net) :
  ITerms db !! i = Some it → iterm_modNet it = None →
  connected_pin db n (Some (mkObj dbITermObj i))
  ↔ ∃ d, iterm_net it = Some d ∧ n = Some (mkObj dbNetObj d).
Proof.
  intros Hi Hm. split.
  - intros (n' & Hr & [Hl|[n'' Hc]]).
    + revert Hl. unfold listed_pins, modnet_getITerms, modnet_getBTerms,
        modnet_getModBTerms, modnet_getModITerms, net_getITerms,
        net_getBTerms.
      destruct n' as [[typ j]|]; [destruct typ|]; cbn [staToDb_Net
        getObjectType getId]; rewrite ?elem_of_app, ?elem_of_pins_of;
        try by intros ?%elem_of_nil.
      * intros [(k & [= <-] & Hk)|(k & [=] & _)].
        apply elem_of_dbSet_of_fst in Hk as (a & Ha & Hp).
        rewrite Hi in Ha. injection Ha as <-.
        apply bool_decide_eq_true in Hp. exists j. split; [done|].
        by apply reached_flat in Hr.
      * intros [(k & [= <-] & Hk)|[(k & [=] & _)|[(k & [=] & _)
                                                  |(k & [=] & _)]]].
        apply elem_of_dbSet_of_fst in Hk as (a & Ha & Hp).
        rewrite Hi in Ha. injection Ha as <-.
        apply bool_decide_eq_true in Hp. congruence.
    + by apply crosses_kinds in Hc as (_ & [[b [=]]|[b [=]]] & _).
  - intros (d & Hd & ->). apply connected_pin_flat.
    unfold listed_pins, net_getITerms; cbn. rewrite elem_of_app. left.
    apply elem_of_pins_of. exists i. split; [done|].
    apply elem_of_dbSet_of_fst. exists it. split; [done|].
    by apply bool_decide_eq_true.
Qed.

(** *** The edits rewire one pin *)

Lemma disconnectPin_rewired (db db' : dbBlock) (pin : Pin) (w : list LogMsg) :
  disconnectPin db pin = Returns w db' → rewired db db' pin.
Proof.
  intros Hdis.
  destruct pin as [[typ i]|]; [destruct typ|];
    unfold disconnectPin in Hdis; cbn in Hdis.
  all: try (injection Hdis as <- <-; by repeat split).
  - unfold deref in Hdis. destruct (ITerms db !! i) as [it|]; [|done].
    cbn in Hdis. injection Hdis as <- <-. repeat split; try done.
    intros j Hj. cbn. rewrite lookup_alter_ne; [done|congruence].
  - unfold deref in Hdis. destruct (BTerms db !! i) as [bt|]; [|done].
    cbn in Hdis. injection Hdis as <- <-. repeat split; try done.
    intros j Hj. cbn. rewrite lookup_alter_ne; [done|congruence].
Qed.

Lemma live_dbNet_Returns (db : dbBlock) (net : Net) (w : list LogMsg)
    (d : dbId) :
  live_dbNet db net = Returns w d →
  net = Some (mkObj dbNetObj d) ∧ is_Some (Nets db !! d).
Proof.
  destruct net as [[typ i]|]; [|done]. destruct typ; try done.
  unfold live_dbNet; cbn. unfold deref.
  destruct (Nets db !! i) eqn:Hl; [|done]. cbn. intros [= <- <-]. eauto.
Qed.

Lemma disconnectPin_other (db db' : dbBlock) (pin : Pin) (w : list LogMsg) :
  is_terminal pin = false → disconnectPin db pin = Returns w db' → db' = db.
Proof.
  destruct pin as [[typ i]|]; [destruct typ|]; try discriminate;
    unfold disconnectPin; cbn; by intros _ [= _ ->].
Qed.

Lemma connect_Port_outcome (db db' : dbBlock) (inst : StaInstance)
    (port : ConcretePort) (net : Net) (pin : Pin) (w : list LogMsg) :
  connect_Port db inst port net = Returns w (db', pin) →
  rewired db db' pin
  ∧ (is_terminal pin = false → db' = db)
  ∧ ∀ i, pin = Some (mkObj dbITermObj i) →
         ∃ d it, db' = dbITerm_connect db i d ∧ ITerms db !! i = Some it.
Proof.
  unfold connect_Port. case_decide as Htop.
  - destruct (live_dbNet db net) as [wn d|]; [|done]. cbn.
    destruct (block_findBTerm db (port_name port)) as [[b bt]|] eqn:Hfind.
    + cbn. intros [= <- <- <-]. split; [|done]. repeat split; try done.
      intros j Hj. cbn. rewrite lookup_alter_ne; [done|congruence].
    + destruct (staToDb_PortDirection (port_direction port))
        as [wd [sig_type io_type]|]; [|done].
      cbn. intros [= <- <- <-]. split; [|done]. repeat split; try done.
      intros j Hj. cbn. rewrite lookup_alter_ne by congruence.
      rewrite lookup_insert_ne; [done|congruence].
  - destruct (staToDb_Instance inst) as [wi [[i|] mod_inst]|]; [| |done];
      cbn; [|intros [= <- <- <-]; split; [by repeat split|done]].
    destruct (nonnull (port_extPort port)) as [w1 dterm|]; [|done]. cbn.
    destruct (inst_getITerm db i dterm) as [[j it]|] eqn:Hfind; [|done].
    cbn. destruct (live_dbNet db net) as [wn d|]; [|done]. cbn.
    intros [= <- <- <-]. split; [|split; [done|]].
    + repeat split; try done.
      intros k Hk. cbn. rewrite lookup_alter_ne; [done|congruence].
    + intros k [= <-]. exists d, it. split; [done|].
      by apply dbSet_find_Some in Hfind as [? _].
Qed.

Lemma listed_pins_destroy (db : dbBlock) (d : dbId) (n : Net) (q : Pin) :
  n ≠ Some (mkObj dbNetObj d) →
  q ∈ listed_pins (dbNet_destroy db d) n ↔ q ∈ listed_pins db n.
Proof.
  intros Hn. unfold listed_pins, modnet_getITerms, modnet_getBTerms,
    modnet_getModBTerms, modnet_getModITerms, net_getITerms, net_getBTerms.
  destruct n as [[typ i]|]; [destruct typ|];
    cbn [staToDb_Net getObjectType getId]; try done.
  - cbn [ITerms BTerms dbNet_destroy]. rewrite !elem_of_app.
    rewrite (pins_of_fmap_agree dbITermObj), (pins_of_fmap_agree dbBTermObj);
      [done| |]; intros a; cbn; unfold unlink, same;
      repeat case_bool_decide; congruence.
  - cbn [ITerms BTerms ModITerms ModBTerms dbNet_destroy].
    rewrite !elem_of_app.
    by rewrite (pins_of_fmap_agree dbITermObj),
      (pins_of_fmap_agree dbBTermObj).
Qed.

(** *** What the hooks do to an entry *)

Lemma disconnectPinBefore_lookup (db : dbBlock) (idx idx' : NetDrvrPinMap)
    (pin : Pin) (w : list LogMsg) :
  disconnectPinBefore isDriver db idx pin = Returns w idx' →
  ∃ w0 net0,
    net_Pin db pin = Returns w0 net0
    ∧ ∀ n, idx' !! n
           = (λ drvrs,
                if decide (n = net0 ∧ is_Some net0 ∧ isDriver pin = true)
                then drvrs ∖ {[pin]} else drvrs) <$> idx !! n.
Proof.
  unfold disconnectPinBefore.
  destruct (net_Pin db pin) as [w0 net0|] eqn:Hnet; [|done]. cbn.
  intros H. exists w0, net0. split; [done|]. intros n. revert H.
  destruct (bool_decide (is_Some net0) && isDriver pin) eqn:Hc.
  - apply andb_prop in Hc as [Hs%bool_decide_eq_true Hd].
    destruct (idx !! net0) as [drvrs0|] eqn:Hl; cbn; intros [= <- <-].
    + destruct (decide (n = net0)) as [->|Hne].
      * rewrite lookup_insert_eq, Hl. cbn [fmap option_fmap option_map].
        by rewrite decide_True.
      * rewrite lookup_insert_ne by done. destruct (idx !! n); [|done].
        cbn [fmap option_fmap option_map].
        rewrite decide_False; [done|tauto].
    + destruct (decide (n = net0)) as [->|Hne]; [by rewrite Hl|].
      destruct (idx !! n); [|done].
      cbn [fmap option_fmap option_map]. rewrite decide_False; [done|tauto].
  - cbn. intros [= <- <-]. destruct (idx !! n); [|done].
    cbn [fmap option_fmap option_map].
    rewrite decide_False; [done|]. intros (_ & Hs & Hd).
    apply andb_false_iff in Hc as [Hc|Hc];
      [by apply bool_decide_eq_false in Hc|congruence].
Qed.

Lemma connectPinAfter_lookup (db : dbBlock) (idx idx' : NetDrvrPinMap)
    (pin : Pin) (w : list LogMsg) :
  connectPinAfter isDriver db idx pin = Returns w idx' →
  (isDriver pin = false ∧ idx' = idx)
  ∨ (isDriver pin = true
     ∧ ∃ w0 net0,
         net_Pin db pin = Returns w0 net0
         ∧ ∀ n, idx' !! n
                = (λ drvrs, if decide (n = net0) then {[pin]} ∪ drvrs
                            else drvrs) <$> idx !! n).
Proof.
  unfold connectPinAfter. destruct (isDriver pin) eqn:Hd;
    [|intros [= <- <-]; by left].
  destruct (net_Pin db pin) as [w0 net0|] eqn:Hnet; [|done]. cbn.
  intros H. right. split; [done|]. exists w0, net0. split; [done|].
  intros n. revert H.
  destruct (idx !! net0) as [drvrs0|] eqn:Hl; cbn; intros [= <- <-].
  - destruct (decide (n = net0)) as [->|Hne].
    + by rewrite lookup_insert_eq, Hl.
    + rewrite lookup_insert_ne by done. by destruct (idx !! n).
  - destruct (decide (n = net0)) as [->|Hne]; [by rewrite Hl|].
    by destruct (idx !! n).
Qed.

Lemma dom_of_lookups (idx idx' : NetDrvrPinMap) :
  (∀ n, is_Some (idx' !! n) → is_Some (idx !! n)) → dom idx' ⊆ dom idx.
Proof. intros H n Hn%elem_of_dom. apply elem_of_dom. auto. Qed.

(** *** One edit *)

Lemma consistent_rewired (st : NetworkState) (db' : dbBlock)
    (idx' : NetDrvrPinMap) (p : Pin) :
  index_consistent isDriver st →
  rewired (st_block st) db' p →
  (∀ n drvrs', idx' !! Some n = Some drvrs' →
     ∃ drvrs, st_drivers st !! Some n = Some drvrs
              ∧ (∀ q, q ≠ p → q ∈ drvrs' ↔ q ∈ drvrs)
              ∧ (p ∈ drvrs' ↔ drives isDriver db' (Some n) p)) →
  index_consistent isDriver (mkState db' idx').
Proof.
  intros Hcons Hre Hent n drvrs' Hl q. cbn [st_block st_drivers] in *.
  destruct (Hent _ _ Hl) as (drvrs & Hl0 & Hother & Hp).
  destruct (decide (q = p)) as [->|Hq]; [done|].
  rewrite (Hother q Hq), (Hcons _ _ Hl0). unfold drives.
  by rewrite (rewired_connected _ _ p q _ Hre Hq).
Qed.

Lemma routed_disconnect_consistent (st st' : NetworkState) (pin : Pin)
    (w : list LogMsg) :
  index_consistent isDriver st →
  plain_pin isDriver (st_block st) pin →
  routed_disconnect isDriver st pin = Returns w st' →
  index_consistent isDriver st'
  ∧ dom (st_drivers st') ⊆ dom (st_drivers st).
Proof.
  destruct st as [db idx]. cbn [st_block st_drivers].
  intros Hcons Hplain. unfold routed_disconnect. cbn [st_block st_drivers].
  destruct (is_terminal pin) eqn:Hterm.
  2:{ cbn. destruct (disconnectPin db pin) as [w2 db2|] eqn:Hdis; [|done].
      cbn. intros [= <- <-].
      by apply (disconnectPin_other _ _ _ _ Hterm) in Hdis as ->. }
  destruct (disconnectPinBefore isDriver db idx pin)
    as [w1 idx1|] eqn:Hbefore; [|done]. cbn.
  destruct (disconnectPin db pin) as [w2 db2|] eqn:Hdis; [|done].
  cbn. intros [= <- <-]. cbn [st_block st_drivers].
  apply disconnectPinBefore_lookup in Hbefore
    as (w0 & net0 & Hnet0 & Hlook).
  pose proof (disconnectPin_rewired _ _ _ _ Hdis) as Hre.
  split; [|apply dom_of_lookups; intros n; rewrite Hlook;
           apply fmap_is_Some].
  apply (consistent_rewired (mkState db idx) db2 idx1 pin); try done.
  cbn [st_block st_drivers]. intros n drvrs' Hl. rewrite Hlook in Hl.
  destruct (idx !! Some n) as [drvrs|] eqn:Hl0; [|done].
  cbn in Hl. injection Hl as <-. exists drvrs. split; [done|]. split.
  { intros q Hq. destruct (decide _); [|done].
    rewrite elem_of_difference, elem_of_singleton. tauto. }
  destruct (decide (isDriver pin = true)) as [Hd|Hnd%not_true_is_false].
  - destruct (Hplain Hd) as [Hnb Hit].
    destruct pin as [[typ i]|]; [destruct typ|]; try discriminate Hterm;
      [|by destruct (Hnb i)].
    unfold disconnectPin, deref in Hdis. cbn in Hdis.
    destruct (ITerms db !! i) as [it|] eqn:Hi; [|done].
    pose proof (Hit i it eq_refl Hi) as Hm.
    cbn in Hdis. injection Hdis as <- <-.
    assert (∀ n', ¬ connected_pin (dbITerm_disconnect db i) n'
                      (Some (mkObj dbITermObj i))) as Hoff.
    { intros n' Hconn.
      apply (plain_connected (dbITerm_disconnect db i) i
               (mkITerm (iterm_inst it) (iterm_mterm it) (iterm_sigType it)
                  (iterm_ioType it) None None)) in Hconn;
        [by destruct Hconn as (d & [=] & _)
        |by cbn; rewrite lookup_alter_eq, Hi|done]. }
    split; [|by intros [_ ?%Hoff]].
    intros Hin. exfalso.
    destruct (decide _) as [Hc|Hc];
      [apply elem_of_difference in Hin as [_ Hin];
       by apply Hin, elem_of_singleton|].
    apply (Hcons _ _ Hl0) in Hin as [_ Hconn]. cbn [st_block] in Hconn.
    apply (plain_connected _ _ _ _ Hi Hm) in Hconn as (d & Hd' & Hn).
    apply Hc. rewrite net_Pin_ITerm, Hi in Hnet0. injection Hnet0 as <- <-.
    unfold net_of_iterm. rewrite Hm, Hd'. cbn.
    split; [done|]. split; [by eexists|done].
  - rewrite decide_False by (intros (_ & _ & ?); congruence).
    rewrite (Hcons _ _ Hl0). unfold drives; cbn [st_block]. rewrite Hnd.
    naive_solver.
Qed.

Lemma routed_connect_consistent (st st' : NetworkState) (inst : StaInstance)
    (port : ConcretePort) (net : Net) (w : list LogMsg) :
  index_consistent isDriver st →
  edit_plain isDriver (st_block st) (EditConnect inst port net) →
  routed_connect isDriver st inst port net = Returns w st' →
  index_consistent isDriver st'
  ∧ dom (st_drivers st') ⊆ dom (st_drivers st).
Proof.
  destruct st as [db idx]. cbn [st_block st_drivers edit_plain].
  intros Hcons Hplain. unfold routed_connect. cbn [st_block st_drivers].
  destruct (connect_Port db inst port net) as [wc [db' pin]|] eqn:Hc;
    [|done].
  specialize (Hplain _ _ _ eq_refl).
  apply connect_Port_outcome in Hc as (Hre & Hother & Hiterm).
  cbn -[connectPinAfter disconnectPinBefore on_flat_net is_terminal].
  destruct (is_terminal pin) eqn:Hterm.
  2:{ cbn. intros [= <- <-]. by rewrite (Hother eq_refl). }
  destruct (if on_flat_net db pin then _ else _) as [w1 idx1|] eqn:Hfirst;
    [|done].
  cbn -[connectPinAfter].
  destruct (connectPinAfter isDriver db' idx1 pin) as [w2 idx2|] eqn:Hafter;
    [|done].
  cbn. intros [= <- <-]. cbn [st_block st_drivers].
  assert (∃ wb net0,
            (on_flat_net db pin = true → net_Pin db pin = Returns wb net0)
            ∧ ∀ n, idx1 !! n
                   = (λ drvrs,
                        if decide (on_flat_net db pin = true ∧ n = net0
                                   ∧ is_Some net0 ∧ isDriver pin = true)
                        then drvrs ∖ {[pin]} else drvrs) <$> idx !! n)
    as (wb & net0 & Hnet0 & Hlook1).
  { destruct (on_flat_net db pin).
    - apply disconnectPinBefore_lookup in Hfirst as (wb & net0 & Hn & Hl).
      exists wb, net0. split; [done|]. intros n. rewrite Hl.
      destruct (idx !! n); [|done]. cbn [fmap option_fmap option_map].
      f_equal. apply decide_ext. naive_solver.
    - injection Hfirst as <- <-. exists [], None. split; [done|]. intros n.
      destruct (idx !! n); [|done]. cbn.
      rewrite decide_False; [done|]. by intros [[=] _]. }
  clear Hfirst. apply connectPinAfter_lookup in Hafter.
  split.
  2:{ apply dom_of_lookups. intros n Hs.
      destruct Hafter as [[_ ->]|(_ & wa & neta & _ & Hl2)];
        [|rewrite Hl2 in Hs; apply fmap_is_Some in Hs];
        rewrite Hlook1 in Hs; by apply fmap_is_Some in Hs. }
  apply (consistent_rewired (mkState db idx) db' idx2 pin); try done.
  cbn [st_block st_drivers]. intros n drvrs' Hl.
  destruct Hafter as [[Hnd ->]|(Hd & wa & neta & Hneta & Hl2)].
  - rewrite Hlook1 in Hl.
    destruct (idx !! Some n) as [drvrs|] eqn:Hl0; [|done]. cbn in Hl.
    rewrite decide_False in Hl by (intros (_ & _ & _ & ?); congruence).
    injection Hl as <-. exists drvrs. split; [done|]. split; [done|].
    rewrite (Hcons _ _ Hl0). unfold drives; cbn [st_block]. rewrite Hnd.
    naive_solver.
  - destruct (Hplain Hd) as [Hnb Hit].
    destruct pin as [[typ i]|]; [destruct typ|]; try discriminate Hterm;
      [|by destruct (Hnb i)].
    destruct (Hiterm i eq_refl) as (d0 & it & -> & Hi).
    pose proof (Hit i it eq_refl Hi) as Hm.
    rewrite net_Pin_ITerm in Hneta. cbn in Hneta.
    rewrite lookup_alter_eq, Hi in Hneta. cbn in Hneta.
    unfold net_of_iterm in Hneta; cbn in Hneta. rewrite Hm in Hneta.
    cbn in Hneta. injection Hneta as <- <-.
    rewrite Hl2, Hlook1 in Hl.
    destruct (idx !! Some n) as [drvrs|] eqn:Hl0; [|done].
    cbn in Hl. injection Hl as <-. exists drvrs. split; [done|]. split.
    { intros q Hq.
      destruct (decide (Some n = _)); destruct (decide _);
        rewrite ?elem_of_union, ?elem_of_difference, ?elem_of_singleton;
        tauto. }
    unfold drives. rewrite Hd.
    rewrite (plain_connected (dbITerm_connect db i d0) i
               (mkITerm (iterm_inst it) (iterm_mterm it) (iterm_sigType it)
                  (iterm_ioType it) (Some d0) (iterm_modNet it)));
      [|by cbn; rewrite lookup_alter_eq, Hi|done].
    cbn [iterm_net]. split.
    + intros Hin. split; [done|]. exists d0. split; [done|].
      destruct (decide (Some n = _)) as [Hn0|Hn0]; [done|]. exfalso.
      destruct (decide _) as [Hc1|Hc1];
        [apply elem_of_difference in Hin as [_ Hin];
         by apply Hin, elem_of_singleton|].
      apply (Hcons _ _ Hl0) in Hin as [_ Hconn]. cbn [st_block] in Hconn.
      apply (plain_connected _ _ _ _ Hi Hm) in Hconn as (d & Hd' & Hn).
      assert (on_flat_net db (Some (mkObj dbITermObj i)) = true) as Hon.
      { unfold on_flat_net; cbn. rewrite Hi, Hd'.
        by apply bool_decide_eq_true. }
      apply Hc1. specialize (Hnet0 Hon).
      rewrite net_Pin_ITerm, Hi in Hnet0. injection Hnet0 as <- <-.
      unfold net_of_iterm. rewrite Hm, Hd'. cbn.
      split; [done|]. split; [done|]. split; [by eexists|done].
    + intros [_ (d & Hd2 & Hn)]. simplify_eq.
      rewrite decide_True by done.
      apply elem_of_union. left. by apply elem_of_singleton.
Qed.

Lemma deleteNet_consistent (st : NetworkState) (db' : dbBlock)
    (idx' : NetDrvrPinMap) (net : Net) (w : list LogMsg) :
  index_consistent isDriver st →
  deleteNet (st_block st) (st_drivers st) net = Returns w (db', idx') →
  index_consistent isDriver (mkState db' idx')
  ∧ dom idx' ⊆ dom (st_drivers st)
  ∧ idx' !! net = None.
Proof.
  intros Hcons. unfold deleteNet, deleteNetBefore.
  destruct (live_dbNet (st_block st) net) as [wn d|] eqn:Hlive; [|done].
  cbn. intros [= <- <- <-]. apply live_dbNet_Returns in Hlive as [-> _].
  split; [|split; [rewrite dom_delete; set_solver|apply lookup_delete_eq]].
  intros n drvrs Hentry q. cbn [st_block st_drivers] in *.
  destruct (decide (n = mkObj dbNetObj d)) as [->|Hne];
    [by rewrite lookup_delete_eq in Hentry|].
  rewrite lookup_delete_ne in Hentry by congruence.
  rewrite (Hcons _ _ Hentry). unfold drives.
  rewrite (connected_pin_same (st_block st) (dbNet_destroy (st_block st) d)
             (λ n, n ≠ Some (mkObj dbNetObj d)) (λ _, True)); try done.
  - intros n1 n2 _ [x Hx].
    apply crosses_kinds in Hx as (_ & _ & [o ->]). by destruct o.
  - intros n1 q1 Hn1 _. by apply listed_pins_destroy.
  - congruence.
Qed.

Lemma routed_edit_consistent (st st' : NetworkState) (e : Edit)
    (w : list LogMsg) :
  index_consistent isDriver st →
  edit_plain isDriver (st_block st) e →
  routed_edit isDriver st e = Returns w st' →
  index_consistent isDriver st'
  ∧ dom (st_drivers st') ⊆ dom (st_drivers st)
  ∧ ∀ net, e = EditDeleteNet net → st_drivers st' !! net = None.
Proof.
  intros Hcons Hplain. destruct e as [inst port net|pin|net]; cbn.
  - intros Hr.
    destruct (routed_connect_consistent _ _ _ _ _ _ Hcons Hplain Hr).
    split; [done|]. split; [done|]. intros net' Heq. discriminate Heq.
  - intros Hr.
    destruct (routed_disconnect_consistent _ _ _ _ Hcons Hplain Hr).
    split; [done|]. split; [done|]. intros net' Heq. discriminate Heq.
  - destruct (deleteNet (st_block st) (st_drivers st) net)
      as [w1 [db1 idx1]|] eqn:Hdel; [|done].
    cbn. intros [= <- <-].
    destruct (deleteNet_consistent _ _ _ _ _ Hcons Hdel) as (? & ? & ?).
    split; [done|]. split; [done|]. by intros net' [= <-].
Qed.

Lemma routed_edits_consistent (es : list Edit) (st st' : NetworkState)
    (w : list LogMsg) :
  index_consistent isDriver st →
  edits_plain isDriver st es →
  routed_edits isDriver st es = Returns w st' →
  index_consistent isDriver st'
  ∧ dom (st_drivers st') ⊆ dom (st_drivers st)
  ∧ ∀ net, EditDeleteNet net ∈ es → st_drivers st' !! net = None.
Proof.
  revert st w. induction es as [|e es IH]; intros st w Hcons Hplain; cbn.
  - intros [= <- <-]. split; [done|]. split; [done|].
    by intros net ?%elem_of_nil.
  - destruct Hplain as [Hp Hrest].
    destruct (routed_edit isDriver st e) as [w1 st1|] eqn:He; [|done].
    destruct (routed_edit_consistent _ _ _ _ Hcons Hp He)
      as (Hc1 & Hd1 & Hx1).
    cbn. destruct (routed_edits isDriver st1 es) as [w2 st2|] eqn:Hes;
      [|done].
    cbn. intros [= <- <-].
    destruct (IH _ _ Hc1 (Hrest _ _ eq_refl) Hes) as (Hc2 & Hd2 & Hx2).
    split; [done|]. split; [set_solver|].
    intros net [Heq|Hin]%elem_of_cons; [|auto].
    apply not_elem_of_dom. specialize (Hx1 net (eq_sym Heq)).
    apply not_elem_of_dom in Hx1. set_solver.
Qed.
End DriverIndexProofs.

(** C6, as stated, fails, in two ways.  The hooks never make an entry: with
    no entry for the flat net [top_net], connecting the driver [sub/g1.Z]
    to it leaves the index without one, although the net is there and the
    pin drives it.  And an exact entry does not stay exact: the hooks find
    the entry to update through [net(pin)], which is null for a boundary
    terminal and the module net for a flat terminal that has one.  So
    disconnecting the input port [in_port], or the output of [u1], leaves
    the index as it was, with the pin in the entry of [top_net], although
    the pin is on no net any more; and connecting either of them to [n2]
    leaves the index as it was, with the entry of [n2] lacking the pin. *)
Lemma driver_index_misses_and_goes_stale :
  let top_net : Net := Some (mkObj dbNetObj 1) in
  let n2 : Net := Some (mkObj dbNetObj 2) in
  let in_port : Pin := Some (mkObj dbBTermObj 1) in
  let u1_Z : Pin := Some (mkObj dbITermObj 4) in
  let st1 := mkState demo_block demo_index_top in
  let st2 := mkState demo_block demo_index in
  (∃ st, routed_edits demo_isDriver (mkState demo_block ∅)
           [EditConnect (Some (InstanceObj (mkObj dbInstObj 1))) demo_port_Z
                        top_net] = Returns [] st
         ∧ is_Some (Nets (st_block st) !! 1)
         ∧ drives demo_isDriver (st_block st) top_net
             (Some (mkObj dbITermObj 2))
         ∧ st_drivers st !! top_net = None)
  ∧ index_consistent demo_isDriver_ports st1
  ∧ (∀ pin, pin = in_port ∨ pin = u1_Z →
       ∃ st, routed_edits demo_isDriver_ports st1 [EditDisconnect pin]
             = Returns [] st
             ∧ st_drivers st = demo_index_top
             ∧ pin ∈ ({[ u1_Z; in_port ]} : gset Pin)
             ∧ ¬ drives demo_isDriver_ports (st_block st) top_net pin)
  ∧ index_consistent demo_isDriver_ports st2
  ∧ (∀ inst port pin,
       (inst, port, pin)
       = (Some TopInstance, mkPort "in_port" dir_input None None, in_port)
       ∨ (inst, port, pin)
         = (Some (InstanceObj (mkObj dbInstObj 2)), demo_port_Z, u1_Z) →
       ∃ st, routed_edits demo_isDriver_ports st2 [EditConnect inst port n2]
             = Returns [] st
             ∧ st_drivers st = demo_index
             ∧ (pin ∉ ({[ Some (mkObj dbITermObj 2) ]} : gset Pin))
             ∧ drives demo_isDriver_ports (st_block st) n2 pin).
Proof.
  cbn zeta. split; [|split; [|split; [|split]]].
  - eexists. split; [vm_compute; reflexivity|].
    split; [by eexists|]. split; [|done].
    split; [reflexivity|]. apply connected_pin_flat. compute_done.
  - intros n drvrs Hentry q. cbn [st_drivers st_block] in *.
    unfold demo_index_top in Hentry.
    apply lookup_singleton_Some in Hentry as [[= <-] <-].
    unfold drives. rewrite connected_pin_flat. split.
    + intros [->%elem_of_singleton| ->%elem_of_singleton]%elem_of_union;
        split; compute_done.
    + intros [[->|[->| ->]]%bool_decide_eq_true Hl];
        [exfalso; revert Hl|..]; compute_done.
  - intros pin [->| ->]; (eexists; split; [vm_compute; reflexivity|]);
      (split; [by vm_compute|]); (split; [compute_done|]);
      intros [_ Hl%connected_pin_flat]; revert Hl; compute_done.
  - intros n drvrs Hentry q. cbn [st_drivers st_block] in *.
    unfold demo_index in Hentry.
    apply lookup_singleton_Some in Hentry as [[= <-] <-].
    unfold drives. rewrite connected_pin_flat, elem_of_singleton. split.
    + intros ->. split; compute_done.
    + intros [[->|[->| ->]]%bool_decide_eq_true Hl]; [done|..];
        exfalso; revert Hl; compute_done.
  - intros inst port pin [[= -> -> ->]|[= -> -> ->]];
      (eexists; split; [vm_compute; reflexivity|]);
      (split; [by vm_compute|]); (split; [compute_done|]);
      (split; [compute_done|]); apply connected_pin_flat; compute_done.
Qed.

(** C6, amended: let every entry of the index hold exactly the driver pins
    connected to the entry's net, and let a sequence of connect, disconnect
    and deleteNet edits be routed through the hooks, none of which
    connects or disconnects a driver that is a boundary terminal or a flat
    terminal with a module net.  Then every entry still holds exactly the
    driver pins connected to its net; the hooks add no entry (a net without
    one stays without one until the timing engine asks for its drivers);
    and the entry of a deleted net is gone, so a net made later under that
    handle has no drivers on record. *)
Theorem driver_index_entries_stay_exact (isDriver : Pin → bool)
    (st st' : NetworkState) (es : list Edit) (w : list LogMsg) :
  index_consistent isDriver st →
  edits_plain isDriver st es →
  routed_edits isDriver st es = Returns w st' →
  index_consistent isDriver st'
  ∧ dom (st_drivers st') ⊆ dom (st_drivers st)
  ∧ ∀ net, EditDeleteNet net ∈ es → st_drivers st' !! net = None.
Proof. by apply routed_edits_consistent. Qed.

Lemma demo_index_consistent :
  index_consistent demo_isDriver (mkState demo_block demo_index).
Proof.
  intros n drvrs Hentry q. cbn [st_drivers st_block] in *.
  unfold demo_index in Hentry.
  apply lookup_singleton_Some in Hentry as [[= <-] <-].
  rewrite elem_of_singleton. unfold drives. rewrite connected_pin_flat.
  split.
  - intros ->. split; compute_done.
  - intros [[->| ->]%bool_decide_eq_true Hl]; [done|].
    exfalso. revert Hl. compute_done.
Qed.

Local Ltac plain_by_table :=
  let Hi := fresh "Hi" in
  intros _; split; [done|];
  intros ? ? [= <-] Hi; vm_compute in Hi; by injection Hi as <-.

Local Ltac after_edit :=
  let w := fresh "w" in
  let st := fresh "st" in
  let H := fresh "H" in
  intros w st H; vm_compute in H; injection H as <- <-;
  cbn [edits_plain edit_plain st_block]; split.

Local Ltac connected_pin_is :=
  let w := fresh "w" in
  let db := fresh "db" in
  let pin := fresh "pin" in
  let H := fresh "H" in
  intros w db pin H; vm_compute in H; injection H as <- <- <-.

Lemma demo_edits_plain :
  edits_plain demo_isDriver (mkState demo_block demo_index) demo_edits.
Proof.
  unfold demo_edits. cbn [edits_plain edit_plain st_block]. split.
  { plain_by_table. }
  after_edit. { connected_pin_is. plain_by_table. }
  after_edit. { connected_pin_is. plain_by_table. }
  after_edit. { connected_pin_is. intros Hd. by vm_compute in Hd. }
  after_edit; [done|]. by intros w st H.
Qed.

Lemma driver_index_entries_stay_exact_witness :
  ∃ st', routed_edits demo_isDriver (mkState demo_block demo_index) demo_edits
         = Returns [] st'
         ∧ index_consistent demo_isDriver st'
         ∧ dom (st_drivers st') ⊆ dom demo_index
         ∧ ∀ net, EditDeleteNet net ∈ demo_edits →
                  st_drivers st' !! net = None.
Proof.
  assert (∃ st', routed_edits demo_isDriver (mkState demo_block demo_index)
                   demo_edits = Returns [] st') as [st' Hrun]
    by (eexists; vm_compute; reflexivity).
  exists st'. split; [exact Hrun|].
  exact (driver_index_entries_stay_exact demo_isDriver _ st' demo_edits []
           demo_index_consistent demo_edits_plain Hrun).
Defined.

(** End-to-end scenario 2 of the design, on an index that has the entry:
    after the driver moved to [top_net] and back, the entry of [n2] holds
    it again. *)
Example demo_edits_result :
  ∃ st', routed_edits demo_isDriver (mkState demo_block demo_index) demo_edits
         = Returns [] st'
         ∧ st_drivers st' !! Some (mkObj dbNetObj 2)
           = Some {[ Some (mkObj dbITermObj 2) ]}.
Proof.
  eexists. split; [vm_compute; reflexivity|]. by vm_compute.
Qed.

(** * More properties of the adapter *)

Ltac run := unfold mbind, Outcome_bind, bind, mret, Outcome_ret, ret.

(** ** Directions *)

(** X1: a direction made from a signal-type/IO-type pair is always one the
    adapter can turn back into a pair, and that pair gives the same
    direction again.  The other way, [staToDb] of a direction either ends in
    critical message 2007, exactly for tristate, internal and unknown, or
    returns a pair from which [dbToSta] rebuilds the direction. *)
Theorem port_direction_round_trip :
  (∀ sig_type io_type, ∃ sig' io',
     staToDb_PortDirection (dbToSta_PortDirection sig_type io_type)
     = Returns [] (sig', io')
     ∧ dbToSta_PortDirection sig' io'
       = dbToSta_PortDirection sig_type io_type)
  ∧ (∀ dir,
       ((dir ∈ [dir_tristate; dir_internal; dir_unknown])
        ∧ staToDb_PortDirection dir = Stops [] (LoggedCritical 2007))
       ∨ ((dir ∉ [dir_tristate; dir_internal; dir_unknown])
          ∧ ∃ sig_type io_type,
              staToDb_PortDirection dir = Returns [] (sig_type, io_type)
              ∧ dbToSta_PortDirection sig_type io_type = dir)).
Proof.
  split.
  - intros [] []; cbn; eauto.
  - intros []; cbn; first [left; split; [set_solver|done]
                          | right; split; [set_solver|eauto]].
Qed.

(** ** Identifiers *)

(** X2: an identifier the encoder returns can be taken apart again: the
    bits above the tag width are the database id and the bits below are the
    tag of the kind. *)
Theorem object_id_decodes (s : IdScheme) (typ : dbObjectType) (i a : N)
    (w : list LogMsg) :
  scheme_ok s →
  getDbNwkObjectId s typ i = Returns w a →
  N.shiftr a (DBIDTAG_WIDTH s) = i
  ∧ tag_of s typ = Some (N.land a (N.ones (DBIDTAG_WIDTH s))).
Proof.
  intros Hs Hr.
  destruct (getDbNwkObjectId_Returns s typ i a w Hs Hr) as (tag & Htag & ->).
  pose proof (tag_fits s Hs typ tag Htag) as Hlt.
  assert (2 ^ DBIDTAG_WIDTH s ≠ 0) as Hnz by (apply N.pow_nonzero; lia).
  split.
  - rewrite N.shiftr_div_pow2, N.div_add_l by done.
    rewrite N.div_small by done. lia.
  - rewrite N.land_ones, N.add_comm, N.Div0.mod_add.
    by rewrite N.mod_small.
Qed.

Lemma object_id_decodes_witness :
  N.shiftr 83 (DBIDTAG_WIDTH header_scheme) = 5
  ∧ tag_of header_scheme dbNetObj
    = Some (N.land 83 (N.ones (DBIDTAG_WIDTH header_scheme))).
Proof.
  apply (object_id_decodes header_scheme dbNetObj 5 83 []).
  - unfold scheme_ok. cbn. split; [lia|]. split; [lia|]. split.
    + apply NoDup_ListNoDup. repeat constructor; cbn; intuition lia.
    + repeat constructor; cbn; lia.
  - reflexivity.
Defined.

(** ** The term iterator *)

Lemma term_iterator_drains (fuel : nat) (bs ms : list dbId) :
  (length bs + length ms < fuel)%nat →
  iterate DbNetTermIterator_hasNext (DbNetTermIterator_next true) fuel
          (mkNetTermIter bs ms)
  = pins_of dbBTermObj bs ++ pins_of dbModBTermObj ms.
Proof.
  revert fuel. induction bs as [|b bs IH]; intros fuel Hfuel.
  - revert fuel Hfuel. induction ms as [|m ms IHm]; intros fuel Hfuel.
    + destruct fuel; [cbn in Hfuel; lia|done].
    + destruct fuel; [cbn in Hfuel; lia|]. cbn. f_equal.
      apply IHm. simpl in *. lia.
  - destruct fuel; [cbn in Hfuel; lia|]. cbn.
    destruct ms; cbn; f_equal; apply IH; simpl in *; lia.
Qed.

Lemma term_iterator_flat_drains (hierarchy_ : bool) (fuel : nat)
    (bs : list dbId) :
  (length bs < fuel)%nat →
  iterate DbNetTermIterator_hasNext (DbNetTermIterator_next hierarchy_) fuel
          (mkNetTermIter bs [])
  = pins_of dbBTermObj bs.
Proof.
  revert fuel. induction bs as [|b bs IH]; intros fuel Hfuel.
  - destruct fuel; [cbn in Hfuel; lia|done].
  - destruct fuel; [cbn in Hfuel; lia|]. cbn. f_equal.
    apply IH. simpl in *. lia.
Qed.

Lemma term_iterator_stuck (fuel : nat) (bs ms : list dbId) :
  ms ≠ [] →
  iterate DbNetTermIterator_hasNext (DbNetTermIterator_next false) fuel
          (mkNetTermIter bs ms)
  = pins_of dbBTermObj (take fuel bs) ++ replicate (fuel - length bs) None.
Proof.
  intros Hms. revert bs. induction fuel as [|fuel IH]; intros bs; [done|].
  destruct ms as [|m ms]; [done|].
  destruct bs as [|b bs].
  - cbn. f_equal. rewrite (IH []). by rewrite take_nil, Nat.sub_0_r.
  - cbn. f_equal. apply IH.
Qed.

(** X3: with hierarchy, the term iterator of a module net ends and lists,
    each once, exactly the terms whose net, as [net(term)] answers it, is
    that module net. *)
Theorem termIterator_lists_terms_of_modnet (block_ : dbBlock) (m : dbId)
    (fuel : nat) :
  (length (modnet_getBTerms block_ m) + length (modnet_getModBTerms block_ m)
   < fuel)%nat →
  NoDup (termIterator true block_ fuel (Some (mkObj dbModNetObj m)))
  ∧ ∀ term,
      term ∈ termIterator true block_ fuel (Some (mkObj dbModNetObj m))
      ↔ net_Term block_ term = Returns [] (Some (mkObj dbModNetObj m)).
Proof.
  intros Hfuel. unfold termIterator, DbNetTermIterator_new.
  cbn [staToDb_Net getObjectType getId].
  rewrite term_iterator_drains by (by rewrite !length_fmap).
  split.
  - apply NoDup_app. split; [|split].
    + apply pins_of_NoDup, NoDup_dbSet_of_fst.
    + intros pin [i [-> _]]%elem_of_pins_of [j [? _]]%elem_of_pins_of. done.
    + apply pins_of_NoDup, NoDup_dbSet_of_fst.
  - intros term. rewrite elem_of_app, !elem_of_pins_of. split.
    + intros [[b [-> Hb]]|[b [-> Hb]]].
      * apply elem_of_dbSet_of_fst in Hb as (bt & Hbt & Hm).
        unfold net_Term; cbn. unfold deref. rewrite Hbt. cbn.
        unfold same in Hm. apply bool_decide_eq_true in Hm. by rewrite Hm.
      * apply elem_of_dbSet_of_fst in Hb as (mb & Hmb & Hm).
        unfold net_Term; cbn. unfold deref. rewrite Hmb. cbn.
        unfold same in Hm. apply bool_decide_eq_true in Hm. by rewrite Hm.
    + destruct term as [[typ b]|]; [|done]. destruct typ; try done.
      * unfold net_Term; cbn. unfold deref.
        destruct (BTerms block_ !! b) as [bt|] eqn:Hbt; [|done]. cbn.
        intros Hn. left. exists b. split; [done|].
        apply elem_of_dbSet_of_fst. exists bt. split; [done|].
        unfold same. apply bool_decide_eq_true.
        destruct (bterm_modNet bt); [|destruct (bterm_net bt)]; cbn in Hn;
          congruence.
      * unfold net_Term; cbn. unfold deref.
        destruct (ModBTerms block_ !! b) as [mb|] eqn:Hmb; [|done]. cbn.
        intros Hn. right. exists b. split; [done|].
        apply elem_of_dbSet_of_fst. exists mb. split; [done|].
        unfold same. apply bool_decide_eq_true.
        destruct (modbterm_modNet mb); cbn in Hn; congruence.
Qed.

Lemma termIterator_lists_terms_of_modnet_witness :
  NoDup (termIterator true demo_block 3 (Some (mkObj dbModNetObj 2)))
  ∧ ∀ term,
      term ∈ termIterator true demo_block 3 (Some (mkObj dbModNetObj 2))
      ↔ net_Term demo_block term = Returns [] (Some (mkObj dbModNetObj 2)).
Proof.
  apply (termIterator_lists_terms_of_modnet demo_block 2 3).
  vm_compute. lia.
Defined.

(** X4: the term iterator of a flat net ends, with or without hierarchy,
    and lists the boundary terminals on the net, each once.  Every term
    whose net is the flat net is listed; a listed term answers the flat net
    or, when the terminal also has a module net, that module net. *)
Theorem termIterator_of_flat_net (hierarchy_ : bool) (block_ : dbBlock)
    (d : dbId) (fuel : nat) :
  (length (net_getBTerms block_ d) < fuel)%nat →
  let terms := termIterator hierarchy_ block_ fuel (Some (mkObj dbNetObj d)) in
  NoDup terms
  ∧ (∀ term, net_Term block_ term = Returns [] (Some (mkObj dbNetObj d)) →
             term ∈ terms)
  ∧ (∀ term, term ∈ terms →
       ∃ b, term = Some (mkObj dbBTermObj b)
            ∧ (net_Term block_ term = Returns [] (Some (mkObj dbNetObj d))
               ∨ ∃ m, net_Term block_ term
                      = Returns [] (Some (mkObj dbModNetObj m)))).
Proof.
  intros Hfuel terms. subst terms. unfold termIterator, DbNetTermIterator_new.
  cbn [staToDb_Net getObjectType getId].
  rewrite term_iterator_flat_drains by (by rewrite !length_fmap).
  split; [apply pins_of_NoDup, NoDup_dbSet_of_fst|]. split.
  - intros term Hn. apply elem_of_pins_of.
    destruct term as [[typ b]|]; [|done]. destruct typ; try done.
    + unfold net_Term in Hn; cbn in Hn. unfold deref in Hn.
      destruct (BTerms block_ !! b) as [bt|] eqn:Hbt; [|done]. cbn in Hn.
      exists b. split; [done|].
      apply elem_of_dbSet_of_fst. exists bt. split; [done|].
      unfold same. apply bool_decide_eq_true.
      destruct (bterm_modNet bt); [|destruct (bterm_net bt)]; cbn in Hn;
        congruence.
    + unfold net_Term in Hn; cbn in Hn. unfold deref in Hn.
      destruct (ModBTerms block_ !! b) as [mb|]; [|done]. cbn in Hn.
      destruct (modbterm_modNet mb); cbn in Hn; congruence.
  - intros term [b [-> Hb]]%elem_of_pins_of. exists b. split; [done|].
    apply elem_of_dbSet_of_fst in Hb as (bt & Hbt & Hd).
    unfold same in Hd. apply bool_decide_eq_true in Hd.
    unfold net_Term; cbn. unfold deref. rewrite Hbt. cbn. rewrite Hd.
    destruct (bterm_modNet bt) as [m|]; [right; by exists m|by left].
Qed.

Lemma termIterator_of_flat_net_witness :
  let terms := termIterator false demo_block 2 (Some (mkObj dbNetObj 1)) in
  NoDup terms
  ∧ (∀ term, net_Term demo_block term = Returns [] (Some (mkObj dbNetObj 1)) →
             term ∈ terms)
  ∧ (∀ term, term ∈ terms →
       ∃ b, term = Some (mkObj dbBTermObj b)
            ∧ (net_Term demo_block term = Returns [] (Some (mkObj dbNetObj 1))
               ∨ ∃ m, net_Term demo_block term
                      = Returns [] (Some (mkObj dbModNetObj m)))).
Proof.
  apply (termIterator_of_flat_net false demo_block 1 2).
  vm_compute. lia.
Defined.

(** X5: without hierarchy, the term iterator of a module net that has a
    module boundary terminal never ends: after the boundary terminals of
    the block, [hasNext] stays true and [next] returns null without moving,
    so [fuel] rounds of the caller's loop produce [fuel] terms. *)
Theorem termIterator_without_hierarchy_never_ends (block_ : dbBlock)
    (m : dbId) (fuel : nat) :
  modnet_getModBTerms block_ m ≠ [] →
  let terms := termIterator false block_ fuel (Some (mkObj dbModNetObj m)) in
  length terms = fuel
  ∧ ∀ k, (length (modnet_getBTerms block_ m) ≤ k < fuel)%nat →
         terms !! k = Some None.
Proof.
  intros Hne terms. subst terms. unfold termIterator, DbNetTermIterator_new.
  cbn [staToDb_Net getObjectType getId].
  rewrite term_iterator_stuck by (by destruct (modnet_getModBTerms block_ m)).
  unfold pins_of. split.
  - rewrite length_app, length_fmap, length_take, length_replicate,
      length_fmap. lia.
  - intros k [Hk1 Hk2]. rewrite lookup_app_r.
    + rewrite length_fmap, length_take, length_fmap.
      apply lookup_replicate_2. lia.
    + rewrite length_fmap, length_take, length_fmap. lia.
Qed.

Lemma termIterator_without_hierarchy_never_ends_witness :
  let terms := termIterator false demo_block 7 (Some (mkObj dbModNetObj 2)) in
  length terms = 7%nat
  ∧ ∀ k, (length (modnet_getBTerms demo_block 2) ≤ k < 7)%nat →
         terms !! k = Some None.
Proof.
  apply (termIterator_without_hierarchy_never_ends demo_block 2 7).
  vm_compute. discriminate.
Defined.

(** ** Pins and their instance *)

(** X6: every pin the pin iterator of an instance produces answers that
    instance when asked [instance(pin)]; this holds for Top, for a flat
    instance and for any other handle the iterator accepts. *)
Theorem pinIterator_pins_belong_to_instance (hierarchy_ : bool)
    (block_ : dbBlock) (inst : StaInstance) (w : list LogMsg)
    (pins : list Pin) (pin : Pin) :
  pinIterator_Instance hierarchy_ block_ inst = Returns w pins →
  pin ∈ pins →
  instance_Pin block_ pin = Returns [] inst.
Proof.
  unfold pinIterator_Instance, DbInstancePinIterator_new.
  destruct inst as [[|[typ i]]|].
  - rewrite bool_decide_eq_true_2 by done. run.
    cbn [inst_iitr_ inst_bitr_ inst_mi_itr_ length Nat.add app].
    rewrite top_pin_iterator_drains by (simpl; lia).
    intros [= <- <-] [b [-> _]]%elem_of_pins_of. done.
  - rewrite bool_decide_eq_false_2 by done.
    destruct typ; try done; unfold staToDb_Instance, getObjectType; run;
      cbn [inst_iitr_ inst_bitr_ inst_mi_itr_ length Nat.add app getId];
      rewrite inst_pin_iterator_drains by (simpl; lia);
      intros [= <- <-].
    + destruct hierarchy_; rewrite app_nil_r;
        intros (j & it & Hin & _ & ->)%elem_of_signal_pins;
        apply elem_of_dbSet_of in Hin as [Hj Hi];
        apply bool_decide_eq_true in Hi;
        unfold instance_Pin; cbn; unfold deref; rewrite Hj; cbn;
        by rewrite Hi.
    + destruct hierarchy_; cbn; by intros ?%elem_of_nil.
  - rewrite bool_decide_eq_false_2 by done. cbn.
    intros [= <- <-]. by intros ?%elem_of_nil.
Qed.

Lemma pinIterator_pins_belong_to_instance_witness :
  instance_Pin demo_block (Some (mkObj dbITermObj 2))
  = Returns [] (Some (InstanceObj (mkObj dbInstObj 1))).
Proof.
  apply (pinIterator_pins_belong_to_instance true demo_block
           (Some (InstanceObj (mkObj dbInstObj 1))) []
           (signal_pins (inst_getITerms demo_block 1))).
  - vm_compute. reflexivity.
  - vm_compute. set_solver.
Defined.

(** X7: the pin iterator of a module instance produces no pin, with or
    without hierarchy: the constructor tests the member [mod_inst_], which
    it has just set to null, so the module terminals are never loaded. *)
Theorem pinIterator_of_module_instance_is_empty (hierarchy_ : bool)
    (block_ : dbBlock) (m : dbId) :
  pinIterator_Instance hierarchy_ block_
    (Some (InstanceObj (mkObj dbModInstObj m)))
  = Returns [] [].
Proof.
  unfold pinIterator_Instance, DbInstancePinIterator_new.
  rewrite bool_decide_eq_false_2 by done.
  unfold staToDb_Instance, getObjectType. run.
  cbn [inst_iitr_ inst_bitr_ inst_mi_itr_ length Nat.add app].
  rewrite inst_pin_iterator_drains by (simpl; lia).
  by destruct hierarchy_.
Qed.

(** X8: a pin found by name on an instance is a pin of that instance:
    [instance(findPin(instance, name))] is the instance, for Top, for a flat
    instance and for a module instance. *)
Theorem findPin_finds_pin_of_instance (block_ : dbBlock) (inst : StaInstance)
    (port_name : string) (w : list LogMsg) (pin : dbObject) :
  findPin block_ inst port_name = Returns w (Some pin) →
  instance_Pin block_ (Some pin) = Returns [] inst.
Proof.
  unfold findPin. case_decide as Htop.
  - subst inst. run. intros [= <- Hpin].
    destruct (block_findBTerm block_ port_name) as [[b bt]|]; [|done].
    cbn in Hpin. by injection Hpin as <-.
  - destruct inst as [[|[typ i]]|]; [done| |done].
    destruct typ; try done; unfold staToDb_Instance, getObjectType; run;
      cbn [getId]; intros [= <- Hpin].
    + destruct (inst_getITerm block_ i port_name) as [[j it]|] eqn:Hfind;
        [|done].
      cbn in Hpin. injection Hpin as <-.
      apply dbSet_find_Some in Hfind as [Hj Hp].
      apply bool_decide_eq_true in Hp as [Hi _].
      unfold instance_Pin; cbn. unfold deref. rewrite Hj. cbn. by rewrite Hi.
    + destruct (modinst_findModITerm block_ i port_name) as [[j mt]|] eqn:Hfind;
        [|done].
      cbn in Hpin. injection Hpin as <-.
      apply dbSet_find_Some in Hfind as [Hj Hp].
      apply bool_decide_eq_true in Hp as [Hi _].
      unfold instance_Pin; cbn. unfold deref. rewrite Hj. cbn. by rewrite Hi.
Qed.

Lemma findPin_finds_pin_of_instance_witness :
  instance_Pin demo_block (Some (mkObj dbModITermObj 1))
  = Returns [] (Some (InstanceObj (mkObj dbModInstObj 1))).
Proof.
  apply (findPin_finds_pin_of_instance demo_block
           (Some (InstanceObj (mkObj dbModInstObj 1))) "in" []).
  vm_compute. reflexivity.
Defined.

(** ** Lookup by name *)

(** X9: a net found by name is a flat net that has the name looked up: the
    given name at Top, and below Top the path of the instance, the path
    divider and the given name.  A module net is never found. *)
Theorem findNet_finds_flat_net_of_that_name (block_ : dbBlock)
    (pathName : StaInstance → string) (pathDivider : string)
    (inst : StaInstance) (net_name : string) (net : dbObject) :
  findNet block_ pathName pathDivider inst net_name = Some net →
  getObjectType net = dbNetObj
  ∧ name_Net block_ (Some net)
    = Returns [] (Some (if decide (inst = top_instance_) then net_name
                        else pathName inst +:+ pathDivider +:+ net_name)).
Proof.
  unfold findNet, block_findNet.
  case_decide.
  all: match goal with
       | |- context[dbSet_find ?t ?p] =>
           destruct (dbSet_find t p) as [[d n]|] eqn:Hfind; [|done]
       end.
  all: cbn; intros [= <-]; split; [done|].
  all: apply dbSet_find_Some in Hfind as [Hd Hn];
       apply bool_decide_eq_true in Hn;
       unfold name_Net; cbn; unfold deref; rewrite Hd; cbn; by rewrite Hn.
Qed.

Lemma findNet_finds_flat_net_of_that_name_witness :
  getObjectType (mkObj dbNetObj 2) = dbNetObj
  ∧ name_Net demo_block (Some (mkObj dbNetObj 2))
    = Returns [] (Some (if decide (Some TopInstance = top_instance_) then "n2"
                        else "" +:+ "/" +:+ "n2")).
Proof.
  apply (findNet_finds_flat_net_of_that_name demo_block (λ _, EmptyString) "/"
           (Some TopInstance) "n2").
  vm_compute. reflexivity.
Defined.

(** X10: an instance found by name has the name looked up.  [findInstance]
    finds flat instances only.  [findChild] finds, at Top, an instance of
    the given name and, below a module instance, a module instance of the
    given name in the instantiated module or else a flat instance whose
    name is the hierarchical name of the parent, the divider and the given
    name. *)
Theorem found_instance_has_the_name (block_ : dbBlock) (pathDivider : string)
    (getHierarchicalName : dbId → string) :
  (∀ path_name inst,
     findInstance block_ path_name = Some inst →
     (∃ i, inst = InstanceObj (mkObj dbInstObj i))
     ∧ name_Instance block_ (Some inst) = Returns [] path_name)
  ∧ (∀ parent name w child,
       findChild block_ pathDivider getHierarchicalName parent name
       = Returns w (Some child) →
       name_Instance block_ (Some child) = Returns [] name
       ∨ ∃ m i, parent = Some (InstanceObj (mkObj dbModInstObj m))
                ∧ child = InstanceObj (mkObj dbInstObj i)
                ∧ name_Instance block_ (Some child)
                  = Returns [] (getHierarchicalName m +:+ pathDivider
                                +:+ name)).
Proof.
  assert (∀ n i inst, block_findInst block_ n = Some (i, inst) →
            name_Instance block_ (Some (InstanceObj (mkObj dbInstObj i)))
            = Returns [] n) as Hflat.
  { intros n i inst [Hi Hn]%dbSet_find_Some.
    apply bool_decide_eq_true in Hn.
    unfold name_Instance. case_decide; [done|]. cbn. unfold deref.
    rewrite Hi. cbn. by rewrite Hn. }
  assert (∀ md n i inst, module_findModInst block_ md n = Some (i, inst) →
            name_Instance block_ (Some (InstanceObj (mkObj dbModInstObj i)))
            = Returns [] n) as Hmod.
  { intros md n i inst [Hi Hn]%dbSet_find_Some.
    apply bool_decide_eq_true in Hn as [_ Hn].
    unfold name_Instance. case_decide; [done|]. cbn. unfold deref.
    rewrite Hi. cbn. by rewrite Hn. }
  split.
  - intros path_name inst. unfold findInstance.
    destruct (block_findInst block_ path_name) as [[i fi]|] eqn:Hfind; [|done].
    cbn. intros [= <-]. split; [by exists i|by eapply Hflat].
  - intros parent name w child. unfold findChild. case_decide as Htop.
    + destruct (block_findInst block_ name) as [[i fi]|] eqn:Hfind.
      * intros [= <- <-]. left. by eapply Hflat.
      * destruct (module_findModInst block_ (top_module block_) name)
          as [[i mi]|] eqn:Hfind'; [|done].
        intros [= <- <-]. left. by eapply Hmod.
    + destruct parent as [[|[typ m]]|]; [done| |done].
      destruct typ; try done. unfold staToDb_Instance, getObjectType. run.
      cbn [getId]. unfold deref.
      destruct (ModInsts block_ !! m) as [pm|]; [|done]. cbn.
      destruct (module_findModInst block_ (modinst_master pm) name)
        as [[i mi]|] eqn:Hfind.
      * intros [= <- <-]. left. by eapply Hmod.
      * match goal with
        | |- context[block_findInst block_ ?n] =>
            destruct (block_findInst block_ n) as [[i fi]|] eqn:Hfind';
              [|done]
        end.
        cbn. intros [= <- <-]. right. exists m, i.
        split; [done|]. split; [done|]. by eapply Hflat.
Qed.

(** X11: a child found by name is among the children listed: with
    hierarchy, a module instance that [findChild] returns is produced by
    [childIterator] of the same parent; without hierarchy, a flat instance
    that [findChild] returns at Top is produced by [childIterator] of Top. *)
Theorem found_child_is_listed (hierarchy_ : bool) (block_ : dbBlock)
    (pathDivider : string) (getHierarchicalName : dbId → string)
    (parent : StaInstance) (name : string) (w w' : list LogMsg)
    (child : InstanceRef) (children : list StaInstance) :
  findChild block_ pathDivider getHierarchicalName parent name
  = Returns w (Some child) →
  childIterator hierarchy_ block_ parent = Returns w' children →
  (hierarchy_ = true ∧ ∃ c, child = InstanceObj (mkObj dbModInstObj c))
  ∨ (hierarchy_ = false ∧ parent = top_instance_
     ∧ ∃ c, child = InstanceObj (mkObj dbInstObj c)) →
  Some child ∈ children.
Proof.
  intros Hfind Hlist Hkind. unfold findChild in Hfind.
  destruct Hkind as [[-> [c ->]]|(-> & -> & [c ->])].
  - destruct (decide (parent = top_instance_)) as [->|Htop].
    + revert Hlist. unfold childIterator, DbInstanceChildIterator_new.
      cbn [negb]. rewrite decide_True by done. run.
      cbn [dbinst_iter_ modinst_iter_].
      rewrite child_iterator_drains by (simpl; lia).
      intros [= <- <-].
      destruct (block_findInst block_ name) as [[i fi]|]; [done|].
      destruct (module_findModInst block_ (top_module block_) name)
        as [[i mi]|] eqn:Hf; [|done].
      injection Hfind as <- ->.
      apply dbSet_find_Some in Hf as [Hi Hp].
      apply bool_decide_eq_true in Hp as [Hp _].
      apply elem_of_app. right. apply list_elem_of_fmap. exists c.
      split; [done|]. apply elem_of_dbSet_of_fst. exists mi.
      split; [done|]. by apply bool_decide_eq_true.
    + destruct parent as [[|[typ m]]|]; [done| |done].
      destruct typ; try done. revert Hfind.
      unfold staToDb_Instance, getObjectType. run. cbn [getId]. unfold deref.
      destruct (ModInsts block_ !! m) as [pm|] eqn:Hm; [|done]. cbn.
      rewrite (childIterator_ModInst _ _ _ Hm) in Hlist.
      injection Hlist as <- <-.
      destruct (module_findModInst block_ (modinst_master pm) name)
        as [[i mi]|] eqn:Hf.
      * intros [= <- ->].
        apply dbSet_find_Some in Hf as [Hi Hp].
        apply bool_decide_eq_true in Hp as [Hp _].
        apply elem_of_app. right. apply list_elem_of_fmap. exists c.
        split; [done|]. apply elem_of_dbSet_of_fst. exists mi.
        split; [done|]. by apply bool_decide_eq_true.
      * match goal with
        | |- context[block_findInst block_ ?n] =>
            destruct (block_findInst block_ n) as [[i fi]|]; [|done]
        end.
        done.
  - rewrite decide_True in Hfind by done.
    revert Hlist. unfold childIterator, DbInstanceChildIterator_new.
    cbn [negb]. rewrite decide_True by done. run.
    cbn [dbinst_iter_ modinst_iter_].
    rewrite child_iterator_drains by (simpl; lia).
    intros [= <- <-]. rewrite app_nil_r.
    destruct (block_findInst block_ name) as [[i fi]|] eqn:Hf.
    + injection Hfind as <- ->.
      apply dbSet_find_Some in Hf as [Hi _].
      apply list_elem_of_fmap. exists c. split; [done|].
      apply elem_of_dbSet_of_fst. by exists fi.
    + destruct (module_findModInst block_ (top_module block_) name)
        as [[i mi]|]; [|done].
      done.
Qed.

Lemma found_child_is_listed_witness :
  Some (InstanceObj (mkObj dbModInstObj 2))
  ∈ [Some (InstanceObj (mkObj dbInstObj 1));
     Some (InstanceObj (mkObj dbModInstObj 2))].
Proof.
  apply (found_child_is_listed true demo_block "/" (λ _, "sub")
           (Some (InstanceObj (mkObj dbModInstObj 1))) "sub/inner" [] []).
  - vm_compute. reflexivity.
  - vm_compute. reflexivity.
  - left. split; [reflexivity|]. by exists 2.
Defined.

(** X12: a flat instance has no children: its child iterator produces
    nothing and [findChild] returns null for every name.  Without
    hierarchy no handle but Top has a child, and the child iterator does
    not even look at the kind of the handle. *)
Theorem flat_instance_has_no_children (block_ : dbBlock)
    (pathDivider : string) (getHierarchicalName : dbId → string) :
  (∀ hierarchy_ i,
     childIterator hierarchy_ block_ (Some (InstanceObj (mkObj dbInstObj i)))
     = Returns [] [])
  ∧ (∀ i name,
       findChild block_ pathDivider getHierarchicalName
         (Some (InstanceObj (mkObj dbInstObj i))) name
       = Returns [] None)
  ∧ (∀ inst, inst ≠ top_instance_ →
       childIterator false block_ inst = Returns [] []).
Proof.
  split; [|split].
  - intros [] i; unfold childIterator, DbInstanceChildIterator_new; cbn [negb];
      by rewrite decide_False by done.
  - intros i name. unfold findChild. by rewrite decide_False by done.
  - intros inst Hinst. unfold childIterator, DbInstanceChildIterator_new.
    cbn [negb]. by rewrite decide_False by done.
Qed.

(** ** Constant nets *)

Lemma findConstantNets_fold (l : list (dbId * dbNet))
    (calls : list (Net * LogicValue)) (net : Net) (value : LogicValue) :
  (net, value)
  ∈ foldl (λ calls (dnet : dbId * dbNet),
             if bool_decide (net_sigType dnet.2 = GROUND) then
               calls ++ [(dbToSta dbNetObj (Some dnet.1), logic_zero)]
             else if bool_decide (net_sigType dnet.2 = POWER) then
               calls ++ [(dbToSta dbNetObj (Some dnet.1), logic_one)]
             else calls) calls l
  ↔ (net, value) ∈ calls
    ∨ ∃ d n, (d, n) ∈ l
             ∧ net_sigType n = (if value is logic_zero then GROUND else POWER)
             ∧ net = Some (mkObj dbNetObj d).
Proof.
  revert calls. induction l as [|[d n] l IH]; intros calls.
  - cbn. split; [by left|]. intros [?|(? & ? & []%elem_of_nil & _)]. done.
  - cbn [foldl]. rewrite IH. clear IH. cbn [fst snd]. split.
    + intros [Hacc|(d' & n' & Hin & Hg & ->)].
      * repeat case_bool_decide.
        -- apply elem_of_app in Hacc as [?|Heq%list_elem_of_singleton];
             [by left|].
           injection Heq as -> ->. right. exists d, n.
           split; [apply list_elem_of_here|done].
        -- apply elem_of_app in Hacc as [?|Heq%list_elem_of_singleton];
             [by left|].
           injection Heq as -> ->. right. exists d, n.
           split; [apply list_elem_of_here|done].
        -- by left.
      * right. exists d', n'. split; [by apply list_elem_of_further|done].
    + intros [Hacc|(d' & n' & [[= -> ->]|Hin]%elem_of_cons & Hg & ->)].
      * left. repeat case_bool_decide; set_solver.
      * left. destruct value.
        -- rewrite bool_decide_eq_true_2 by done. set_solver.
        -- rewrite bool_decide_eq_false_2 by congruence.
           rewrite bool_decide_eq_true_2 by done. set_solver.
      * right. by exists d', n'.
Qed.

Lemma findConstantNets_spec (block_ : dbBlock) (net : Net) :
  ((net, logic_zero) ∈ findConstantNets block_
   ↔ isGround block_ net = Returns [] true)
  ∧ ((net, logic_one) ∈ findConstantNets block_
     ↔ isPower block_ net = Returns [] true)
  ∧ ¬ ((net, logic_zero) ∈ findConstantNets block_
       ∧ (net, logic_one) ∈ findConstantNets block_).
Proof.
  assert (∀ sig,
            ((net, logic_zero) ∈ ([] : list (Net * LogicValue))
             ∨ ∃ d n, (d, n) ∈ dbSet_of (Nets block_) (λ _, true)
                      ∧ net_sigType n = sig ∧ net = Some (mkObj dbNetObj d))
            ↔ Net_sigType block_ net = Returns [] sig) as Hsig.
  { intros sig. split.
    - intros [?%elem_of_nil|(d & n & Hin & Hs & ->)]; [done|].
      apply elem_of_dbSet_of in Hin as [Hd _].
      unfold Net_sigType; cbn. unfold deref. rewrite Hd. cbn. by rewrite Hs.
    - destruct net as [[typ d]|]; [|done]. destruct typ; try done.
      unfold Net_sigType; cbn. unfold deref.
      destruct (Nets block_ !! d) as [n|] eqn:Hd; [|done]. cbn.
      intros [= Hs]. right. exists d, n. split; [|done].
      by apply elem_of_dbSet_of. }
  assert (∀ sig,
            ((net, logic_one) ∈ ([] : list (Net * LogicValue))
             ∨ ∃ d n, (d, n) ∈ dbSet_of (Nets block_) (λ _, true)
                      ∧ net_sigType n = sig ∧ net = Some (mkObj dbNetObj d))
            ↔ Net_sigType block_ net = Returns [] sig) as Hsig1.
  { intros sig. rewrite <- Hsig. split; (intros [?%elem_of_nil|?]; [done|]);
      by right. }
  assert (∀ sig, Net_sigType block_ net = Returns [] sig
                 ↔ (s ← Net_sigType block_ net;
                    mret (bool_decide (s = sig))) = Returns [] true) as Hq.
  { intros sig. destruct (Net_sigType block_ net) as [w s|w f]; cbn; [|done].
    run. rewrite app_nil_r. split.
    - intros [= -> ->]. by rewrite bool_decide_eq_true_2.
    - intros [= -> Hb]. apply bool_decide_eq_true in Hb. by subst. }
  unfold findConstantNets.
  pose proof (findConstantNets_fold (dbSet_of (Nets block_) (λ _, true))
                [] net logic_zero) as Hz.
  pose proof (findConstantNets_fold (dbSet_of (Nets block_) (λ _, true))
                [] net logic_one) as Ho.
  split; [|split].
  - rewrite Hz, Hsig. apply Hq.
  - rewrite Ho, Hsig1. apply Hq.
  - rewrite Hz, Ho, Hsig, Hsig1. intros [H1 H2]. congruence.
Qed.

(** X13: the constant nets are the supply nets: [findConstantNets] adds a
    net as tied to logic zero exactly when [isGround] answers true for it,
    and as tied to logic one exactly when [isPower] does; no net is added
    with both values. *)
Theorem constant_nets_are_the_supply_nets (block_ : dbBlock) (net : Net) :
  ((net, logic_zero) ∈ findConstantNets block_
   ↔ isGround block_ net = Returns [] true)
  ∧ ((net, logic_one) ∈ findConstantNets block_
     ↔ isPower block_ net = Returns [] true)
  ∧ ¬ ((net, logic_zero) ∈ findConstantNets block_
       ∧ (net, logic_one) ∈ findConstantNets block_).
Proof. apply findConstantNets_spec. Qed.

(** ** Reading a liberty library after the cells were built *)

Lemma for_each_build_Forall2 {A B} (body : A → Outcome B) (R : A → B → Prop)
    (l : list A) :
  (∀ x, ∃ w y, body x = Returns w y ∧ R x y) →
  ∃ w ys, for_each_build body l = Returns w ys ∧ Forall2 R l ys.
Proof.
  intros Hbody. induction l as [|x l (w & ys & IH & HR)].
  - exists [], []. by split.
  - destruct (Hbody x) as (w1 & y & Hy & Hxy). cbn. rewrite Hy, IH. cbn.
    eexists _, (y :: ys). split; [done|]. by constructor.
Qed.

Lemma for_each_build_fixed {A} (body : A → Outcome A) (l : list A) :
  Forall (λ x, body x = Returns [] x) l →
  for_each_build body l = Returns [] l.
Proof.
  induction 1 as [|x l Hx _ IH]; [done|]. cbn. by rewrite Hx, IH.
Qed.

Lemma readLibertyAfter_port_outcome (lcell : LibertyCell) (cport : ConcretePort) :
  ∃ w cport', readLibertyAfter_port lcell cport = Returns w cport'
              ∧ port_name cport' = port_name cport
              ∧ port_direction cport' = port_direction cport.
Proof.
  unfold readLibertyAfter_port.
  destruct (findLibertyPort lcell (port_name cport)); [by eexists _, _|].
  destruct (negb (isPowerGround (port_direction cport))
            && negb (bool_decide (is_Some (findPgPort lcell (port_name cport)))));
    by eexists _, _.
Qed.

Lemma readLibertyAfter_cell_outcome (lib : list LibertyCell) (ccell : ConcreteCell) :
  ∃ w ccell', readLibertyAfter_cell lib ccell = Returns w ccell'
              ∧ relinked_cell lib ccell ccell'.
Proof.
  unfold readLibertyAfter_cell, relinked_cell.
  destruct (cell_libertyCell ccell) as [lc|] eqn:Hlc.
  { by exists [], ccell. }
  destruct (findLibertyCell lib (cell_name ccell)) as [lcell|] eqn:Hfind.
  - destruct (for_each_build_Forall2 (readLibertyAfter_port lcell)
                (λ p p', port_name p' = port_name p
                         ∧ port_direction p' = port_direction p)
                (cell_ports ccell)) as (w & ports & -> & Hports).
    { intros p. destruct (readLibertyAfter_port_outcome lcell p)
        as (w & p' & ? & ? & ?). by exists w, p'. }
    run. eexists _, _. split; [done|]. cbn.
    split; [done|]. split; [|split; [|done]].
    + induction Hports as [|???? [? ?]]; [done|]. cbn. by f_equal.
    + induction Hports as [|???? [? ?]]; [done|]. cbn. by f_equal.
  - by exists [], ccell.
Qed.

Lemma readLibertyAfter_cell_again (lib : list LibertyCell)
    (ccell ccell' : ConcreteCell) (w : list LogMsg) :
  readLibertyAfter_cell lib ccell = Returns w ccell' →
  readLibertyAfter_cell lib ccell' = Returns [] ccell'.
Proof.
  unfold readLibertyAfter_cell at 1.
  destruct (cell_libertyCell ccell) as [lc|] eqn:Hlc.
  { intros [= <- <-]. unfold readLibertyAfter_cell. by rewrite Hlc. }
  destruct (findLibertyCell lib (cell_name ccell)) as [lcell|] eqn:Hfind.
  - destruct (for_each_build (readLibertyAfter_port lcell) (cell_ports ccell))
      as [w1 ports|]; [|done].
    run. by intros [= <- <-].
  - intros [= <- <-]. unfold readLibertyAfter_cell. by rewrite Hlc, Hfind.
Qed.

Lemma for_each_build_again {A} (body : A → Outcome A) (l l' : list A)
    (w : list LogMsg) :
  (∀ x w x', body x = Returns w x' → body x' = Returns [] x') →
  for_each_build body l = Returns w l' →
  for_each_build body l' = Returns [] l'.
Proof.
  intros Hbody. revert w l'. induction l as [|x l IH]; intros w l'.
  - by intros [= <- <-].
  - cbn. destruct (body x) as [w1 x'|] eqn:Hx; [|done]. cbn.
    destruct (for_each_build body l) as [w2 l2|] eqn:Hl; [|done]. cbn.
    intros [= <- <-]. cbn. by rewrite (Hbody _ _ _ Hx), (IH _ _ eq_refl).
Qed.

(** X14: reading a liberty library after the cells were built never stops.
    Liberty libraries are left alone.  In every other library each cell
    keeps its name and its ports by name and direction; a cell that was
    linked to a liberty cell stays as it was, so the first library read
    wins, and an unlinked cell is linked to the liberty cell of its name
    when the library has one. *)
Theorem readLibertyAfter_links_unlinked_cells (lib : list LibertyCell)
    (library_seq_ : list ConcreteLibrary) :
  ∃ w libs,
    readLibertyAfter lib library_seq_ = Returns w libs
    ∧ Forall2 (relinked_library lib) library_seq_ libs.
Proof.
  unfold readLibertyAfter. apply for_each_build_Forall2.
  intros clib. unfold relinked_library.
  destruct (library_isLiberty clib) eqn:Hlib.
  - exists [], clib. by rewrite Hlib.
  - destruct (for_each_build_Forall2 (readLibertyAfter_cell lib)
                (relinked_cell lib) (library_cells clib))
      as (w & cells & -> & Hcells).
    { apply readLibertyAfter_cell_outcome. }
    run. by eexists _, _.
Qed.

(** X15: reading the same liberty library a second time changes nothing
    and logs nothing. *)
Theorem readLibertyAfter_twice (lib : list LibertyCell)
    (library_seq_ libs : list ConcreteLibrary) (w : list LogMsg) :
  readLibertyAfter lib library_seq_ = Returns w libs →
  readLibertyAfter lib libs = Returns [] libs.
Proof.
  unfold readLibertyAfter. apply for_each_build_again.
  intros clib w1 clib'.
  destruct (library_isLiberty clib) eqn:Hlib.
  - intros [= <- <-]. by rewrite Hlib.
  - destruct (for_each_build (readLibertyAfter_cell lib) (library_cells clib))
      as [w2 cells|] eqn:Hcells; [|done].
    run. intros [= <- <-]. cbn.
    by rewrite (for_each_build_again _ _ _ _
                  (λ c w c', readLibertyAfter_cell_again lib c c' w) Hcells).
Qed.

Lemma readLibertyAfter_twice_witness :
  ∃ w libs,
    readLibertyAfter demo_liberty_partial demo_lef_library = Returns w libs
    ∧ readLibertyAfter demo_liberty_partial libs = Returns [] libs.
Proof.
  assert (∃ w libs, readLibertyAfter demo_liberty_partial demo_lef_library
                    = Returns w libs) as (w & libs & Hrun)
    by (eexists _, _; vm_compute; reflexivity).
  exists w, libs. split; [exact Hrun|].
  exact (readLibertyAfter_twice demo_liberty_partial demo_lef_library libs w
           Hrun).
Defined.

Lemma findLibertyCell_name (liberty : list LibertyCell) (name : string)
    (lc : LibertyCell) :
  findLibertyCell liberty name = Some lc → liberty_cell_name lc = name.
Proof.
  unfold findLibertyCell. intros [_ Hn]%find_some.
  by apply bool_decide_eq_true in Hn.
Qed.

Lemma liberty_port_after_like_before (lc : LibertyCell) (mterm : dbMTerm) :
  ∃ port0 w port1,
    makeCell_port (liberty_cell_name lc) None mterm = Returns [] port0
    ∧ makeCell_port (liberty_cell_name lc) (Some lc) mterm = Returns w port1
    ∧ readLibertyAfter_port lc port0 = Returns (with_id 2002 <$> w) port1
    ∧ Forall (λ m, msg_id m = 2001) w.
Proof.
  unfold makeCell_port, readLibertyAfter_port.
  exists (mkPort (mterm_name mterm)
            (dbToSta_PortDirection (mterm_sigType mterm) (mterm_ioType mterm))
            None (Some (mterm_name mterm))).
  run. cbn [port_name port_direction port_extPort].
  destruct (findLibertyPort lc (mterm_name mterm)) as [lp|].
  - by eexists _, _.
  - destruct (negb (isPowerGround
                      (dbToSta_PortDirection (mterm_sigType mterm)
                                             (mterm_ioType mterm)))
              && negb (bool_decide
                         (is_Some (findPgPort lc (mterm_name mterm))))).
    + unfold logger_warn. cbn. eexists _, _.
      split; [done|]. split; [done|]. split; [done|]. by constructor.
    + cbn. by eexists _, _.
Qed.

Lemma liberty_ports_after_like_before (lc : LibertyCell)
    (mterms : list dbMTerm) :
  ∃ ports0 w ports1,
    for_each_build (makeCell_port (liberty_cell_name lc) None) mterms
    = Returns [] ports0
    ∧ for_each_build (makeCell_port (liberty_cell_name lc) (Some lc)) mterms
      = Returns w ports1
    ∧ for_each_build (readLibertyAfter_port lc) ports0
      = Returns (with_id 2002 <$> w) ports1
    ∧ Forall (λ m, msg_id m = 2001) w.
Proof.
  induction mterms as [|mterm mterms (ports0 & w & ports1 & H0 & H1 & H2 & Hw)].
  - by exists [], [], [].
  - destruct (liberty_port_after_like_before lc mterm)
      as (p0 & wp & p1 & Hp0 & Hp1 & Hp2 & Hwp).
    exists (p0 :: ports0), (wp ++ w), (p1 :: ports1).
    cbn [for_each_build]. rewrite H0, H1, Hp0, Hp1, Hp2, H2. run.
    rewrite !app_nil_r, fmap_app.
    split; [done|]. split; [done|]. split; [done|]. by apply Forall_app.
Qed.

(** X16: the order of reading does not matter for a cell: building the
    cell without a liberty library and reading the library afterwards
    gives the same linked cell as building the cell with the library read
    first, and the same warnings, numbered 2002 instead of 2001. *)
Theorem liberty_after_lef_links_like_before (liberty : list LibertyCell)
    (master : dbMaster) :
  ∃ c0 w c1,
    makeCell [] master = Returns [] c0
    ∧ makeCell liberty master = Returns w c1
    ∧ Forall (λ m, msg_id m = 2001) w
    ∧ readLibertyAfter_cell liberty c0 = Returns (with_id 2002 <$> w) c1.
Proof.
  unfold makeCell. cbn [findLibertyCell find].
  destruct (findLibertyCell liberty (master_name master)) as [lc|] eqn:Hfind.
  - pose proof (findLibertyCell_name _ _ _ Hfind) as Hname.
    destruct (liberty_ports_after_like_before lc (master_MTerms master))
      as (ports0 & w & ports1 & H0 & H1 & H2 & Hw).
    rewrite Hname in H0, H1. rewrite H0, H1. run. rewrite !app_nil_r.
    eexists _, _, _. split; [done|]. split; [done|]. split; [done|].
    unfold readLibertyAfter_cell. cbn [cell_libertyCell cell_name cell_ports].
    rewrite Hfind, H2. run. by rewrite app_nil_r.
  - destruct (for_each_build_Forall2
                (makeCell_port (master_name master) None) (λ _ _, True)
                (master_MTerms master)) as (w & ports & Hports & _).
    { intros mterm. by eexists _, _. }
    assert (w = []) as ->.
    { revert w ports Hports. induction (master_MTerms master) as [|m l IH];
        intros w ports; cbn; [by intros [= <- <-]|].
      destruct (for_each_build (makeCell_port (master_name master) None) l)
        as [w' ps|] eqn:Hl; [|done].
      run. cbn. intros [= <- <-]. by rewrite (IH _ _ eq_refl). }
    rewrite Hports. run. eexists _, _, _.
    split; [done|]. split; [done|]. split; [done|].
    unfold readLibertyAfter_cell. cbn [cell_libertyCell cell_name].
    by rewrite Hfind.
Qed.

(** ** What the traversal hands out *)

Lemma connected_pin_listed (block_ : dbBlock) (net : Net) (pin : Pin) :
  pin ∈ listed_pins block_ net → connected_pin block_ net pin.
Proof. intros Hpin. exists net. split; [done|by left]. Qed.

Lemma connected_pin_crossed (block_ : dbBlock) (net net' : Net) (pin : Pin) :
  crosses block_ net pin net' → connected_pin block_ net pin.
Proof. intros Hx. exists net. split; [done|]. right. by exists net'. Qed.

Lemma connected_pin_step (block_ : dbBlock) (net net' : Net) (far pin : Pin) :
  crosses block_ net far net' → connected_pin block_ net' pin →
  connected_pin block_ net pin.
Proof.
  intros Hx (n & Hreach & Hpin). exists n. split; [|done].
  eapply rtc_l; [|exact Hreach]. by exists far.
Qed.

(** One call of the traversal adds only pins connected to its net. *)
Lemma visitConnectedPins_sound (block_ : dbBlock) (fuel : nat) :
  ∀ (net : Net) (v v' : Visit) (w : list LogMsg),
    visitConnectedPins block_ fuel net v = Some (Returns w v') →
    ∀ pin, pin ∈ visitor_calls v' →
           pin ∈ visitor_calls v ∨ connected_pin block_ net pin.
Proof.
  induction fuel as [|fuel IH]; intros net v v' w; [done|].
  cbn [visitConnectedPins]. case_decide as Hseen.
  { intros [= <- <-] pin Hpin. by left. }
  cbv zeta.
  destruct (staToDb_Net net) as [d [m|]] eqn:Hcls.
  - pose proof (staToDb_Net_mod _ _ _ Hcls) as [-> Hnet].
    rewrite !visit_all_calls. cbn [visitor_calls visited_nets].
    set (v0 := mkVisit _ _).
    assert (∀ pin, pin ∈ visitor_calls v0 →
                   pin ∈ visitor_calls v ∨ connected_pin block_ net pin)
      as Hv0.
    { intros pin. subst v0. cbn [visitor_calls].
      rewrite <- !app_assoc. intros [?|Hl]%elem_of_app; [by left|].
      right. apply connected_pin_listed. unfold listed_pins.
      by rewrite Hcls. }
    clearbody v0.
    match goal with
    | |- fuel_bind (for_each ?l ?body ?v1) ?k = _ → _ =>
        destruct (for_each l body v1) as [[w1 v1'|w1 f1]|] eqn:Hl; cbn;
          [| done | done]
    end.
    match goal with
    | |- match for_each ?l ?body ?v1 with _ => _ end = _ → _ =>
        destruct (for_each l body v1) as [[w2 v2|w2 f2]|] eqn:Hl2;
          [| done | done]
    end.
    intros [= <- <-].
    eapply (for_each_inv
              (λ u, ∀ pin, pin ∈ visitor_calls u →
                           pin ∈ visitor_calls v
                           ∨ connected_pin block_ net pin)); [| |exact Hl2].
    + intros x u wu u' Hx Hu. cbv beta.
      destruct (above_pin_net block_ x) as [wa [[ap an]|]|] eqn:Ha; cbn;
        [| |done].
      * destruct (visitConnectedPins block_ fuel an (visitor ap u))
          as [[wr ur|]|] eqn:Hrec; [|done|done].
        intros [= <- <-] pin Hpin.
        pose proof (above_pin_net_Returns _ _ _ _ _ Ha) as [-> _].
        assert (crosses block_ net ap an) as Hcross.
        { exists m. rewrite Hnet. split; [done|]. right. by exists x. }
        destruct (IH _ _ _ _ Hrec pin Hpin) as [Hold|Hconn].
        -- cbn in Hold. apply elem_of_app in Hold as [?|Heq%list_elem_of_singleton];
             [auto|]. subst pin. right. by eapply connected_pin_crossed.
        -- right. by eapply connected_pin_step.
      * intros [= <- <-]. exact Hu.
    + eapply (for_each_inv
                (λ u, ∀ pin, pin ∈ visitor_calls u →
                             pin ∈ visitor_calls v
                             ∨ connected_pin block_ net pin)); [| |exact Hl].
      * intros x u wu u' Hx Hu. cbv beta.
        destruct (below_pin_net block_ x) as [wb [bp bn]|] eqn:Hb; cbn;
          [|done].
        destruct (visitConnectedPins block_ fuel bn (visitor bp u))
          as [[wr ur|]|] eqn:Hrec; [|done|done].
        intros [= <- <-] pin Hpin.
        pose proof (below_pin_net_Returns _ _ _ _ _ Hb) as [-> _].
        assert (crosses block_ net bp bn) as Hcross.
        { exists m. rewrite Hnet. split; [done|]. left. by exists x. }
        destruct (IH _ _ _ _ Hrec pin Hpin) as [Hold|Hconn].
        -- cbn in Hold. apply elem_of_app in Hold as [?|Heq%list_elem_of_singleton];
             [auto|]. subst pin. right. by eapply connected_pin_crossed.
        -- right. by eapply connected_pin_step.
      * exact Hv0.
  - destruct d as [d|].
    + rewrite !visit_all_calls. cbn [visitor_calls visited_nets].
      intros [= <- <-] pin. cbn [visitor_calls]. rewrite <- app_assoc.
      intros [?|Hl]%elem_of_app; [by left|].
      right. apply connected_pin_listed. unfold listed_pins. by rewrite Hcls.
    + intros [= <- <-] pin Hpin. by left.
Qed.

(** X17: the traversal hands the visitor only pins connected to the net:
    every pin in the visitor's calls is listed on a net reached from the
    starting net by crossings of module boundaries, or is the far side of
    such a crossing. *)
Theorem connectedPins_visits_only_connected_pins (block_ : dbBlock)
    (fuel : nat) (net : Net) (w : list LogMsg) (v : Visit) (pin : Pin) :
  connectedPins block_ fuel net = Some (Returns w v) →
  pin ∈ visitor_calls v →
  connected_pin block_ net pin.
Proof.
  unfold connectedPins. intros Hrun Hpin.
  destruct (visitConnectedPins_sound _ _ _ _ _ _ Hrun pin Hpin) as [Hold|?];
    [|done].
  by apply elem_of_nil in Hold.
Qed.

Lemma connectedPins_visits_only_connected_pins_witness :
  connected_pin demo_block (Some (mkObj dbModNetObj 1))
                (Some (mkObj dbModBTermObj 1)).
Proof.
  assert (∃ w v, connectedPins demo_block 5 (Some (mkObj dbModNetObj 1))
                 = Some (Returns w v)
                 ∧ Some (mkObj dbModBTermObj 1) ∈ visitor_calls v)
    as (w & v & Hrun & Hpin).
  { eexists _, _. split; [vm_compute; reflexivity|].
    cbn [visitor_calls]. set_solver. }
  exact (connectedPins_visits_only_connected_pins demo_block 5 _ w v _
           Hrun Hpin).
Defined.

(** ** Edits and the traversal *)

Lemma connectedPins_flat (block_ : dbBlock) (d : dbId) (fuel : nat) :
  connectedPins block_ (Datatypes.S fuel) (Some (mkObj dbNetObj d))
  = Some (Returns []
            (mkVisit (listed_pins block_ (Some (mkObj dbNetObj d)))
                     ({[Some (mkObj dbNetObj d)]} ∪ ∅))).
Proof.
  unfold connectedPins. cbn [visitConnectedPins].
  rewrite decide_False by set_solver.
  cbn [staToDb_Net getObjectType getId]. by rewrite !visit_all_calls.
Qed.

Lemma traversed_flat (block_ : dbBlock) (d : dbId) (pin : Pin) :
  traversed block_ (Some (mkObj dbNetObj d)) pin
  ↔ pin ∈ listed_pins block_ (Some (mkObj dbNetObj d)).
Proof.
  unfold traversed, traversal_bound. rewrite connectedPins_flat. split.
  - by intros (w & v & [= <- <-] & Hpin).
  - intros Hpin. by eexists _, _.
Qed.

Lemma elem_of_listed_pins_flat (block_ : dbBlock) (d : dbId) (pin : Pin) :
  pin ∈ listed_pins block_ (Some (mkObj dbNetObj d))
  ↔ (∃ j it, pin = Some (mkObj dbITermObj j) ∧ ITerms block_ !! j = Some it
             ∧ iterm_net it = Some d)
    ∨ (∃ b bt, pin = Some (mkObj dbBTermObj b) ∧ BTerms block_ !! b = Some bt
               ∧ bterm_net bt = Some d).
Proof.
  unfold listed_pins. cbn [staToDb_Net getObjectType getId].
  rewrite elem_of_app, !elem_of_pins_of.
  unfold net_getITerms, net_getBTerms, same.
  split.
  - intros [(j & -> & (it & Hj & Hn)%elem_of_dbSet_of_fst)
           |(b & -> & (bt & Hb & Hn)%elem_of_dbSet_of_fst)];
      apply bool_decide_eq_true in Hn; [left|right]; eauto.
  - intros [(j & it & -> & Hj & Hn)|(b & bt & -> & Hb & Hn)]; [left|right];
      eexists; (split; [done|]); apply elem_of_dbSet_of_fst; eexists;
      (split; [done|]); by apply bool_decide_eq_true.
Qed.

Lemma live_dbNet_Some (db : dbBlock) (net : Net) (w : list LogMsg) (d : dbId) :
  live_dbNet db net = Returns w d →
  net = Some (mkObj dbNetObj d) ∧ is_Some (Nets db !! d).
Proof.
  unfold live_dbNet. destruct net as [[typ i]|]; [|done].
  destruct typ; try done. cbn. unfold deref.
  destruct (Nets db !! i) as [n|] eqn:Hn; [|done]. cbn.
  intros [= <- <-]. by rewrite Hn.
Qed.

(** X18: connecting a pin of a flat instance puts the pin on the net and
    on no other flat net: afterwards the traversal of the net hands out the
    pin and what it handed out before, the traversal of any other flat net
    hands out what it did before except the pin, and the pin still answers
    its instance. *)
Theorem connect_moves_pin_to_the_net (block_ db : dbBlock) (i : dbId)
    (port : ConcretePort) (net : Net) (w : list LogMsg) (pin : Pin) :
  connect_Port block_ (Some (InstanceObj (mkObj dbInstObj i))) port net
  = Returns w (db, pin) →
  instance_Pin db pin = Returns [] (Some (InstanceObj (mkObj dbInstObj i)))
  ∧ ∀ d q,
      traversed db (Some (mkObj dbNetObj d)) q
      ↔ if decide (Some (mkObj dbNetObj d) = net)
        then q = pin ∨ traversed block_ (Some (mkObj dbNetObj d)) q
        else q ≠ pin ∧ traversed block_ (Some (mkObj dbNetObj d)) q.
Proof.
  unfold connect_Port. rewrite decide_False by done.
  unfold staToDb_Instance, getObjectType. run. cbn [getId].
  destruct (port_extPort port) as [dterm|]; [|done]. cbn [nonnull]. run.
  destruct (inst_getITerm block_ i dterm) as [[j it]|] eqn:Hfind; [|done].
  cbn [nonnull]. run. cbn [fst].
  destruct (live_dbNet block_ net) as [w0 d0|] eqn:Hlive; [|done].
  intros [= <- <- <-].
  apply live_dbNet_Some in Hlive as [-> _].
  apply dbSet_find_Some in Hfind as [Hj Hp].
  apply bool_decide_eq_true in Hp as [Hi _].
  assert (∀ j', ITerms (dbITerm_connect block_ j d0) !! j'
                = if decide (j' = j) then Some (iterm_on it d0)
                  else ITerms block_ !! j') as Hlook.
  { intros j'. cbn. case_decide as Hjj.
    - subst j'. by rewrite lookup_alter_eq, Hj.
    - by rewrite lookup_alter_ne. }
  split.
  - unfold instance_Pin; cbn -[dbITerm_connect]. unfold deref.
    rewrite Hlook, decide_True by done. cbn. by rewrite Hi.
  - intros d q.
    case_decide as Hd; rewrite !traversed_flat, !elem_of_listed_pins_flat;
      change (BTerms (dbITerm_connect block_ j d0)) with (BTerms block_).
    + injection Hd as ->. split.
      * intros [(j' & it' & -> & Hj' & Hn)|Hb]; [|right; by right].
        rewrite Hlook in Hj'. case_decide as Hjj; [subst; by left|].
        right. left. by exists j', it'.
      * intros [->|[(j' & it' & -> & Hj' & Hn)|Hb]]; [| |by right].
        -- left. exists j, (iterm_on it d0). split; [done|].
           by rewrite Hlook, decide_True.
        -- left. destruct (decide (j' = j)) as [->|Hjj].
           ++ exists j, (iterm_on it d0). split; [done|].
              by rewrite Hlook, decide_True.
           ++ exists j', it'. split; [done|].
              by rewrite Hlook, decide_False.
    + split.
      * intros [(j' & it' & -> & Hj' & Hn)|(b & bt & -> & Hb)].
        -- rewrite Hlook in Hj'. case_decide as Hjj.
           ++ injection Hj' as <-. cbn in Hn. congruence.
           ++ split; [congruence|]. left. by exists j', it'.
        -- split; [done|]. right. by exists b, bt.
      * intros [Hq [(j' & it' & -> & Hj' & Hn)|Hb]]; [|by right].
        left. exists j', it'. split; [done|].
        rewrite Hlook, decide_False by congruence. done.
Qed.

Lemma connect_moves_pin_to_the_net_witness :
  ∃ db,
    instance_Pin db (Some (mkObj dbITermObj 5))
    = Returns [] (Some (InstanceObj (mkObj dbInstObj 2)))
    ∧ ∀ d q,
        traversed db (Some (mkObj dbNetObj d)) q
        ↔ if decide (Some (mkObj dbNetObj d) = Some (mkObj dbNetObj 2))
          then q = Some (mkObj dbITermObj 5)
               ∨ traversed demo_block (Some (mkObj dbNetObj d)) q
          else q ≠ Some (mkObj dbITermObj 5)
               ∧ traversed demo_block (Some (mkObj dbNetObj d)) q.
Proof.
  exists (dbITerm_connect demo_block 5 2).
  apply (connect_moves_pin_to_the_net demo_block _ 2
           (mkPort "A" dir_input None (Some "A")) _ []).
  vm_compute. reflexivity.
Defined.

Lemma listed_pin_is_on_a_net (block_ : dbBlock) (net : Net) (pin : Pin) :
  pin ∈ listed_pins block_ net →
  match pin with
  | Some (mkObj dbITermObj j) =>
      ∃ it, ITerms block_ !! j = Some it
            ∧ (is_Some (iterm_net it) ∨ is_Some (iterm_modNet it))
  | Some (mkObj dbBTermObj b) =>
      ∃ bt, BTerms block_ !! b = Some bt
            ∧ (is_Some (bterm_net bt) ∨ is_Some (bterm_modNet bt))
  | _ => True
  end.
Proof.
  unfold listed_pins, net_getITerms, net_getBTerms, modnet_getITerms,
    modnet_getBTerms, same.
  destruct pin as [[typ j]|]; [|done]. destruct typ; try done.
  all: destruct (staToDb_Net net) as [[d|] [m|]];
       [rewrite !elem_of_app, !elem_of_pins_of; intros [H|[H|[H|H]]]
       |rewrite !elem_of_app, !elem_of_pins_of; intros [H|H]
       |rewrite !elem_of_app, !elem_of_pins_of; intros [H|[H|[H|H]]]
       |by intros ?%elem_of_nil].
  all: destruct H as (x & Heq & Hx); try discriminate Heq.
  all: injection Heq as ->;
       apply elem_of_dbSet_of_fst in Hx as (it & Hit & Hn);
       apply bool_decide_eq_true in Hn; exists it; rewrite Hn; eauto.
Qed.

Lemma crossed_pin_kind (block_ : dbBlock) (net net' : Net) (pin : Pin) :
  crosses block_ net pin net' →
  ∃ i, pin = Some (mkObj dbModBTermObj i) ∨ pin = Some (mkObj dbModITermObj i).
Proof.
  intros (m & _ & [(x & _ & Hb)|(x & _ & Ha)]).
  - unfold below_pin_net in Hb.
    destruct (deref (ModInsts block_) (moditerm_parent x.2)) as [w1 mi|];
      [|done].
    cbn -[net_Pin module_findModBTerm] in Hb.
    destruct (module_findModBTerm block_ (modinst_master mi)
                (moditerm_name x.2)) as [[b mb]|]; [|done].
    cbn -[net_Pin] in Hb.
    destruct (net_Pin block_ (Some (mkObj dbModBTermObj b))); [|done].
    cbn in Hb. injection Hb as _ <- _. exists b. by left.
  - unfold above_pin_net in Ha.
    destruct (deref (Modules block_) (modbterm_parent x.2)) as [w1 md|];
      [|done].
    cbn -[net_Pin modinst_findModITerm] in Ha.
    destruct (module_modInst md) as [mi|]; [|done].
    cbn -[net_Pin modinst_findModITerm] in Ha.
    destruct (modinst_findModITerm block_ mi (modbterm_name x.2))
      as [[j mt]|]; [|done].
    cbn -[net_Pin] in Ha.
    destruct (net_Pin block_ (Some (mkObj dbModITermObj j))); [|done].
    cbn in Ha. injection Ha as _ <- _. exists j. by right.
Qed.

(** X19: a disconnected terminal is off every net: after [disconnectPin]
    of a flat or boundary terminal no traversal of the design, from any
    net and with any fuel, hands that pin to the visitor, and the traversal
    of a flat net hands out exactly the other pins it handed out before. *)
Theorem disconnected_pin_is_not_visited (block_ db : dbBlock) (pin : Pin)
    (w : list LogMsg) :
  disconnectPin block_ pin = Returns w db →
  (∃ i, pin = Some (mkObj dbITermObj i) ∨ pin = Some (mkObj dbBTermObj i)) →
  (∀ fuel net w' v,
     connectedPins db fuel net = Some (Returns w' v) → pin ∉ visitor_calls v)
  ∧ ∀ d q,
      traversed db (Some (mkObj dbNetObj d)) q
      ↔ q ≠ pin ∧ traversed block_ (Some (mkObj dbNetObj d)) q.
Proof.
  intros Hdis [i Hkind].
  assert ((∀ j, ITerms db !! j
                = if decide (pin = Some (mkObj dbITermObj j))
                  then (λ t, mkITerm (iterm_inst t) (iterm_mterm t)
                               (iterm_sigType t) (iterm_ioType t) None None)
                       <$> ITerms block_ !! j
                  else ITerms block_ !! j)
          ∧ (∀ b, BTerms db !! b
                  = if decide (pin = Some (mkObj dbBTermObj b))
                    then (λ t, mkBTerm (bterm_name t) (bterm_sigType t)
                                 (bterm_ioType t) None None)
                         <$> BTerms block_ !! b
                    else BTerms block_ !! b)) as [Hit Hbt].
  { unfold disconnectPin in Hdis. destruct Hkind as [->| ->]; cbn in Hdis;
      unfold deref in Hdis.
    - destruct (ITerms block_ !! i) as [it|] eqn:Hi; [|done].
      cbn in Hdis. injection Hdis as <- <-. split.
      + intros j. cbn. case_decide as Hj.
        * injection Hj as <-. by rewrite lookup_alter_eq.
        * rewrite lookup_alter_ne; [done|congruence].
      + intros b. by rewrite decide_False.
    - destruct (BTerms block_ !! i) as [bt|] eqn:Hi; [|done].
      cbn in Hdis. injection Hdis as <- <-. split.
      + intros j. by rewrite decide_False.
      + intros b. cbn. case_decide as Hb.
        * injection Hb as <-. by rewrite lookup_alter_eq.
        * rewrite lookup_alter_ne; [done|congruence]. }
  assert (∀ net, pin ∉ listed_pins db net) as Hoff.
  { intros net Hin. apply listed_pin_is_on_a_net in Hin.
    destruct Hkind as [->| ->].
    - destruct Hin as (it & Hi & Hn). rewrite Hit, decide_True in Hi by done.
      destruct (ITerms block_ !! i); [|done]. injection Hi as <-.
      cbn in Hn. destruct Hn as [[? ?]|[? ?]]; done.
    - destruct Hin as (bt & Hi & Hn). rewrite Hbt, decide_True in Hi by done.
      destruct (BTerms block_ !! i); [|done]. injection Hi as <-.
      cbn in Hn. destruct Hn as [[? ?]|[? ?]]; done. }
  split.
  - intros fuel net w' v Hrun Hpin.
    destruct (visitConnectedPins_sound _ _ _ _ _ _ Hrun pin Hpin)
      as [Hold|(n & _ & [Hl|[n' Hx]])].
    + by apply elem_of_nil in Hold.
    + by eapply Hoff.
    + apply crossed_pin_kind in Hx as [j [->| ->]];
        destruct Hkind as [?|?]; done.
  - intros d q. rewrite !traversed_flat. split.
    + intros Hq. split; [intros ->; by eapply Hoff|].
      apply elem_of_listed_pins_flat in Hq. apply elem_of_listed_pins_flat.
      destruct Hq as [(j & it & -> & Hj & Hn)|(b & bt & -> & Hb & Hn)].
      * left. rewrite Hit in Hj. case_decide; [|by eauto].
        destruct (ITerms block_ !! j); [|done]. injection Hj as <-. done.
      * right. rewrite Hbt in Hb. case_decide; [|by eauto].
        destruct (BTerms block_ !! b); [|done]. injection Hb as <-. done.
    + intros [Hne Hq].
      apply elem_of_listed_pins_flat in Hq. apply elem_of_listed_pins_flat.
      destruct Hq as [(j & it & -> & Hj & Hn)|(b & bt & -> & Hb & Hn)].
      * left. exists j, it. by rewrite Hit, decide_False.
      * right. exists b, bt. by rewrite Hbt, decide_False.
Qed.

Lemma disconnected_pin_is_not_visited_witness :
  ∃ db,
    (∀ fuel net w' v,
       connectedPins db fuel net = Some (Returns w' v) →
       Some (mkObj dbITermObj 2) ∉ visitor_calls v)
    ∧ ∀ d q,
        traversed db (Some (mkObj dbNetObj d)) q
        ↔ q ≠ Some (mkObj dbITermObj 2)
          ∧ traversed demo_block (Some (mkObj dbNetObj d)) q.
Proof.
  exists (dbITerm_disconnect demo_block 2).
  apply (disconnected_pin_is_not_visited demo_block _ _ []).
  - vm_compute. reflexivity.
  - exists 2. by left.
Defined.

(** X20: a deleted net is nobody's net: after [deleteNet] no pin and no
    term answers the net, no lookup by name finds it, and the traversal of
    every other flat net hands out what it did before. *)
Theorem deleted_net_is_nobodys_net (block_ db : dbBlock)
    (net_drvr_pin_map_ map : NetDrvrPinMap) (net : Net) (w : list LogMsg) :
  deleteNet block_ net_drvr_pin_map_ net = Returns w (db, map) →
  is_Some net
  ∧ (∀ pin w', net_Pin db pin ≠ Returns w' net)
  ∧ (∀ term w', net_Term db term ≠ Returns w' net)
  ∧ (∀ pathName pathDivider inst name,
       findNet db pathName pathDivider inst name ≠ net)
  ∧ ∀ d q, Some (mkObj dbNetObj d) ≠ net →
           (traversed db (Some (mkObj dbNetObj d)) q
            ↔ traversed block_ (Some (mkObj dbNetObj d)) q).
Proof.
  unfold deleteNet. run.
  destruct (live_dbNet block_ net) as [w0 d0|] eqn:Hlive; [|done].
  intros [= <- <- <-].
  apply live_dbNet_Some in Hlive as [-> _].
  split; [done|]. split; [|split; [|split]].
  - intros [[typ j]|] w'; [|done]. destruct typ; try done.
    + rewrite net_Pin_ITerm. cbn. rewrite lookup_fmap.
      destruct (ITerms block_ !! j) as [it|]; [|done]. cbn.
      unfold net_of_iterm; cbn. destruct (iterm_modNet it); [done|].
      unfold unlink, same. case_bool_decide as Hd; [done|].
      destruct (iterm_net it); cbn; congruence.
    + unfold net_Pin; cbn. unfold deref.
      destruct (ModITerms block_ !! j) as [mt|]; [|done]. cbn.
      by destruct (moditerm_modNet mt).
    + unfold net_Pin; cbn. unfold deref.
      destruct (ModBTerms block_ !! j) as [mt|]; [|done]. cbn.
      by destruct (modbterm_modNet mt).
  - intros [[typ j]|] w'; [|done]. destruct typ; try done.
    + unfold net_Term; cbn. unfold deref. rewrite lookup_fmap.
      destruct (BTerms block_ !! j) as [bt|]; [|done]. cbn.
      destruct (bterm_modNet bt); [done|].
      unfold unlink, same. case_bool_decide as Hd; [done|].
      destruct (bterm_net bt); cbn; congruence.
    + unfold net_Term; cbn. unfold deref.
      destruct (ModBTerms block_ !! j) as [mt|]; [|done]. cbn.
      by destruct (modbterm_modNet mt).
  - intros pathName pathDivider inst name. unfold findNet, block_findNet.
    case_decide.
    all: match goal with
         | |- context[dbSet_find ?t ?p] =>
             destruct (dbSet_find t p) as [[d n]|] eqn:Hfind; [|done]
         end.
    all: apply dbSet_find_Some in Hfind as [Hd _]; cbn in Hd;
         cbn; intros [= ->]; by rewrite lookup_delete_eq in Hd.
  - intros d q Hd. rewrite !traversed_flat, !elem_of_listed_pins_flat.
    cbn. setoid_rewrite lookup_fmap.
    assert (∀ o, unlink d0 o = Some d ↔ o = Some d) as Hun.
    { intros o. unfold unlink, same. case_bool_decide as Ho; [|done].
      subst o. split; [done|]. intros [= ->]. done. }
    split.
    + intros [(j & it & -> & Hj & Hn)|(b & bt & -> & Hb & Hn)].
      * left. destruct (ITerms block_ !! j) as [it0|] eqn:Hl; [|done].
        injection Hj as <-. cbn in Hn. apply (proj1 (Hun _)) in Hn. by exists j, it0.
      * right. destruct (BTerms block_ !! b) as [bt0|] eqn:Hl; [|done].
        injection Hb as <-. cbn in Hn. apply (proj1 (Hun _)) in Hn. by exists b, bt0.
    + intros [(j & it & -> & Hj & Hn)|(b & bt & -> & Hb & Hn)].
      * left. eexists j, _. rewrite Hj. split; [done|]. split; [done|].
        cbn. by apply (proj2 (Hun _)).
      * right. eexists b, _. rewrite Hb. split; [done|]. split; [done|].
        cbn. by apply (proj2 (Hun _)).
Qed.

Lemma deleted_net_is_nobodys_net_witness :
  ∃ db,
    is_Some (Some (mkObj dbNetObj 2))
    ∧ (∀ pin w', net_Pin db pin ≠ Returns w' (Some (mkObj dbNetObj 2)))
    ∧ (∀ term w', net_Term db term ≠ Returns w' (Some (mkObj dbNetObj 2)))
    ∧ (∀ pathName pathDivider inst name,
         findNet db pathName pathDivider inst name
         ≠ Some (mkObj dbNetObj 2))
    ∧ ∀ d q, Some (mkObj dbNetObj d) ≠ Some (mkObj dbNetObj 2) →
             (traversed db (Some (mkObj dbNetObj d)) q
              ↔ traversed demo_block (Some (mkObj dbNetObj d)) q).
Proof.
  exists (dbNet_destroy demo_block 2).
  apply (deleted_net_is_nobodys_net demo_block _ demo_index
           (delete (Some (mkObj dbNetObj 2)) demo_index) _ []).
  vm_compute. reflexivity.
Defined.

(** ** Deleting a pin *)

Lemma dbSet_find_None {A} (tbl : gmap dbId A) (p : A → bool) (i : dbId) (a : A) :
  dbSet_find tbl p = None → tbl !! i = Some a → p a = false.
Proof.
  unfold dbSet_find. intros Hh Hi.
  destruct (p a) eqn:Hp; [|done].
  assert ((i, a) ∈ dbSet_of tbl p) as Hin by (by apply elem_of_dbSet_of).
  destruct (dbSet_of tbl p); [by apply elem_of_nil in Hin|done].
Qed.

Lemma dbSet_find_unique {A} (tbl : gmap dbId A) (p : A → bool) (i : dbId)
    (a : A) :
  tbl !! i = Some a → p a = true →
  (∀ j b, tbl !! j = Some b → p b = true → j = i) →
  dbSet_find tbl p = Some (i, a).
Proof.
  intros Hi Hp Huniq. unfold dbSet_find.
  assert ((i, a) ∈ dbSet_of tbl p) as Hin by (by apply elem_of_dbSet_of).
  destruct (dbSet_of tbl p) as [|[j b] l] eqn:Hl;
    [by apply elem_of_nil in Hin|].
  assert ((j, b) ∈ dbSet_of tbl p) as Hjb
    by (rewrite Hl; apply list_elem_of_here).
  apply elem_of_dbSet_of in Hjb as [Hj Hb].
  pose proof (Huniq _ _ Hj Hb) as ->. cbn. congruence.
Qed.

Lemma pinIterator_Top (hierarchy_ : bool) (block_ : dbBlock) :
  pinIterator_Instance hierarchy_ block_ (Some TopInstance)
  = Returns [] (pins_of dbBTermObj (block_getBTerms block_).*1).
Proof.
  unfold pinIterator_Instance, DbInstancePinIterator_new.
  rewrite bool_decide_eq_true_2 by done. run.
  cbn [inst_iitr_ inst_bitr_ inst_mi_itr_ length Nat.add app].
  by rewrite top_pin_iterator_drains by (simpl; lia).
Qed.

(** X21: [deletePin] of a live boundary terminal returns, and the pin is
    gone: no lookup by name at Top finds it and the pin iterator of Top
    produces the pins it produced before except that one. *)
Theorem deletePin_removes_boundary_terminal (hierarchy_ : bool)
    (block_ : dbBlock) (b : dbId) (bt : dbBTerm) :
  BTerms block_ !! b = Some bt →
  ∃ db pins pins',
    deletePin block_ (Some (mkObj dbBTermObj b)) = Returns [] db
    ∧ (∀ name w, findPin db (Some TopInstance) name
                 ≠ Returns w (Some (mkObj dbBTermObj b)))
    ∧ pinIterator_Instance hierarchy_ block_ (Some TopInstance)
      = Returns [] pins
    ∧ pinIterator_Instance hierarchy_ db (Some TopInstance)
      = Returns [] pins'
    ∧ ∀ q, q ∈ pins' ↔ q ≠ Some (mkObj dbBTermObj b) ∧ q ∈ pins.
Proof.
  intros Hb. eexists _, _, _.
  split.
  { unfold deletePin; cbn. unfold deref. rewrite Hb. cbn. done. }
  split.
  { intros name w. unfold findPin. rewrite decide_True by done.
    destruct (block_findBTerm (dbBTerm_destroy block_ b) name)
      as [[b' bt']|] eqn:Hfind; [|done].
    apply dbSet_find_Some in Hfind as [Hb' _]. cbn in Hb'.
    cbn. intros [= _ ->]. by rewrite lookup_delete_eq in Hb'. }
  split; [apply pinIterator_Top|]. split; [apply pinIterator_Top|].
  intros q. rewrite !elem_of_pins_of. unfold block_getBTerms.
  setoid_rewrite elem_of_dbSet_of_fst. cbn. split.
  - intros (j & -> & a & Hj & _).
    destruct (decide (j = b)) as [->|Hne];
      [by rewrite lookup_delete_eq in Hj|].
    rewrite lookup_delete_ne in Hj by done.
    split; [congruence|]. by exists j; eauto.
  - intros [Hne (j & -> & a & Hj & _)]. exists j. split; [done|].
    exists a. split; [|done]. rewrite lookup_delete_ne; [done|congruence].
Qed.

Lemma deletePin_removes_boundary_terminal_witness :
  ∃ db pins pins',
    deletePin demo_block (Some (mkObj dbBTermObj 3)) = Returns [] db
    ∧ (∀ name w, findPin db (Some TopInstance) name
                 ≠ Returns w (Some (mkObj dbBTermObj 3)))
    ∧ pinIterator_Instance true demo_block (Some TopInstance)
      = Returns [] pins
    ∧ pinIterator_Instance true db (Some TopInstance) = Returns [] pins'
    ∧ ∀ q, q ∈ pins' ↔ q ≠ Some (mkObj dbBTermObj 3) ∧ q ∈ pins.
Proof.
  apply (deletePin_removes_boundary_terminal true demo_block 3
           (mkBTerm "out_port" SIGNAL OUTPUT (Some 2) None)).
  reflexivity.
Defined.

(** X22: [deletePin] deletes boundary terminals only: for a flat terminal
    it ends with critical message 2003 whatever the block holds, and for a
    module terminal, a module boundary terminal or a null pin it returns
    the block as it was, without a message. *)
Theorem deletePin_deletes_boundary_terminals_only (block_ : dbBlock) :
  (∀ i, deletePin block_ (Some (mkObj dbITermObj i))
        = Stops [] (LoggedCritical 2003))
  ∧ (∀ typ i, typ = dbModITermObj ∨ typ = dbModBTermObj →
              deletePin block_ (Some (mkObj typ i)) = Returns [] block_)
  ∧ deletePin block_ None = Returns [] block_
  ∧ ∀ pin w db, deletePin block_ pin = Returns w db → db ≠ block_ →
                ∃ b, pin = Some (mkObj dbBTermObj b).
Proof.
  split; [done|]. split; [by intros typ i [->| ->]|]. split; [done|].
  intros [[typ i]|] w db; [|by intros [= <- <-]].
  destruct typ; try (by intros [= <- <-]).
  intros _ _. by exists i.
Qed.

(** ** Terms and pins *)

(** X23: the term of a module terminal leads back to it: when the module
    terminal's name has no slash, the module it sits on instantiates a
    module whose instance it is, and no other terminal of that instance
    has the name, then [pin(term(pin))] is the pin. *)
Theorem pin_of_term_of_module_terminal (block_ : dbBlock) (p : dbId)
    (mt : dbModITerm) (w : list LogMsg) (term : dbObject) (mi : dbModInst)
    (md : dbModule) :
  ModITerms block_ !! p = Some mt →
  ModInsts block_ !! moditerm_parent mt = Some mi →
  Modules block_ !! modinst_master mi = Some md →
  module_modInst md = Some (moditerm_parent mt) →
  after_last_slash (moditerm_name mt) = None →
  (∀ p' mt', ModITerms block_ !! p' = Some mt' →
             moditerm_parent mt' = moditerm_parent mt →
             moditerm_name mt' = moditerm_name mt → p' = p) →
  term_Pin block_ (Some (mkObj dbModITermObj p)) = Returns w (Some term) →
  pin_Term block_ (Some term) = Returns [] (Some (mkObj dbModITermObj p)).
Proof.
  intros Hp Hmi Hmd Hinst Hslash Huniq.
  unfold term_Pin; cbn. unfold deref. rewrite Hp. cbn. rewrite Hmi. cbn.
  rewrite Hslash. cbn [default].
  destruct (module_findModBTerm block_ (modinst_master mi) (moditerm_name mt))
    as [[b mb]|] eqn:Hfind; [|done].
  cbn. intros [= <- <-].
  apply dbSet_find_Some in Hfind as [Hb Hq].
  apply bool_decide_eq_true in Hq as [Hpar Hname].
  unfold pin_Term; cbn. unfold deref. rewrite Hb. cbn.
  rewrite Hpar, Hmd. cbn. rewrite Hinst. cbn [nonnull]. run.
  unfold modinst_findModITerm.
  rewrite (dbSet_find_unique (ModITerms block_) _ p mt); [done|done| |].
  - apply bool_decide_eq_true. by rewrite Hname.
  - intros p' mt' Hp' Hq. apply bool_decide_eq_true in Hq as [? ?].
    apply (Huniq p' mt'); [done|done|congruence].
Qed.

Lemma pin_of_term_of_module_terminal_witness :
  pin_Term demo_block (Some (mkObj dbModBTermObj 1))
  = Returns [] (Some (mkObj dbModITermObj 1)).
Proof.
  apply (pin_of_term_of_module_terminal demo_block 1
           (mkModITerm "in" 1 (Some 1)) [] _ (mkModInst "sub" 1 2)
           (mkModule "sub_mod" (Some 1))); try reflexivity.
  intros p' mt' Hp' _ _.
  apply elem_of_map_to_list in Hp'.
  vm_compute in Hp'. apply list_elem_of_singleton in Hp'. congruence.
Defined.

(** ** Connecting a new port at Top *)

(** X24: a port connected at Top for the first time is there afterwards:
    the new pin is found by the port's name, answers Top as its instance,
    is its own term, has the port's direction, [net(term)] answers the net
    and the traversal of the net hands the pin to the visitor. *)
Theorem connect_new_top_port_then_queries (block_ db : dbBlock)
    (port : ConcretePort) (net : Net) (w : list LogMsg) (pin : Pin) :
  block_findBTerm block_ (port_name port) = None →
  connect_Port block_ (Some TopInstance) port net = Returns w (db, pin) →
  findPin db (Some TopInstance) (port_name port) = Returns [] pin
  ∧ instance_Pin db pin = Returns [] (Some TopInstance)
  ∧ term_Pin db pin = Returns [] pin
  ∧ pin_Term db pin = Returns [] pin
  ∧ direction_Pin db (λ _, None) pin = Returns [] (port_direction port)
  ∧ net_Term db pin = Returns [] net
  ∧ traversed db net pin.
Proof.
  intros Hnew. unfold connect_Port. rewrite decide_True by done. run.
  destruct (live_dbNet block_ net) as [w0 d|] eqn:Hlive; [|done].
  apply live_dbNet_Some in Hlive as [-> _].
  rewrite Hnew. unfold dbBTerm_create.
  set (b := fresh_id (BTerms block_)).
  destruct (staToDb_PortDirection (port_direction port))
    as [w1 [sig_type io_type]|] eqn:Hdir; [|done].
  intros [= <- <- <-].
  assert (dbToSta_PortDirection sig_type io_type = port_direction port)
    as Hback.
  { revert Hdir. destruct (port_direction port); cbn; run; intros Hdir;
      by simplify_eq. }
  pose proof (fresh_id_None (BTerms block_)) as Hfresh. fold b in Hfresh.
  set (db := dbBTerm_setTypes _ _ _ _).
  assert (∀ j, BTerms db !! j
               = if decide (j = b)
                 then Some (mkBTerm (port_name port) sig_type io_type
                                    (Some d) None)
                 else BTerms block_ !! j) as Hlook.
  { intros j. subst db. cbn. case_decide as Hj.
    - subst j. by rewrite lookup_alter_eq, lookup_insert_eq.
    - by rewrite lookup_alter_ne, lookup_insert_ne. }
  assert (BTerms db !! b
          = Some (mkBTerm (port_name port) sig_type io_type (Some d) None))
    as Hb by (by rewrite Hlook, decide_True).
  clearbody db.
  split.
  { unfold findPin. rewrite decide_True by done. unfold block_findBTerm.
    rewrite (dbSet_find_unique (BTerms db) _ b _ Hb); [done| |].
    - by apply bool_decide_eq_true.
    - intros j bt Hj Hname. rewrite Hlook in Hj.
      case_decide as Hjb; [done|].
      by rewrite (dbSet_find_None _ _ _ _ Hnew Hj) in Hname. }
  split; [done|]. split; [done|]. split; [done|]. split.
  { unfold direction_Pin; cbn. unfold deref. rewrite Hb. cbn.
    by rewrite Hback. }
  split.
  { unfold net_Term; cbn. unfold deref. by rewrite Hb. }
  apply traversed_flat, elem_of_listed_pins_flat. right.
  by eexists b, _.
Qed.

Lemma connect_new_top_port_then_queries_witness :
  ∃ db pin,
    findPin db (Some TopInstance) "scan_out" = Returns [] pin
    ∧ instance_Pin db pin = Returns [] (Some TopInstance)
    ∧ term_Pin db pin = Returns [] pin
    ∧ pin_Term db pin = Returns [] pin
    ∧ direction_Pin db (λ _, None) pin = Returns [] dir_output
    ∧ net_Term db pin = Returns [] (Some (mkObj dbNetObj 2))
    ∧ traversed db (Some (mkObj dbNetObj 2)) pin.
Proof.
  assert (∃ db pin,
            connect_Port demo_block (Some TopInstance)
              (mkPort "scan_out" dir_output None None)
              (Some (mkObj dbNetObj 2))
            = Returns [] (db, pin)) as (db & pin & Hrun)
    by (eexists _, _; vm_compute; reflexivity).
  exists db, pin.
  apply (connect_new_top_port_then_queries demo_block db
           (mkPort "scan_out" dir_output None None) _ [] pin);
    [vm_compute; reflexivity|exact Hrun].
Defined.

(** ** The bus-order cookie *)

Lemma append_blank_inj (p1 p2 c1 c2 : string) :
  has_space p1 = false → has_space p2 = false →
  p1 +:+ " " +:+ c1 = p2 +:+ " " +:+ c2 → p1 = p2 ∧ c1 = c2.
Proof.
  revert p2. induction p1 as [|a p1 IH]; intros [|a' p2]; simpl.
  - intros _ _ Heq. by simplify_eq.
  - intros _ [Ha _]%orb_false_elim Heq. by simplify_eq.
  - intros [Ha _]%orb_false_elim _ Heq. by simplify_eq.
  - intros [_ H1]%orb_false_elim [_ H2]%orb_false_elim Heq.
    injection Heq as -> Heq.
    destruct (IH _ H1 H2 Heq) as [-> ->]. done.
Qed.

(** X25: the bus-order cookies of two ports never mix when the port names
    have no blank in them: different pairs of a port name and a cell name
    get different property keys. *)
Theorem portMsbFirst_key_inj (port1 cell1 port2 cell2 : string) :
  has_space port1 = false → has_space port2 = false →
  portMsbFirst_key port1 cell1 = portMsbFirst_key port2 cell2 →
  port1 = port2 ∧ cell1 = cell2.
Proof.
  intros H1 H2 Heq. unfold portMsbFirst_key in Heq.
  apply (append_blank_inj _ _ _ _ H1 H2).
  by simplify_eq/=.
Qed.

Lemma portMsbFirst_key_inj_witness :
  "data[3]" = "data[3]" ∧ "top" = "top".
Proof.
  apply (portMsbFirst_key_inj "data[3]" "top" "data[3]" "top");
    reflexivity.
Defined.

(** ** The nets of an instance *)

Lemma net_iterator_drains (fuel : nat) (ds : list dbId) :
  (length ds < fuel)%nat →
  iterate DbInstanceNetIterator_hasNext DbInstanceNetIterator_next fuel
          (mkInstNetIter ds)
  = pins_of dbNetObj ds.
Proof.
  revert fuel. induction ds as [|d ds IH]; intros fuel Hfuel.
  - destruct fuel; [cbn in Hfuel; lia|done].
  - destruct fuel; [cbn in Hfuel; lia|]. cbn. f_equal.
    apply IH. simpl in *. lia.
Qed.

(** X26: the net iterator of Top lists the live flat nets, each once, and
    the net iterator of any other instance lists nothing.  Every net that
    [findNet] finds, on whatever instance, and every constant net is among
    the nets listed at Top. *)
Theorem netIterator_lists_flat_nets_at_top (block_ : dbBlock) :
  (∀ inst, inst ≠ top_instance_ → netIterator block_ inst = [])
  ∧ NoDup (netIterator block_ (Some TopInstance))
  ∧ (∀ net, net ∈ netIterator block_ (Some TopInstance)
            ↔ ∃ d n, net = Some (mkObj dbNetObj d)
                     ∧ Nets block_ !! d = Some n)
  ∧ (∀ pathName pathDivider inst name net,
       findNet block_ pathName pathDivider inst name = Some net →
       Some net ∈ netIterator block_ (Some TopInstance))
  ∧ (∀ net value, (net, value) ∈ findConstantNets block_ →
                  net ∈ netIterator block_ (Some TopInstance)).
Proof.
  assert (netIterator block_ (Some TopInstance)
          = pins_of dbNetObj (dbSet_of (Nets block_) (λ _, true)).*1) as Htop.
  { unfold netIterator, DbInstanceNetIterator_new.
    rewrite decide_True by done. cbn [net_iter_].
    by rewrite net_iterator_drains by lia. }
  assert (∀ net, net ∈ netIterator block_ (Some TopInstance)
                 ↔ ∃ d n, net = Some (mkObj dbNetObj d)
                          ∧ Nets block_ !! d = Some n) as Hin.
  { intros net. rewrite Htop, elem_of_pins_of.
    setoid_rewrite elem_of_dbSet_of_fst. split.
    - intros (d & -> & n & Hd & _). by exists d, n.
    - intros (d & n & -> & Hd). exists d. split; [done|]. by exists n. }
  split; [|split; [|split; [|split]]].
  - intros inst Hinst. unfold netIterator, DbInstanceNetIterator_new.
    by rewrite decide_False.
  - rewrite Htop. apply pins_of_NoDup, NoDup_dbSet_of_fst.
  - exact Hin.
  - intros pathName pathDivider inst name net. unfold findNet, block_findNet.
    case_decide.
    all: match goal with
         | |- context[dbSet_find ?t ?p] =>
             destruct (dbSet_find t p) as [[d n]|] eqn:Hfind; [|done]
         end.
    all: apply dbSet_find_Some in Hfind as [Hd _]; cbn; intros [= <-];
         apply Hin; by exists d, n.
  - intros net value Hconst. apply Hin.
    destruct (findConstantNets_spec block_ net) as (Hz & Ho & _).
    assert (∃ sig, Net_sigType block_ net = Returns [] sig) as [sig Hsig].
    { destruct value; [apply Hz in Hconst as Hc|apply Ho in Hconst as Hc];
        unfold isGround, isPower in Hc;
        destruct (Net_sigType block_ net) as [w s|]; try done;
        revert Hc; run; rewrite app_nil_r; intros [= -> _]; by exists s. }
    destruct net as [[typ d]|]; [|done]. destruct typ; try done.
    unfold Net_sigType in Hsig; cbn in Hsig. unfold deref in Hsig.
    destruct (Nets block_ !! d) as [n|] eqn:Hd; [|done]. by exists d, n.
Qed.

(** ** The ports of the top cell *)

(** X27: a port of the top cell agrees with the boundary terminal it was
    made from: the top cell has the port, the pin found by the port's name
    is the terminal's pin, and [direction(pin)] is the port's direction.
    Connecting the port at Top reuses the terminal, and the direction of
    the pin is still the port's direction afterwards. *)
Theorem top_port_agrees_with_its_terminal (block_ : dbBlock) (b d : dbId)
    (bt : dbBTerm) (n : dbNet) :
  BTerms block_ !! b = Some bt →
  (∀ b' bt', BTerms block_ !! b' = Some bt' →
             bterm_name bt' = bterm_name bt → b' = b) →
  Nets block_ !! d = Some n →
  let port := makeTopPort bt in
  let pin := Some (mkObj dbBTermObj b) in
  port ∈ cell_ports (makeTopCell block_)
  ∧ findPin block_ (Some TopInstance) (port_name port) = Returns [] pin
  ∧ direction_Pin block_ (λ _, None) pin = Returns [] (port_direction port)
  ∧ ∃ db, connect_Port block_ (Some TopInstance) port
            (Some (mkObj dbNetObj d))
          = Returns [] (db, pin)
          ∧ direction_Pin db (λ _, None) pin
            = Returns [] (port_direction port).
Proof.
  intros Hb Huniq Hd port pin. subst port pin.
  assert (block_findBTerm block_ (bterm_name bt) = Some (b, bt)) as Hfind.
  { apply dbSet_find_unique; [done|by apply bool_decide_eq_true|].
    intros b' bt' Hb' Hname. apply bool_decide_eq_true in Hname. eauto. }
  split; [|split; [|split]].
  - unfold makeTopCell. cbn [cell_ports]. apply list_elem_of_fmap.
    exists bt. split; [done|]. apply list_elem_of_fmap. exists (b, bt).
    split; [done|]. by apply elem_of_dbSet_of.
  - unfold findPin. rewrite decide_True by done.
    cbn [makeTopPort port_name]. by rewrite Hfind.
  - unfold direction_Pin; cbn. unfold deref. by rewrite Hb.
  - unfold connect_Port. rewrite decide_True by done.
    rewrite (live_dbNet_flat _ _ _ Hd). run.
    cbn [makeTopPort port_name]. rewrite Hfind. cbn [fst].
    eexists. split; [done|].
    unfold direction_Pin; cbn. unfold deref.
    by rewrite lookup_alter_eq, Hb.
Qed.

Lemma top_port_agrees_with_its_terminal_witness :
  let port := makeTopPort (mkBTerm "out_port" SIGNAL OUTPUT (Some 2) None) in
  let pin := Some (mkObj dbBTermObj 3) in
  port ∈ cell_ports (makeTopCell demo_block)
  ∧ findPin demo_block (Some TopInstance) (port_name port) = Returns [] pin
  ∧ direction_Pin demo_block (λ _, None) pin
    = Returns [] (port_direction port)
  ∧ ∃ db, connect_Port demo_block (Some TopInstance) port
            (Some (mkObj dbNetObj 1))
          = Returns [] (db, pin)
          ∧ direction_Pin db (λ _, None) pin
            = Returns [] (port_direction port).
Proof.
  apply (top_port_agrees_with_its_terminal demo_block 3 1
           (mkBTerm "out_port" SIGNAL OUTPUT (Some 2) None)
           (mkNet "top_net" SIGNAL)); [reflexivity| |reflexivity].
  intros b' bt' Hb' Hname.
  apply elem_of_map_to_list in Hb'. vm_compute in Hb'.
  repeat (apply elem_of_cons in Hb' as [Hb'|Hb']);
    [..|by apply elem_of_nil in Hb']; injection Hb' as -> ->;
    first [done|discriminate Hname].
Defined.

(** ** The pins of a net *)

Lemma pinIterator_Net_value (hierarchy_ : bool) (block_ : dbBlock) (net : Net) :
  pinIterator_Net hierarchy_ block_ net
  = match staToDb_Net net with
    | (_, Some m) =>
        signal_pins (modnet_getITerms block_ m)
        ++ (if hierarchy_
            then pins_of dbModITermObj (modnet_getModITerms block_ m).*1
            else [])
    | (Some d, None) => signal_pins (net_getITerms block_ d)
    | (None, None) => []
    end.
Proof.
  unfold pinIterator_Net, DbNetPinIterator_new.
  destruct (staToDb_Net net) as [[d|] [m|]]; cbn [net_iitr_ net_mitr_];
    rewrite net_pin_iterator_drains by (simpl; lia); try done.
  all: destruct hierarchy_; by rewrite ?app_nil_r.
Qed.

Lemma pinIterator_Net_listed (hierarchy_ : bool) (block_ : dbBlock) (net : Net)
    (pin : Pin) :
  pin ∈ pinIterator_Net hierarchy_ block_ net → pin ∈ listed_pins block_ net.
Proof.
  rewrite pinIterator_Net_value. unfold listed_pins.
  assert (∀ iterms, pin ∈ signal_pins iterms → pin ∈ pins_of dbITermObj iterms.*1)
    as Hsig.
  { intros iterms (i & it & Hin & _ & ->)%elem_of_signal_pins.
    apply elem_of_pins_of. exists i. split; [done|].
    apply list_elem_of_fmap. by exists (i, it). }
  destruct (staToDb_Net net) as [[d|] [m|]]; rewrite ?elem_of_app.
  - intros [?%Hsig|Hm]; [by left|]. right. right. right.
    by destruct hierarchy_; [|apply elem_of_nil in Hm].
  - intros ?%Hsig. by left.
  - intros [?%Hsig|Hm]; [by left|]. right. right. right.
    by destruct hierarchy_; [|apply elem_of_nil in Hm].
  - done.
Qed.

(** X28: every pin the pin iterator of a net lists is handed to the
    visitor by the connectivity traversal of that net, whenever the
    traversal returns. *)
Theorem pinIterator_Net_pins_are_visited (hierarchy_ : bool)
    (block_ : dbBlock) (net : Net) (extra : nat) (w : list LogMsg)
    (v : Visit) (pin : Pin) :
  connectedPins block_ (traversal_bound block_ + extra) net
  = Some (Returns w v) →
  pin ∈ pinIterator_Net hierarchy_ block_ net →
  pin ∈ visitor_calls v.
Proof.
  intros Hrun Hpin.
  destruct (traversal_ends_and_covers block_ net extra) as (r & Hr & _ & Hcov).
  rewrite Hrun in Hr. injection Hr as <-.
  destruct (Hcov _ _ eq_refl) as [Hall _]. apply Hall.
  by eapply connected_pin_listed, pinIterator_Net_listed.
Qed.

Lemma pinIterator_Net_pins_are_visited_witness :
  ∃ v, connectedPins demo_block (traversal_bound demo_block + 0)
         (Some (mkObj dbModNetObj 1))
       = Some (Returns [] v)
       ∧ Some (mkObj dbModITermObj 1) ∈ visitor_calls v.
Proof.
  assert (∃ v, connectedPins demo_block (traversal_bound demo_block + 0)
                 (Some (mkObj dbModNetObj 1))
               = Some (Returns [] v)) as [v Hrun]
    by (eexists; vm_compute; reflexivity).
  exists v. split; [exact Hrun|].
  apply (pinIterator_Net_pins_are_visited true demo_block _ 0 [] v _ Hrun).
  vm_compute. set_solver.
Defined.

(** X29: a pin the pin iterator of a net lists answers that net when asked
    [net(pin)]; on a flat net a listed terminal that also has a module net
    answers the module net instead. *)
Theorem pinIterator_Net_pins_answer_the_net (hierarchy_ : bool)
    (block_ : dbBlock) (net : Net) (pin : Pin) :
  pin ∈ pinIterator_Net hierarchy_ block_ net →
  net_Pin block_ pin = Returns [] net
  ∨ ∃ d m, net = Some (mkObj dbNetObj d)
           ∧ net_Pin block_ pin = Returns [] (Some (mkObj dbModNetObj m)).
Proof.
  rewrite pinIterator_Net_value.
  destruct (staToDb_Net net) as [d [m|]] eqn:Hcls.
  - apply staToDb_Net_mod in Hcls as [-> ->].
    intros [Hi|Hm]%elem_of_app.
    + apply elem_of_signal_pins in Hi as (i & it & Hin & _ & ->).
      apply elem_of_dbSet_of in Hin as [Hi Hn].
      apply bool_decide_eq_true in Hn.
      left. rewrite net_Pin_ITerm, Hi. unfold net_of_iterm. by rewrite Hn.
    + destruct hierarchy_; [|by apply elem_of_nil in Hm].
      apply elem_of_pins_of in Hm as (j & -> & Hj).
      apply elem_of_dbSet_of_fst in Hj as (mt & Hj & Hn).
      apply bool_decide_eq_true in Hn.
      left. rewrite (net_Pin_ModITerm _ _ _ Hj). by rewrite Hn.
  - destruct d as [d|]; [|by intros ?%elem_of_nil].
    assert (net = Some (mkObj dbNetObj d)) as ->.
    { destruct net as [[typ i]|]; [|done]. destruct typ; cbn in Hcls;
        by simplify_eq. }
    intros (i & it & Hin & _ & ->)%elem_of_signal_pins.
    apply elem_of_dbSet_of in Hin as [Hi Hn].
    apply bool_decide_eq_true in Hn.
    rewrite net_Pin_ITerm, Hi. unfold net_of_iterm. rewrite Hn.
    destruct (iterm_modNet it) as [m|]; [right; by exists d, m|by left].
Qed.

Lemma pinIterator_Net_pins_answer_the_net_witness :
  net_Pin demo_block (Some (mkObj dbITermObj 4))
  = Returns [] (Some (mkObj dbNetObj 1))
  ∨ ∃ d m, Some (mkObj dbNetObj 1) = Some (mkObj dbNetObj d)
           ∧ net_Pin demo_block (Some (mkObj dbITermObj 4))
             = Returns [] (Some (mkObj dbModNetObj m)).
Proof.
  apply (pinIterator_Net_pins_answer_the_net false demo_block).
  vm_compute. set_solver.
Defined.
